(** * Spectral graph model of brain network dynamics (spectral_graph.py)

    Shallow embedding of [network_transfer_function] and
    [network_transfer_cost] from [SCFC-spectral-python/spectral_graph.py].

    Numbers are exact reals (Stdlib [R]); numpy's complex128 values are
    pairs of reals ([Cx]).  A Python exception (IndexError, ValueError)
    is [None] in the [option] results.  The two external numerical
    routines the code calls, [np.linalg.eig] and [scipy.stats.pearsonr],
    are section variables: the results proved hold for whatever they
    return. *)

From Stdlib Require Import Reals Lra Lia List ZArith Permutation Sorted.
Import ListNotations.

Open Scope R_scope.

(** Option monad: [None] is a raised exception. *)
Notation "'let?' x ':=' a 'in' b" :=
  (match a with Some x => b | None => None end)
  (at level 200, x pattern, a at level 100, b at level 200).

(** ** Complex scalars *)

Record Cx := mkC { re : R; im : R }.

Definition Cof (x : R) : Cx := mkC x 0.
Definition C0 : Cx := Cof 0.
Definition Ci : Cx := mkC 0 1.

Definition Cadd (z u : Cx) : Cx := mkC (re z + re u) (im z + im u).
Definition Csub (z u : Cx) : Cx := mkC (re z - re u) (im z - im u).
Definition Cmul (z u : Cx) : Cx :=
  mkC (re z * re u - im z * im u) (re z * im u + im z * re u).
Definition Cdiv (z u : Cx) : Cx :=
  let n := re u * re u + im u * im u in
  mkC ((re z * re u + im z * im u) / n) ((im z * re u - re z * im u) / n).

(** [np.abs] on a complex value. *)
Definition Cabs (z : Cx) : R := sqrt (re z * re z + im z * im z).

(** [np.exp] on a complex value. *)
Definition Cexp (z : Cx) : Cx :=
  mkC (exp (re z) * cos (im z)) (exp (re z) * sin (im z)).

(** [np.arctan2 y x] (C99 [atan2]) on finite reals. *)
Definition arctan2 (y x : R) : R :=
  if Rlt_dec 0 x then atan (y / x)
  else if Rlt_dec x 0 then
    (if Rle_dec 0 y then atan (y / x) + PI else atan (y / x) - PI)
  else if Rlt_dec 0 y then PI / 2
  else if Rlt_dec y 0 then - (PI / 2)
  else 0.

(** [np.angle]. *)
Definition Cangle (z : Cx) : R := arctan2 (im z) (re z).

(** ** Arrays *)

Definition mat := list (list R).
Definition cmat := list (list Cx).

Fixpoint map2 {A B T : Type} (f : A -> B -> T) (l1 : list A) (l2 : list B)
  : list T :=
  match l1, l2 with
  | x :: t1, y :: t2 => f x y :: map2 f t1 t2
  | _, _ => []
  end.

(** [np.sum] and [np.mean] of a vector (exact, so the summation order
    numpy uses does not matter). *)
Definition sum (xs : list R) : R := fold_right Rplus 0 xs.
Definition mean (xs : list R) : R := sum xs / INR (length xs).

Definition Csum (zs : list Cx) : Cx := fold_right Cadd C0 zs.

Definition ncols {A : Type} (M : list (list A)) : nat :=
  match M with [] => O | r :: _ => length r end.

(** [np.transpose] of a 2-D array. *)
Definition transpose {A : Type} (dflt : A) (M : list (list A))
  : list (list A) :=
  map (fun j => map (fun row => nth j row dflt) M) (seq 0 (ncols M)).

(** [np.identity n] and [np.diag v]. *)
Definition identity (n : nat) : mat :=
  map (fun i => map (fun j => if Nat.eqb i j then 1 else 0) (seq 0 n))
      (seq 0 n).

Definition diag {A : Type} (zero : A) (v : list A) : list (list A) :=
  map (fun i => map (fun j => if Nat.eqb i j then nth i v zero else zero)
                    (seq 0 (length v)))
      (seq 0 (length v)).

(** [np.matmul] of complex matrices; a real operand is promoted with
    [Cof], as numpy does. *)
Definition cmatmul (A B : cmat) : cmat :=
  map (fun row => map (fun col => Csum (map2 Cmul row col)) (transpose C0 B))
      A.

Definition cmat_of (M : mat) : cmat := map (map Cof) M.

(** [np.max] raises ValueError on an empty array. *)
Definition np_max (xs : list R) : option R :=
  match xs with [] => None | x :: t => Some (fold_left Rmax t x) end.

(** [A[:, k]]: IndexError when a row is too short. *)
Fixpoint column (M : cmat) (k : nat) : option (list Cx) :=
  match M with
  | [] => Some []
  | row :: M' =>
      let? z := nth_error row k in
      let? c := column M' k in Some (z :: c)
  end.

(** [v[:, idx]] and [d[idx]] for an index array [idx]. *)
Definition select_cols (v : cmat) (idx : list nat) : cmat :=
  map (fun row => map (fun j => nth j row C0) idx) v.
Definition select (d : list Cx) (idx : list nat) : list Cx :=
  map (fun j => nth j d C0) idx.

(** [np.argsort(key)]: indices ordered by ascending key.  Implemented as
    a stable insertion sort; numpy's default kind orders equal keys in
    an unspecified way, and nothing below depends on the order of
    ties. *)
Fixpoint insert_idx (key : nat -> R) (i : nat) (l : list nat) : list nat :=
  match l with
  | [] => [i]
  | j :: t => if Rlt_dec (key i) (key j) then i :: l
              else j :: insert_idx key i t
  end.

Definition argsort (key : nat -> R) (n : nat) : list nat :=
  fold_left (fun acc i => insert_idx key i acc) (seq 0 n) [].

(** [np.round(2/3 * n)]: round half to even, applied to the exact
    rational [2n/3].  Its fractional part is 0, 1/3 or 2/3, far from
    the 1/2 boundary, so the float product [2/3*n] rounds the same
    way. *)
Definition round_half_even (p q : Z) : Z :=
  let f := (p / q)%Z in
  let r := (p mod q)%Z in
  if (2 * r <? q)%Z then f
  else if (q <? 2 * r)%Z then (f + 1)%Z
  else if Z.even f then f else (f + 1)%Z.

Definition numsmalleigs (nroi : nat) : nat :=
  Z.to_nat (round_half_even (2 * Z.of_nat nroi) 3).

(** Python's slice [l[a:b]]. *)
Definition slice {A : Type} (a b : nat) (l : list A) : list A :=
  skipn a (firstn b l).

(** ** Degrees and the infinity mask

    [rowdegree[qind] = np.inf]: a masked degree is [Inf].  The code
    masks the row and the column degree of a region together, so the
    products below are either both finite or [inf * inf = inf]. *)

Inductive xR := Fin (r : R) | Inf.

Definition mask_inf (q : list bool) (d : list R) : list xR :=
  map2 (fun (b : bool) (x : R) => if b then Inf else Fin x) q d.

Definition xmul (a b : xR) : xR :=
  match a, b with Fin x, Fin y => Fin (x * y) | _, _ => Inf end.
Definition xsqrt (a : xR) : xR :=
  match a with Fin x => Fin (sqrt x) | Inf => Inf end.
Definition xadd (a : xR) (r : R) : xR :=
  match a with Fin x => Fin (x + r) | Inf => Inf end.
(** [np.divide(1, x)]: [1/inf = 0]. *)
Definition xrecip (a : xR) : R :=
  match a with Fin x => 1 / x | Inf => 0 end.

(** [np.spacing(1)]. *)
Definition eps : R := / 2 ^ 52.

Definition zero_thr : R := 0.05.
Definition a_frac : R := 0.5.
Definition use_smalleigs : bool := true.

(** Lines 176-181. *)
Definition combined_degree (C : mat) : list R :=
  map2 Rplus (map sum C) (map sum (transpose 0 C)).

Definition qind_of (C : mat) : list bool :=
  let tot := combined_degree C in
  map (fun s => if Rlt_dec s (0.2 * mean tot) then true else false) tot.

Definition degrees (C : mat) : list xR * list xR :=
  let rowdegree := map sum C in
  let coldegree := map sum (transpose 0 C) in
  let qind := qind_of C in
  (mask_inf qind rowdegree, mask_inf qind coldegree).

Definition cmatsub (A B : cmat) : cmat := map2 (map2 Csub) A B.

(** Lines 190-198: the delay-weighted Laplacian
    [L = 0.8 I - diag(L2) @ Cc]. *)
Definition laplacian (C D : mat) (w speed : R) : cmat :=
  let (rowdegree, coldegree) := degrees C in
  let nroi := length C in
  let Tau := map (map (fun d => 0.001 * d / speed)) D in
  let Cc := map2 (map2 (fun c t =>
              Cmul (Cof c) (Cexp (Cmul (Cmul (mkC 0 (-1)) (Cof t)) (Cof w)))))
              C Tau in
  let L1 := map (map (Rmult 0.8)) (identity nroi) in
  let L2 := map2 (fun r c => xrecip (xadd (xsqrt (xmul r c)) eps))
                 rowdegree coldegree in
  cmatsub (cmat_of L1) (cmatmul (cmat_of (diag 0 L2)) Cc).

(** Lines 226-231: clamp of the mode coupling [q1] and the per-mode
    response. *)
Definition clamp_q1 (q1 : list Cx) : option (list Cx) :=
  let? m := np_max (map Cabs q1) in
  let qthr := zero_thr * m in
  let magq1 := map (fun z => Rmax (Cabs z) qthr) q1 in
  let angq1 := map Cangle q1 in
  Some (map2 (fun m a => Cmul (Cof m) (Cexp (Cmul Ci (Cof a)))) magq1 angq1).

Definition freqresp_of (Htotal : Cx) (q1 : list Cx) : option (list Cx) :=
  let? q1c := clamp_q1 q1 in Some (map (Cdiv Htotal) q1c).

(** [freqresp_out] starts as the Python int [0] and becomes an array at
    the first [+=]. *)
Inductive resp := RScalar0 | RArr (v : list Cx).

Definition resp_add (acc : resp) (v : list Cx) : resp :=
  match acc with
  | RScalar0 => RArr (map (Cadd (Cof 0)) v)
  | RArr a => RArr (map2 Cadd a v)
  end.

(** Lines 234-235. *)
Fixpoint accum_modes (fr : list Cx) (Vv : cmat) (ks : list nat) (acc : resp)
  : option resp :=
  match ks with
  | [] => Some acc
  | k :: ks' =>
      let? f := nth_error fr k in
      let? col := column Vv k in
      accum_modes fr Vv ks' (resp_add acc (map (Cmul f) col))
  end.

Record ntf_out := mk_ntf_out {
  freqresp : list Cx;
  ev : list Cx;
  Vv : cmat;
  freqresp_out : list Cx;
  FCmodel : cmat }.

(** ** Python floats

    The cost function computes with numpy floats, where [log10 0] is
    [-inf], and the log of a negative number, [inf - inf] and [0/0] are
    [nan].  Finite values are exact reals.  A sum of such values does not
    depend on the summation order. *)

Inductive pyfloat := PyNum (r : R) | PyNInf | PyPInf | PyNaN.

Definition Reqb (x y : R) : bool := if Req_dec_T x y then true else false.

Definition fadd (a b : pyfloat) : pyfloat :=
  match a, b with
  | PyNaN, _ | _, PyNaN => PyNaN
  | PyNInf, PyPInf | PyPInf, PyNInf => PyNaN
  | PyNInf, _ | _, PyNInf => PyNInf
  | PyPInf, _ | _, PyPInf => PyPInf
  | PyNum x, PyNum y => PyNum (x + y)
  end.

Definition fneg (a : pyfloat) : pyfloat :=
  match a with
  | PyNum x => PyNum (- x)
  | PyNInf => PyPInf
  | PyPInf => PyNInf
  | PyNaN => PyNaN
  end.

Definition fsub (a b : pyfloat) : pyfloat := fadd a (fneg b).

(** Product with a positive real. *)
Definition fscale (c : R) (a : pyfloat) : pyfloat :=
  match a with PyNum x => PyNum (c * x) | e => e end.

Definition fsum (xs : list pyfloat) : pyfloat := fold_right fadd (PyNum 0) xs.

(** [np.mean]; the mean of an empty array is [0/0 = nan]. *)
Definition np_mean (xs : list pyfloat) : pyfloat :=
  match xs with [] => PyNaN | _ => fscale (/ INR (length xs)) (fsum xs) end.

(** [x == 0]. *)
Definition is_zero (a : pyfloat) : bool :=
  match a with PyNum x => Reqb x 0 | _ => false end.

(** [np.log10] of a finite value. *)
Definition flog10 (y : R) : pyfloat :=
  if Rlt_dec 0 y then PyNum (ln y / ln 10)
  else if Req_dec_T y 0 then PyNInf else PyNaN.

Section Model.

(** [np.linalg.eig]: eigenvalues and the matrix whose columns are the
    eigenvectors. *)
Variable eig : cmat -> list Cx * cmat.
(** [scipy.stats.pearsonr(x, y)[0]]. *)
Variable pearsonr : list pyfloat -> list pyfloat -> pyfloat.

(** Lines 202-214: eigendecomposition, ordering and truncation. *)
Definition sorted_modes (d : list Cx) (v : cmat) (K : nat)
  : list Cx * cmat :=
  let eig_ind := if use_smalleigs
                 then argsort (fun i => re (nth i d C0)) (length d)
                 else argsort (fun i => Cabs (nth i d C0)) (length d) in
  let eig_vec := select_cols v eig_ind in
  let eig_val := select d eig_ind in
  (firstn K eig_val, map (firstn K) eig_vec).

(** Lines 217-224: the cortical single-node transfer functions. *)
Definition Htotal_of (w tau_e tau_i alpha gei gii : R) : Cx :=
  let jw := Cmul Ci (Cof w) in
  let sq z := Cmul z z in
  let He := Cdiv (Cof (1 / tau_e ^ 2)) (sq (Cadd jw (Cof (1 / tau_e)))) in
  let Hi := Cdiv (Cof (gii * 1 / tau_i ^ 2)) (sq (Cadd jw (Cof (1 / tau_i)))) in
  let Hed := Cdiv (Cof (alpha / tau_e)) (Cadd jw (Cmul (Cof (alpha / tau_e)) He)) in
  let Hid := Cdiv (Cof (alpha / tau_i)) (Cadd jw (Cmul (Cof (alpha / tau_i)) Hi)) in
  let gHH := Cmul (Cmul (Cof gei) He) Hi in
  let Heid := Cdiv gHH (Cadd (Cof 1) gHH) in
  Cadd (Cadd (Cmul (Cof a_frac) Hed) (Cmul (Cof ((1 - a_frac) / 2)) Hid))
       (Cmul (Cof ((1 - a_frac) / 2)) Heid).

Definition He_of (w tau_e : R) : Cx :=
  let jw := Cmul Ci (Cof w) in
  Cdiv (Cof (1 / tau_e ^ 2)) (Cmul (Cadd jw (Cof (1 / tau_e)))
                                   (Cadd jw (Cof (1 / tau_e)))).

(** Line 226. *)
Definition q1_of (w alpha tauC : R) (He : Cx) (ev : list Cx) : list Cx :=
  map (fun e => Cmul (Cof (1 / alpha * tauC))
                     (Cadd (Cmul Ci (Cof w)) (Cmul (Cmul (Cof (alpha / tauC)) He) e)))
      ev.

Definition network_transfer_function (C D : mat)
    (w tau_e tau_i alpha speed gei gii tauC : R) : option ntf_out :=
  let nroi := length C in
  let K := if use_smalleigs then numsmalleigs nroi else nroi in
  let L := laplacian C D w speed in
  let (d, v) := eig L in
  let (ev, Vv) := sorted_modes d v K in
  let He := He_of w tau_e in
  let Htotal := Htotal_of w tau_e tau_i alpha gei gii in
  let q1 := q1_of w alpha tauC He ev in
  let? fr := freqresp_of Htotal q1 in
  let? out := accum_modes fr Vv (seq 1 (K - 1)) RScalar0 in
  let Vv1 := map (slice 1 K) Vv in
  let FC := cmatmul (cmatmul Vv1 (diag C0 (map (fun z => Cmul z z) (slice 1 K fr))))
                    (transpose C0 Vv1) in
  match out with
  | RScalar0 => None  (* np.diag of a 0-d array: ValueError *)
  | RArr o =>
      (* [1/den] is exact division: a zero response gives [1/0 = 0] here
         and [inf] in numpy. *)
      let den := map (fun z => sqrt (Cabs z)) o in
      let Dn := cmat_of (diag 0 (map (fun x => 1 / x) den)) in
      Some (mk_ntf_out fr ev Vv o (cmatmul (cmatmul Dn FC) Dn))
  end.


(** ** The cost function [network_transfer_cost] *)

(** numpy integer indexing: a label [n] addresses [n] when
    [0 <= n < len] and [len + n] when [-len <= n < 0]; anything else is
    an IndexError. *)
Definition norm_index (len : nat) (n : Z) : option nat :=
  if ((0 <=? n)%Z && (n <? Z.of_nat len)%Z)%bool then Some (Z.to_nat n)
  else if ((- Z.of_nat len <=? n)%Z && (n <? 0)%Z)%bool
  then Some (Z.to_nat (Z.of_nat len + n))
  else None.

Definition py_get {A : Type} (l : list A) (n : Z) : option A :=
  let? i := norm_index (length l) n in nth_error l i.

Fixpoint list_set {A : Type} (l : list A) (i : nat) (x : A) : list A :=
  match l, i with
  | [], _ => []
  | _ :: t, O => x :: t
  | y :: t, S i' => y :: list_set t i' x
  end.

Definition py_set {A : Type} (l : list A) (n : Z) (x : A) : option (list A) :=
  let? i := norm_index (length l) n in Some (list_set l i x).

Fixpoint traverse {A B : Type} (f : A -> option B) (l : list A)
  : option (list B) :=
  match l with
  | [] => Some []
  | x :: t => let? y := f x in let? ys := traverse f t in Some (y :: ys)
  end.

(** [mag2db]: [20*np.log10(y)]. *)
Definition mag2db (y : list R) : list pyfloat :=
  map (fun x => fscale 20 (flog10 x)) y.

(** Full discrete convolution, [full[k] = sum_j a[j] * v[k-j]]. *)
Definition conv_full (a v : list R) : list R :=
  map (fun k => sum (map (fun j =>
                  if ((j <=? k)%nat && (k - j <? length v)%nat)%bool
                  then nth j a 0 * nth (k - j) v 0 else 0)
                (seq 0 (length a))))
      (seq 0 (length a + length v - 1)).

(** [np.convolve(a, v, mode='same')]: the operands are swapped when [v]
    is the longer one, an empty operand is a ValueError, and the result
    is the centred window of length [max(len a, len v)] of the full
    convolution (numpy's [correlate] with [left = m // 2]). *)
Definition convolve_same (a v : list R) : option (list R) :=
  let (a', v') := if Nat.ltb (length a) (length v) then (v, a) else (a, v) in
  match a', v' with
  | [], _ | _, [] => None
  | _, _ =>
      let n := length a' in
      let m := length v' in
      Some (firstn n (skipn (m - 1 - m / 2) (conv_full a' v')))
  end.

(** [q - np.mean(q)]. *)
Definition center (q : list pyfloat) : list pyfloat :=
  let mu := np_mean q in map (fun x => fsub x mu) q.

(** Lines 303-306: the empirical curve. *)
Definition data_curve (qdata : list R) : list pyfloat :=
  if negb (Reqb (sum qdata) 0) then center (mag2db qdata)
  else map PyNum qdata.

(** Lines 308-310: the model curve. *)
Definition model_curve (lpf : list R) (row : list Cx)
  : option (list pyfloat) :=
  let qmodel := map Cabs row in
  let? c := convolve_same qmodel lpf in
  Some (center (mag2db c)).

(** Lines 303-314: the agreement score of one region.  The tests
    [np.sum(...) == 0] are decided on exact sums.  A centred finite
    curve sums to exactly [0] here, while in float64 it usually leaves
    a rounding residue and reaches [pearsonr]; what follows from these
    tests holds for the exact sums only. *)
Definition region_err (lpf qraw : list R) (row : list Cx)
  : option pyfloat :=
  let qdata := data_curve qraw in
  let? qmodel := model_curve lpf row in
  if (is_zero (fsum qmodel) || is_zero (fsum qdata))%bool then Some (PyNum 0)
  else Some (pearsonr qdata qmodel).

(** Lines 284-298: one transfer-function evaluation per frequency bin. *)
Fixpoint sweep (C D : mat) (tau_e tau_i alpha speed gei gii tauC : R)
    (frange : list R) : option (list (list Cx)) :=
  match frange with
  | [] => Some []
  | f :: t =>
      let? o := network_transfer_function C D (2 * PI * f)
                  tau_e tau_i alpha speed gei gii tauC in
      let? rest := sweep C D tau_e tau_i alpha speed gei gii tauC t in
      Some (freqresp_out o :: rest)
  end.

(** Lines 300-301: [np.asarray(freq_model)[:, rois_with_MEG].transpose()].
    With no frequency bin the array is 1-D and the 2-D index raises. *)
Definition restrict (fm : list (list Cx)) (rois : list Z) : option cmat :=
  match fm with
  | [] => None
  | _ => let? sel := traverse (fun row => traverse (py_get row) rois) fm in
         Some (transpose C0 sel)
  end.

(** *** The heap of numpy arrays

    Arguments are references to arrays on a heap; [err_min] is the one
    array the body allocates and then updates in place. *)

Inductive value :=
  | VVec (v : list R) | VFVec (v : list pyfloat) | VMat (M : mat)
  | VIdx (ix : list Z).

Record heap := mk_heap { hp : nat -> option value; hnext : nat }.

Definition alloc (h : heap) (x : value) : nat * heap :=
  (hnext h,
   mk_heap (fun l => if Nat.eqb l (hnext h) then Some x else hp h l)
           (S (hnext h))).

Definition hwrite (h : heap) (l : nat) (x : value) : heap :=
  mk_heap (fun l' => if Nat.eqb l' l then Some x else hp h l') (hnext h).

Definition read_vec (h : heap) (l : nat) : option (list R) :=
  match hp h l with Some (VVec v) => Some v | _ => None end.
Definition read_fvec (h : heap) (l : nat) : option (list pyfloat) :=
  match hp h l with Some (VFVec v) => Some v | _ => None end.
Definition read_mat (h : heap) (l : nat) : option mat :=
  match hp h l with Some (VMat M) => Some M | _ => None end.
Definition read_idx (h : heap) (l : nat) : option (list Z) :=
  match hp h l with Some (VIdx ix) => Some ix | _ => None end.

(** Lines 302-314: [err_min[n] = ...] for each label [n]. *)
Fixpoint region_loop (lpf : list R) (FMEG : mat) (fsel : cmat) (e : nat)
    (ns : list Z) (h : heap) : option heap :=
  match ns with
  | [] => Some h
  | n :: ns' =>
      let? qraw := py_get FMEG n in
      let? row := py_get fsel n in
      let? s := region_err lpf qraw row in
      let? errs := read_fvec h e in
      let? errs' := py_set errs n s in
      region_loop lpf FMEG fsel e ns' (hwrite h e (VFVec errs'))
  end.

(** Lines 246-317. *)
Definition network_transfer_cost (params C D lpf FMEGdata frange
    rois_with_MEG : nat) (h : heap) : option (pyfloat * heap) :=
  let? ps := read_vec h params in
  let? Cm := read_mat h C in
  let? Dm := read_mat h D in
  let? lp := read_vec h lpf in
  let? FM := read_mat h FMEGdata in
  let? fr := read_vec h frange in
  let? rois := read_idx h rois_with_MEG in
  let? tau_e := nth_error ps 0 in
  let? tau_i := nth_error ps 1 in
  let? alpha := nth_error ps 2 in
  let? speed := nth_error ps 3 in
  let? gei := nth_error ps 4 in
  let? gii := nth_error ps 5 in
  let? tauC := nth_error ps 6 in
  let (err_min, h1) := alloc h (VFVec (repeat (PyNum 0) (length rois))) in
  let? fm := sweep Cm Dm tau_e tau_i alpha speed gei gii tauC fr in
  let? fsel := restrict fm rois in
  let? h2 := region_loop lp FM fsel err_min rois h1 in
  let? errs := read_fvec h2 err_min in
  Some (fneg (np_mean errs), h2).

End Model.

(** ** Region orderings, data loading and connectome preprocessing *)

(** [np.arange(a, b)]. *)
Definition arange (a b : Z) : list Z :=
  map (fun k => (a + Z.of_nat k)%Z) (seq 0 (Z.to_nat (b - a))).

(** [M[idx, ]]: the rows at the labels [idx]; IndexError out of range. *)
Definition take_rows {A : Type} (M : list A) (idx : list Z) : option (list A) :=
  traverse (py_get M) idx.

(** [M[:, idx]]: the columns at the labels [idx]. *)
Definition take_cols {A : Type} (M : list (list A)) (idx : list Z)
  : option (list (list A)) :=
  traverse (fun row => traverse (py_get row) idx) M.

(** Lines 18-19. *)
Definition cortJulia_lh : list Z :=
  [0; 1; 2; 3; 4; 6; 7; 8; 10; 11; 12; 13; 14; 15; 17; 16; 18; 19; 20; 21;
   22; 23; 24; 25; 26; 27; 28; 29; 30; 31; 5; 32; 33; 9]%Z.

(** Lines 7-28: [(permJulia, emptyJulia, cortJulia)]. *)
Definition get_Julia_order : list Z * list Z * list Z :=
  let qsubcort_lh := [0; 40; 36; 39; 38; 37; 35; 34; 0]%Z in
  let qsubcort_rh := map (fun x => x + 34 + 1)%Z qsubcort_lh in
  let cortJulia := cortJulia_lh ++ map (fun x => 34 + x)%Z cortJulia_lh in
  let cortJulia_rh := map (fun x => x + 34 + 7)%Z cortJulia_lh in
  let permJulia := cortJulia_lh ++ cortJulia_rh ++ qsubcort_lh ++ qsubcort_rh in
  let emptyJulia := [68; 77; 76; 85]%Z in
  (permJulia, emptyJulia, cortJulia).

(** Lines 53-56. *)
Definition permHCP : list Z :=
  arange 18 52 ++ arange 52 86 ++ arange 0 9 ++ arange 9 18.

(** Lines 31-61, from the two arrays [np.genfromtxt] parses out of the
    CSV files ([cdk_hcp], [ddk_hcp]). *)
Definition get_HCP_connectome (cdk_hcp ddk_hcp : mat)
  : option (mat * mat * list Z) :=
  let? c1 := take_rows cdk_hcp permHCP in
  let? Cdk_conn := take_cols c1 permHCP in
  let? d1 := take_rows ddk_hcp permHCP in
  let? Ddk_conn := take_cols d1 permHCP in
  Some (Cdk_conn, Ddk_conn, permHCP).

(** Lines 64-85, from the arrays [DK_timecourse] and [DK_coords_meg]
    that [loadmat] reads. *)
Definition get_MEG_data (DK_timecourse DK_coords_meg : mat) (ordering : list Z)
  : option (mat * mat) :=
  let? MEGdata := take_rows DK_timecourse ordering in
  let? coords := take_rows DK_coords_meg ordering in
  Some (MEGdata, coords).

(** [M[i, j]] of a real matrix. *)
Definition mat_get (M : mat) (i j : nat) : R := nth j (nth i M []) 0.

(** [M[i, j] = x]. *)
Definition set_entry (M : mat) (i j : nat) (x : R) : mat :=
  list_set M i (list_set (nth i M []) j x).

Fixpoint assign_row (M : mat) (i : nat) (cols : list nat) (qrow : list R) : mat :=
  match cols, qrow with
  | j :: cs, x :: xs => assign_row (set_entry M i j x) i cs xs
  | _, _ => M
  end.

(** [M[np.ix_(rows, cols)] = Q] with the labels already resolved:
    entries are written row by row, a repeated position keeping the
    last value written. *)
Fixpoint assign_block (M : mat) (rows cols : list nat) (Q : mat) : mat :=
  match rows, Q with
  | i :: rs, qrow :: Qs => assign_block (assign_row M i cols qrow) rs cols Qs
  | _, _ => M
  end.

(** Lines 102-120.  [np.maximum] of the [|linds| x |linds|] and
    [|rinds| x |rinds|] blocks broadcasts only when the sizes agree or
    one is [1], and the broadcast result is then assigned back into
    both blocks, which fails unless [|linds| = |rinds|]: any other
    length pair raises ValueError. *)
Definition bi_symmetric_c (Cdk_conn : mat) (linds rinds : list Z) : option mat :=
  let? cl := take_rows Cdk_conn linds in
  let? cr := take_rows Cdk_conn rinds in
  let? cll := take_cols cl linds in
  let? crr := take_cols cr rinds in
  let? clr := take_cols cl rinds in
  let? crl := take_cols cr linds in
  if negb (Nat.eqb (length linds) (length rinds)) then None else
  let q := map2 (map2 Rmax) cll crr in
  let q1 := map2 (map2 Rmax) clr crl in
  let? li := traverse (norm_index (length Cdk_conn)) linds in
  let? ri := traverse (norm_index (length Cdk_conn)) rinds in
  let? lc := traverse (norm_index (ncols Cdk_conn)) linds in
  let? rc := traverse (norm_index (ncols Cdk_conn)) rinds in
  let C1 := assign_block Cdk_conn li lc q in
  let C2 := assign_block C1 ri rc q in
  let C3 := assign_block C2 li rc q1 in
  Some (assign_block C3 ri lc q1).

(** A float times a real: [c * inf] is [inf], [-inf] or [nan] by the
    sign of [c]. *)
Definition fmulr (c : R) (a : pyfloat) : pyfloat :=
  match a with
  | PyNum x => PyNum (c * x)
  | PyNaN => PyNaN
  | PyPInf => if Rlt_dec 0 c then PyPInf else if Rlt_dec c 0 then PyNInf else PyNaN
  | PyNInf => if Rlt_dec 0 c then PyNInf else if Rlt_dec c 0 then PyPInf else PyNaN
  end.

(** [np.minimum(x, t)]: [nan] when [t] is [nan]. *)
Definition np_minimum (x : R) (t : pyfloat) : pyfloat :=
  match t with
  | PyNum y => PyNum (Rmin x y)
  | PyPInf => PyNum x
  | PyNInf => PyNInf
  | PyNaN => PyNaN
  end.

(** Lines 123-138.  [Cdk_conn[Cdk_conn > 0]] lists the positive entries
    in row-major order. *)
Definition reduce_extreme_dir (Cdk_conn : mat) (max_dir f : R)
  : list (list pyfloat) :=
  let pos := filter (fun x => if Rlt_dec 0 x then true else false) (concat Cdk_conn) in
  let thr := fmulr f (np_mean (map PyNum pos)) in
  let C := map (map (fun x => np_minimum x thr)) Cdk_conn in
  map (map (fun x => fadd (fmulr max_dir x) (fmulr (1 - max_dir) x))) C.

(** ** Sample inputs *)

(** An eigensolver for diagonal matrices: the diagonal entries and the
    identity.  It is an exact eigendecomposition of the Laplacian of an
    edgeless connectome, which is [0.8 I]. *)
Definition eig_diag (L : cmat) : list Cx * cmat :=
  (map (fun i => nth i (nth i L []) C0) (seq 0 (length L)),
   map (fun i => map (fun j => if Nat.eqb i j then Cof 1 else C0)
                     (seq 0 (length L)))
       (seq 0 (length L))).

(** The [n x n] zero matrix. *)
Definition zeros (n : nat) : mat := repeat (repeat 0 n) n.

(** The [n x n] complex identity, the eigenvectors [eig_diag] returns. *)
Definition cident (n : nat) : cmat :=
  map (fun i => map (fun j => if Nat.eqb i j then Cof 1 else C0) (seq 0 n)) (seq 0 n).

(** A three-region connectome in which region 0 has combined degree
    [1], below [0.2] times the mean combined degree [14]. *)
Definition conn4 : mat := [[0; 0; 0]; [1; 0; 10]; [0; 10; 0]].

(** A symmetric four-region connectome: regions [0; 1] of one hemisphere,
    [2; 3] of the other. *)
Definition conn_lr : mat := [[0; 1; 2; 3]; [1; 0; 4; 5]; [2; 4; 0; 6]; [3; 5; 6; 0]].

Definition lr_left : list nat := [0; 1]%nat.

Definition lr_right : list nat := [2; 3]%nat.

(** ** Auxiliary predicates of the proofs *)

Definition key_le (key : nat -> R) (a b : nat) : Prop := key a <= key b.

Definition resp_ok (n : nat) (r : resp) : Prop :=
  match r with RScalar0 => True | RArr a => length a = n end.

(** The label-[r] entry of a frequency row, as [np.asarray(...)[:, r]]
    reads it. *)
Definition pick (row : list Cx) (r : Z) : Cx :=
  match norm_index (length row) r with Some i => nth i row C0 | None => C0 end.

(** A heap holding the arguments of [network_transfer_cost] at locations
    [0..6]: parameters, two [3 x 3] zero matrices (an edgeless
    three-region connectome), the filter [lp], the empirical rows [FM],
    the single frequency [10] and the labels [rois]. *)
Definition sample_heap (FM : mat) (lp : list R) (rois : list Z) : heap :=
  mk_heap (fun l => match l with
    | O => Some (VVec [0.012; 0.003; 1; 5; 4; 1; 0.006])
    | 1%nat => Some (VMat (zeros 3))
    | 2%nat => Some (VMat (zeros 3))
    | 3%nat => Some (VVec lp)
    | 4%nat => Some (VMat FM)
    | 5%nat => Some (VVec [10])
    | 6%nat => Some (VIdx rois)
    | _ => None end) 7.

(** Insertion sort of integer labels, to compare label lists up to
    order. *)
Fixpoint zinsert (x : Z) (l : list Z) : list Z :=
  match l with
  | [] => [x]
  | y :: t => if (x <=? y)%Z then x :: l else y :: zinsert x t
  end.

Definition zsort (l : list Z) : list Z := fold_right zinsert [] l.

(** A square [n x n] matrix. *)
Definition square (n : nat) (M : mat) : Prop :=
  length M = n /\ Forall (fun row => length row = n) M.

Definition symmetric (n : nat) (M : mat) : Prop :=
  forall i j, (i < n)%nat -> (j < n)%nat -> mat_get M i j = mat_get M j i.

(** * Properties *)

(** ** List and array lemmas *)

Lemma length_map2 {A B T : Type} (f : A -> B -> T) l1 l2 :
  length (map2 f l1 l2) = Nat.min (length l1) (length l2).
Proof.
  revert l2; induction l1 as [|x t IH]; intros [|y t2]; simpl; auto.
Qed.

Lemma nth_map2 {A B T : Type} (f : A -> B -> T) l1 l2 n a b t :
  (n < length l1)%nat -> (n < length l2)%nat ->
  nth n (map2 f l1 l2) t = f (nth n l1 a) (nth n l2 b).
Proof.
  revert l2 n; induction l1 as [|x r IH]; intros [|y r2] n H1 H2;
    simpl in *; try lia.
  destruct n; auto. apply IH; lia.
Qed.

Lemma length_seq_map {A : Type} (f : nat -> A) n :
  length (map f (seq 0 n)) = n.
Proof. now rewrite length_map, length_seq. Qed.

Lemma length_firstn_le {A : Type} (k : nat) (l : list A) :
  (k <= length l)%nat -> length (firstn k l) = k.
Proof. intro; rewrite length_firstn; lia. Qed.

(** ** [numsmalleigs] is [round(2n/3) = (2n+1)/3]. *)

Lemma numsmalleigs_eq n : numsmalleigs n = ((2 * n + 1) / 3)%nat.
Proof.
  unfold numsmalleigs, round_half_even.
  set (p := (2 * Z.of_nat n)%Z).
  assert (Hd := Z.div_mod p 3 ltac:(lia)).
  assert (Hm := Z.mod_pos_bound p 3 ltac:(lia)).
  assert (Hf : (0 <= p / 3)%Z) by (apply Z.div_pos; lia).
  set (f := (p / 3)%Z) in *. set (r := (p mod 3)%Z) in *.
  apply Nat2Z.inj. rewrite Nat2Z.inj_div, Nat2Z.inj_add, Nat2Z.inj_mul.
  change (Z.of_nat 2) with 2%Z. change (Z.of_nat 1) with 1%Z.
  change (Z.of_nat 3) with 3%Z. fold p.
  destruct (Z.ltb_spec (2 * r) 3).
  - rewrite Z2Nat.id by lia. apply Z.div_unique with (r := (r + 1)%Z); lia.
  - destruct (Z.ltb_spec 3 (2 * r)).
    + rewrite Z2Nat.id by lia.
      apply Z.div_unique with (r := (r - 2)%Z); lia.
    + lia.
Qed.

Lemma numsmalleigs_le n : (numsmalleigs n <= n)%nat.
Proof.
  rewrite numsmalleigs_eq.
  destruct n; [reflexivity|]. apply Nat.Div0.div_le_upper_bound; lia.
Qed.

Lemma numsmalleigs_ge2 n : (3 <= n)%nat -> (2 <= numsmalleigs n)%nat.
Proof.
  intro H. rewrite numsmalleigs_eq.
  apply Nat.div_le_lower_bound; lia.
Qed.

Lemma numsmalleigs_small n : (n <= 2)%nat -> (numsmalleigs n <= 1)%nat.
Proof.
  intro H. rewrite numsmalleigs_eq.
  destruct n as [|[|[|n]]]; cbv; lia.
Qed.

(** ** [argsort] is a permutation sorted by its key *)

Section Argsort.
Variable key : nat -> R.

Lemma insert_idx_perm i l : Permutation (insert_idx key i l) (i :: l).
Proof.
  induction l as [|j t IH]; simpl; [reflexivity|].
  destruct (Rlt_dec (key i) (key j)); [reflexivity|].
  rewrite IH. apply perm_swap.
Qed.

Lemma argsort_fold_perm l acc :
  Permutation (fold_left (fun acc i => insert_idx key i acc) l acc) (l ++ acc).
Proof.
  revert acc; induction l as [|i l IH]; intro acc; simpl; [reflexivity|].
  rewrite IH, insert_idx_perm. symmetry. apply Permutation_middle.
Qed.

Lemma argsort_perm n : Permutation (argsort key n) (seq 0 n).
Proof.
  unfold argsort. rewrite argsort_fold_perm, app_nil_r. reflexivity.
Qed.

Lemma length_argsort n : length (argsort key n) = n.
Proof.
  rewrite (Permutation_length (argsort_perm n)). apply length_seq.
Qed.

Lemma insert_idx_hd a i l :
  HdRel (key_le key) a l -> (key_le key) a i -> HdRel (key_le key) a (insert_idx key i l).
Proof.
  intros Hh Hai. destruct l as [|j t]; simpl.
  - constructor; exact Hai.
  - destruct (Rlt_dec (key i) (key j)); constructor; [exact Hai|].
    inversion Hh; assumption.
Qed.

Lemma insert_idx_sorted i l :
  Sorted (key_le key) l -> Sorted (key_le key) (insert_idx key i l).
Proof.
  induction l as [|j t IH]; intro Hs; simpl.
  - repeat constructor.
  - destruct (Rlt_dec (key i) (key j)).
    + constructor; [exact Hs|]. constructor. unfold key_le; lra.
    + inversion Hs; subst. constructor; [now apply IH|].
      apply insert_idx_hd; [assumption|]. unfold key_le; lra.
Qed.

Lemma argsort_sorted n : Sorted (key_le key) (argsort key n).
Proof.
  unfold argsort.
  assert (H : forall l acc, Sorted (key_le key) acc ->
            Sorted (key_le key) (fold_left (fun acc i => insert_idx key i acc) l acc)).
  { induction l as [|i l IH]; intros acc Ha; simpl; [exact Ha|].
    apply IH, insert_idx_sorted, Ha. }
  apply H. constructor.
Qed.

Lemma argsort_strongly_sorted n : StronglySorted (key_le key) (argsort key n).
Proof.
  apply Sorted_StronglySorted; [|apply argsort_sorted].
  intros x y z; unfold key_le; lra.
Qed.

End Argsort.

(** ** Shape of the transfer-function outputs *)

Lemma clamp_q1_some q1 :
  q1 <> [] -> exists qc, clamp_q1 q1 = Some qc /\ length qc = length q1.
Proof.
  intro Hne. unfold clamp_q1.
  destruct q1 as [|z t]; [congruence|]. cbn [np_max map].
  eexists; split; [reflexivity|].
  rewrite length_map2. cbn [length]. rewrite !length_map. lia.
Qed.

Lemma column_some (M : cmat) k :
  Forall (fun row => (k < length row)%nat) M ->
  exists c, column M k = Some c /\ length c = length M.
Proof.
  induction 1 as [|row M' Hrow _ IH]; simpl.
  - eexists; split; reflexivity.
  - destruct (nth_error row k) eqn:E.
    + destruct IH as [c' [Hc Hl]]. rewrite Hc.
      eexists; split; [reflexivity|]. simpl; lia.
    + apply nth_error_None in E. lia.
Qed.

Lemma accum_modes_some fr (Vm : cmat) ks acc :
  (forall k, In k ks -> (k < length fr)%nat) ->
  (forall k, In k ks -> Forall (fun row => (k < length row)%nat) Vm) ->
  resp_ok (length Vm) acc ->
  exists r, accum_modes fr Vm ks acc = Some r /\ resp_ok (length Vm) r /\
            (ks <> [] -> exists a, r = RArr a).
Proof.
  revert acc; induction ks as [|k ks IH]; intros acc Hfr HV Hacc; simpl.
  - exists acc; repeat split; auto. congruence.
  - destruct (nth_error fr k) eqn:Ef.
    2:{ apply nth_error_None in Ef. specialize (Hfr k (or_introl eq_refl)). lia. }
    destruct (column_some Vm k (HV k (or_introl eq_refl))) as [col [Hc Hl]].
    rewrite Hc.
    destruct (IH (resp_add acc (map (Cmul c) col))) as [r [Hr [Hok _]]].
    + intros; apply Hfr; now right.
    + intros; apply HV; now right.
    + destruct acc; simpl in *; rewrite ?length_map2, !length_map; lia.
    + exists r; repeat split; auto. intros _.
      destruct r as [|a].
      * exfalso. clear -Hr. revert Hr.
        assert (Hg : forall ks a0, accum_modes fr Vm ks (RArr a0) <> Some RScalar0).
        { induction ks0 as [|k' ks' IH']; intros a0; simpl; [congruence|].
          destruct (nth_error fr k'); [|congruence].
          destruct (column Vm k'); [|congruence]. apply IH'. }
        destruct acc; simpl; apply Hg.
      * eauto.
Qed.
Lemma ntf_some eig C D w tau_e tau_i alpha speed gei gii tauC N :
  length C = N -> (3 <= N)%nat ->
  length (fst (eig (laplacian C D w speed))) = N ->
  length (snd (eig (laplacian C D w speed))) = N ->
  exists o, network_transfer_function eig C D w tau_e tau_i alpha speed gei gii tauC = Some o
    /\ length (ev o) = numsmalleigs N /\ length (freqresp o) = numsmalleigs N
    /\ length (Vv o) = N /\ Forall (fun row => length row = numsmalleigs N) (Vv o)
    /\ length (freqresp_out o) = N.
Proof.
  intros HC HN Hd Hv.
  unfold network_transfer_function.
  destruct (eig (laplacian C D w speed)) as [d v] eqn:Heig. simpl in Hd, Hv.
  rewrite HC. unfold sorted_modes, use_smalleigs. cbv zeta iota beta.
  set (K := numsmalleigs N).
  assert (HK2 : (2 <= K)%nat) by (apply numsmalleigs_ge2; lia).
  assert (HKN : (K <= N)%nat) by apply numsmalleigs_le.
  set (p := argsort (fun i => re (nth i d C0)) (length d)).
  assert (Hp : length p = N) by (unfold p; rewrite length_argsort; lia).
  set (ev0 := firstn K (select d p)).
  assert (Hev : length ev0 = K) by (unfold ev0, select; rewrite length_firstn, length_map; lia).
  set (q1 := q1_of w alpha tauC (He_of w tau_e) ev0).
  assert (Hq1 : length q1 = K) by (unfold q1, q1_of; rewrite length_map; lia).
  destruct (clamp_q1_some q1) as [qc [Hqc Hlqc]].
  { intro E. rewrite E in Hq1. simpl in Hq1. lia. }
  unfold freqresp_of. rewrite Hqc.
  set (fr := map (Cdiv (Htotal_of w tau_e tau_i alpha gei gii)) qc).
  set (Vm := map (firstn K) (select_cols v p)).
  assert (Hfr : length fr = K) by (unfold fr; rewrite length_map; lia).
  assert (HVm : Forall (fun row => length row = K) Vm).
  { unfold Vm, select_cols. apply Forall_forall. intros row Hrow.
    apply in_map_iff in Hrow. destruct Hrow as [r0 [<- Hr0]].
    apply in_map_iff in Hr0. destruct Hr0 as [r1 [<- _]].
    rewrite length_firstn, length_map. lia. }
  assert (HVl : length Vm = N) by (unfold Vm, select_cols; rewrite !length_map; lia).
  destruct (accum_modes_some fr Vm (seq 1 (K - 1)) RScalar0) as [r [Hr [Hok Harr]]].
  - intros k Hk. apply in_seq in Hk. lia.
  - intros k Hk. apply in_seq in Hk. eapply Forall_impl; [|exact HVm]. simpl; intros; lia.
  - exact I.
  - rewrite Hr. destruct Harr as [a Ha].
    { destruct (K - 1)%nat eqn:E; [lia|]. simpl; congruence. }
    subst r. simpl in Hok.
    eexists; split; [reflexivity|]. simpl. repeat split; auto. lia.
Qed.

Lemma ntf_none_small eig C D w tau_e tau_i alpha speed gei gii tauC :
  (length C <= 2)%nat ->
  network_transfer_function eig C D w tau_e tau_i alpha speed gei gii tauC = None.
Proof.
  intro HN. unfold network_transfer_function.
  destruct (eig (laplacian C D w speed)) as [d v].
  unfold use_smalleigs. cbv zeta iota beta.
  assert (HK : (numsmalleigs (length C) - 1 = 0)%nat)
    by (pose proof (numsmalleigs_small _ HN); lia).
  rewrite HK. simpl.
  destruct (freqresp_of _ _); reflexivity.
Qed.

(** Claim C1 (as amended).  On the default truncated path the Transfer
    Engine keeps [K = np.round(2/3 N) = (2N+1)/3] eigenpairs, not
    [floor(2/3 N)]: for [N >= 3] (and an eigensolver returning [N]
    eigenpairs) the eigenvalue vector and the per-mode response have
    length [K] and the eigenvector matrix has [N] rows of [K] columns;
    for [N <= 2] ([K <= 1]) the call raises, as [np.diag] is applied to
    the scalar [freqresp_out = 0]. *)
Theorem ntf_mode_count eig C D w tau_e tau_i alpha speed gei gii tauC N :
  length C = N ->
  length (fst (eig (laplacian C D w speed))) = N ->
  length (snd (eig (laplacian C D w speed))) = N ->
  ((N <= 2)%nat ->
   network_transfer_function eig C D w tau_e tau_i alpha speed gei gii tauC
   = None) /\
  ((3 <= N)%nat ->
   exists o,
     network_transfer_function eig C D w tau_e tau_i alpha speed gei gii tauC
     = Some o /\
     length (ev o) = ((2 * N + 1) / 3)%nat /\
     length (freqresp o) = ((2 * N + 1) / 3)%nat /\
     length (Vv o) = N /\
     Forall (fun row => length row = ((2 * N + 1) / 3)%nat) (Vv o)).
Proof.
  intros HC Hd Hv. split.
  - intro HN. apply ntf_none_small. lia.
  - intro HN.
    destruct (ntf_some eig C D w tau_e tau_i alpha speed gei gii tauC N HC HN Hd Hv)
      as [o [Ho [H1 [H2 [H3 [H4 _]]]]]].
    rewrite numsmalleigs_eq in *.
    exists o; repeat split; assumption.
Qed.

Lemma ntf_mode_count_witness :
  length (zeros 4) = 4%nat /\
  length (fst (eig_diag (laplacian (zeros 4) (zeros 4) (2 * PI * 10) 5))) = 4%nat /\
  length (snd (eig_diag (laplacian (zeros 4) (zeros 4) (2 * PI * 10) 5))) = 4%nat /\
  (((4 <= 2)%nat ->
    network_transfer_function eig_diag (zeros 4) (zeros 4) (2 * PI * 10)
      0.012 0.003 1 5 4 1 0.006 = None) /\
   ((3 <= 4)%nat ->
    exists o,
      network_transfer_function eig_diag (zeros 4) (zeros 4) (2 * PI * 10)
        0.012 0.003 1 5 4 1 0.006 = Some o /\
      length (ev o) = ((2 * 4 + 1) / 3)%nat /\
      length (freqresp o) = ((2 * 4 + 1) / 3)%nat /\
      length (Vv o) = 4%nat /\
      Forall (fun row => length row = ((2 * 4 + 1) / 3)%nat) (Vv o))).
Proof.
  split; [reflexivity|]. split; [reflexivity|]. split; [reflexivity|].
  exact (ntf_mode_count eig_diag (zeros 4) (zeros 4) (2 * PI * 10)
           0.012 0.003 1 5 4 1 0.006 4 eq_refl eq_refl eq_refl).
Defined.

(** Claim C1 fails as stated: on a 4-region connectome (the edgeless
    one, whose Laplacian [0.8 I] [eig_diag] decomposes exactly) the
    engine keeps 3 modes, while [floor(2/3 * 4) = 2]. *)
Lemma ntf_mode_count_cex :
  exists o,
    network_transfer_function eig_diag (zeros 4) (zeros 4) (2 * PI * 10)
      0.012 0.003 1 5 4 1 0.006 = Some o /\
    length (ev o) = 3%nat /\ length (freqresp o) = 3%nat /\
    length (ev o) <> (2 * 4 / 3)%nat.
Proof.
  destruct (ntf_some eig_diag (zeros 4) (zeros 4) (2 * PI * 10)
              0.012 0.003 1 5 4 1 0.006 4 eq_refl ltac:(lia) eq_refl eq_refl)
    as [o [Ho [H1 [H2 _]]]].
  exists o. rewrite H1, H2. repeat split; [exact Ho|..]; cbv; lia.
Qed.
Lemma ntf_ev_Vv eig C D w tau_e tau_i alpha speed gei gii tauC o :
  network_transfer_function eig C D w tau_e tau_i alpha speed gei gii tauC = Some o ->
  sorted_modes (fst (eig (laplacian C D w speed))) (snd (eig (laplacian C D w speed)))
               (numsmalleigs (length C)) = (ev o, Vv o).
Proof.
  unfold network_transfer_function.
  destruct (eig (laplacian C D w speed)) as [d v]. simpl fst; simpl snd.
  unfold use_smalleigs at 1. cbv zeta iota beta.
  destruct (sorted_modes d v (numsmalleigs (length C))) as [e V] eqn:Hs.
  destruct (freqresp_of _ _); [|discriminate].
  destruct (accum_modes _ _ _ _) as [[|a]|]; try discriminate.
  intro H; injection H as <-. reflexivity.
Qed.

Lemma StronglySorted_app_inv {A : Type} (Rel : A -> A -> Prop) l1 l2 :
  StronglySorted Rel (l1 ++ l2) ->
  StronglySorted Rel l1 /\ StronglySorted Rel l2 /\
  (forall x y, In x l1 -> In y l2 -> Rel x y).
Proof.
  induction l1 as [|a l1 IH]; simpl; intro H.
  - repeat split; [constructor|assumption|]. intros x y [].
  - inversion H as [|? ? Hs Hf]; subst.
    destruct (IH Hs) as [H1 [H2 H3]]. repeat split.
    + constructor; [assumption|].
      apply Forall_forall. intros x Hx. rewrite Forall_forall in Hf.
      apply Hf, in_or_app; now left.
    + assumption.
    + intros x y [<-|Hx] Hy.
      * rewrite Forall_forall in Hf. apply Hf, in_or_app; now right.
      * now apply H3.
Qed.

Lemma StronglySorted_map_key (key : nat -> R) l :
  StronglySorted (key_le key) l -> StronglySorted Rle (map key l).
Proof.
  induction 1 as [|a l Hs IH Hf]; simpl; constructor; [assumption|].
  rewrite Forall_map. exact Hf.
Qed.

Lemma sorted_modes_spec d v K :
  let p := argsort (fun i => re (nth i d C0)) (length d) in
  Permutation p (seq 0 (length d)) /\
  fst (sorted_modes d v K) = select d (firstn K p) /\
  snd (sorted_modes d v K) = select_cols v (firstn K p) /\
  Sorted Rle (map re (fst (sorted_modes d v K))) /\
  (forall i j, In i (firstn K p) -> In j (skipn K p) ->
     re (nth i d C0) <= re (nth j d C0)).
Proof.
  intro p. unfold sorted_modes, use_smalleigs. fold p. simpl fst; simpl snd.
  assert (Hss := argsort_strongly_sorted (fun i => re (nth i d C0)) (length d)).
  fold p in Hss. rewrite <- (firstn_skipn K p) in Hss.
  destruct (StronglySorted_app_inv _ _ _ Hss) as [H1 [_ H3]].
  split; [apply argsort_perm|]. split; [|split; [|split]].
  - unfold select. apply firstn_map.
  - unfold select_cols. rewrite map_map. apply map_ext. intro row. apply firstn_map.
  - unfold select. rewrite firstn_map, map_map.
    apply StronglySorted_Sorted. exact (StronglySorted_map_key _ _ H1).
  - exact H3.
Qed.

(** Claim C6.  On the default truncated path the eigenpairs of the
    Laplacian are ordered by ascending real part of the eigenvalue
    ([np.argsort(np.real(d))]) and the first [K] are kept: the kept
    eigenvalues are [d[p[0]], ..., d[p[K-1]]] for a permutation [p] of
    the eigenpair indices, the kept eigenvector columns are the columns
    [p[0], ..., p[K-1]] of [v] (same permutation), the kept eigenvalues
    are in ascending order of real part, and each has real part at most
    that of every dropped eigenvalue. *)
Theorem ntf_sorted_modes eig C D w tau_e tau_i alpha speed gei gii tauC N :
  length C = N -> (3 <= N)%nat ->
  length (fst (eig (laplacian C D w speed))) = N ->
  length (snd (eig (laplacian C D w speed))) = N ->
  let d := fst (eig (laplacian C D w speed)) in
  let v := snd (eig (laplacian C D w speed)) in
  let K := numsmalleigs N in
  exists o p,
    network_transfer_function eig C D w tau_e tau_i alpha speed gei gii tauC
    = Some o /\
    Permutation p (seq 0 N) /\
    ev o = select d (firstn K p) /\
    Vv o = select_cols v (firstn K p) /\
    Sorted Rle (map re (ev o)) /\
    (forall i j, In i (firstn K p) -> In j (skipn K p) ->
       re (nth i d C0) <= re (nth j d C0)).
Proof.
  intros HC HN Hd Hv. cbv zeta.
  destruct (ntf_some eig C D w tau_e tau_i alpha speed gei gii tauC N HC HN Hd Hv)
    as [o [Ho _]].
  assert (Hm := ntf_ev_Vv _ _ _ _ _ _ _ _ _ _ _ _ Ho). rewrite HC in Hm.
  revert Hm Hd. destruct (eig (laplacian C D w speed)) as [d v].
  simpl fst; simpl snd. intros Hm Hd.
  destruct (sorted_modes_spec d v (numsmalleigs N)) as [Hp [He [HV [Hs Hk]]]].
  rewrite Hm in He, HV, Hs. simpl in He, HV, Hs.
  rewrite Hd in Hp, He, HV, Hk.
  eexists o, _. split; [exact Ho|]. split; [exact Hp|].
  repeat split; eassumption.
Qed.

Lemma ntf_sorted_modes_witness :
  length (zeros 3) = 3%nat /\ (3 <= 3)%nat /\
  length (fst (eig_diag (laplacian (zeros 3) (zeros 3) (2 * PI * 10) 5))) = 3%nat /\
  length (snd (eig_diag (laplacian (zeros 3) (zeros 3) (2 * PI * 10) 5))) = 3%nat /\
  let d := fst (eig_diag (laplacian (zeros 3) (zeros 3) (2 * PI * 10) 5)) in
  let v := snd (eig_diag (laplacian (zeros 3) (zeros 3) (2 * PI * 10) 5)) in
  let K := numsmalleigs 3 in
  exists o p,
    network_transfer_function eig_diag (zeros 3) (zeros 3) (2 * PI * 10)
      0.012 0.003 1 5 4 1 0.006 = Some o /\
    Permutation p (seq 0 3) /\
    ev o = select d (firstn K p) /\
    Vv o = select_cols v (firstn K p) /\
    Sorted Rle (map re (ev o)) /\
    (forall i j, In i (firstn K p) -> In j (skipn K p) ->
       re (nth i d C0) <= re (nth j d C0)).
Proof.
  split; [reflexivity|]. split; [lia|]. split; [reflexivity|].
  split; [reflexivity|].
  exact (ntf_sorted_modes eig_diag (zeros 3) (zeros 3) (2 * PI * 10)
           0.012 0.003 1 5 4 1 0.006 3 eq_refl (le_n 3) eq_refl eq_refl).
Defined.

(** ** Claim C4: the Laplacian row of a masked region *)

Lemma nth_map_seq {A : Type} (f : nat -> A) n i d :
  (i < n)%nat -> nth i (map f (seq 0 n)) d = f i.
Proof.
  intro Hi. rewrite (nth_indep _ d (f 0%nat)) by (rewrite length_map, length_seq; lia).
  rewrite map_nth, seq_nth by lia. reflexivity.
Qed.

Lemma nth_map_lt {A B : Type} (f : A -> B) l i d d' :
  (i < length l)%nat -> nth i (map f l) d = f (nth i l d').
Proof.
  intro Hi. rewrite (nth_indep _ d (f d')) by (rewrite length_map; lia).
  apply map_nth.
Qed.

Lemma nth_map_const {A B : Type} (f : A -> B) l j c :
  (forall x, In x l -> f x = c) -> nth j (map f l) c = c.
Proof.
  revert j; induction l as [|x l IH]; intros [|j] H; simpl; auto.
  - apply H. now left.
  - apply IH. intros y Hy. apply H. now right.
Qed.

Lemma Csum_zero_row {A : Type} (l : list A) (col : list Cx) :
  Csum (map2 Cmul (map (fun _ => C0) l) col) = C0.
Proof.
  revert col; induction l as [|x l IH]; intros [|z col]; simpl; auto.
  unfold Csum in *. simpl. rewrite IH. destruct z as [a b].
  unfold Cadd, Cmul, C0, Cof; simpl. f_equal; ring.
Qed.

Lemma length_transpose {A : Type} (dflt : A) M :
  length (transpose dflt M) = ncols M.
Proof. unfold transpose. apply length_seq_map. Qed.

Lemma length_combined_degree C N :
  length C = N -> Forall (fun r => length r = N) C ->
  length (combined_degree C) = N.
Proof.
  intros HC HF. unfold combined_degree. rewrite length_map2, !length_map.
  rewrite length_transpose. destruct C as [|r C']; simpl in *; [lia|].
  inversion HF as [|? ? Hr]; subst. rewrite Hr. simpl. lia.
Qed.

Lemma Csum_onehot n s i x (col : list Cx) :
  (s <= i < s + n)%nat -> length col = n ->
  Csum (map2 Cmul (map Cof (map (fun k => if Nat.eqb i k then x else 0) (seq s n))) col)
  = Cmul (Cof x) (nth (i - s) col C0).
Proof.
  revert s col; induction n as [|n IH]; intros s col Hi Hl; [lia|].
  destruct col as [|c col]; simpl in Hl; [lia|].
  cbn [seq map map2]. unfold Csum at 1. cbn [fold_right]. fold (Csum (map2 Cmul (map Cof (map (fun k => if Nat.eqb i k then x else 0) (seq (S s) n))) col)).
  destruct (Nat.eqb_spec i s) as [->|Hne].
  - rewrite map_map, (map_ext_in _ (fun _ => C0)).
    2: { intros k Hk. apply in_seq in Hk. destruct (Nat.eqb_spec s k); [lia|reflexivity]. }
    rewrite Csum_zero_row. rewrite Nat.sub_diag. simpl.
    destruct c as [a b]. unfold Cadd, Cmul, C0, Cof; simpl. f_equal; ring.
  - rewrite IH by lia. replace (i - s)%nat with (S (i - S s)) by lia. simpl.
    destruct c as [a b]. unfold Cadd, Cmul, C0, Cof; simpl. f_equal; ring.
Qed.

Lemma laplacian_entry C D w speed N i j :
  length C = N -> Forall (fun r => length r = N) C ->
  length D = N -> Forall (fun r => length r = N) D ->
  (i < N)%nat -> (j < N)%nat ->
  nth j (nth i (laplacian C D w speed) []) C0
  = Csub (Cof (0.8 * (if Nat.eqb i j then 1 else 0)))
      (Cmul (Cof (xrecip (xadd (xsqrt (xmul (nth i (fst (degrees C)) Inf)
                                          (nth i (snd (degrees C)) Inf))) eps)))
         (Cmul (Cof (nth j (nth i C []) 0))
            (Cexp (Cmul (Cmul (mkC 0 (-1))
                     (Cof (0.001 * nth j (nth i D []) 0 / speed))) (Cof w))))).
Proof.
  intros HC HFC HD HFD Hi Hj.
  assert (HtC : length (transpose 0 C) = N).
  { rewrite length_transpose. destruct C as [|r C']; simpl in *; [lia|].
    inversion HFC as [|? ? Hr]; subst. exact Hr. }
  assert (Hlq : length (qind_of C) = N).
  { unfold qind_of. rewrite length_map. apply length_combined_degree; auto. }
  assert (HCi : length (nth i C []) = N).
  { apply (proj1 (Forall_nth _ C) HFC); lia. }
  assert (HDi : length (nth i D []) = N).
  { apply (proj1 (Forall_nth _ D) HFD); lia. }
  unfold laplacian, degrees. cbv zeta. cbn [fst snd].
  set (L2 := map2 (fun r c => xrecip (xadd (xsqrt (xmul r c)) eps))
               (mask_inf (qind_of C) (map sum C))
               (mask_inf (qind_of C) (map sum (transpose 0 C)))).
  assert (HL2 : length L2 = N).
  { unfold L2, mask_inf. rewrite !length_map2, !length_map, Hlq, HC, HtC. lia. }
  assert (HL2i : nth i L2 0 = xrecip (xadd (xsqrt (xmul
             (nth i (mask_inf (qind_of C) (map sum C)) Inf)
             (nth i (mask_inf (qind_of C) (map sum (transpose 0 C))) Inf))) eps)).
  { unfold L2. rewrite (nth_map2 _ _ _ _ Inf Inf); [reflexivity| |];
      unfold mask_inf; rewrite length_map2, length_map; try rewrite HtC; lia. }
  rewrite <- HL2i.
  set (Tau := map (map (fun d => 0.001 * d / speed)) D).
  set (Cc := map2 (map2 _) C Tau).
  assert (HlCc : length Cc = N).
  { unfold Cc, Tau. rewrite length_map2, length_map. lia. }
  assert (HCc : ncols Cc = N).
  { unfold Cc, Tau. destruct C as [|r C']; simpl in HC; [lia|].
    destruct D as [|s D']; simpl in HD; [lia|]. simpl.
    inversion HFC; inversion HFD; subst. rewrite length_map2, length_map. lia. }
  unfold cmatsub, cmatmul, cmat_of.
  rewrite (nth_map2 _ _ _ _ [] []).
  all: try (unfold identity, diag; rewrite ?length_map, ?length_seq; lia).
  rewrite !(nth_map_lt _ _ i [] []).
  all: try (unfold diag, identity; rewrite ?length_map, ?length_seq; lia).
  unfold diag at 1. rewrite (nth_map_seq _ (length L2)) by lia.
  unfold identity. rewrite (nth_map_seq _ (length C)) by lia.
  rewrite (nth_map2 _ _ _ _ C0 C0).
  2: rewrite !length_map, length_seq; lia.
  2: rewrite length_map, length_transpose; lia.
  rewrite (nth_map_lt _ (transpose C0 Cc) j C0 []) by (rewrite length_transpose; lia).
  unfold transpose at 1. rewrite HCc, (nth_map_seq _ N) by lia.
  rewrite (Csum_onehot (length L2) 0 i) by (rewrite ?length_map; lia).
  rewrite Nat.sub_0_r, (nth_map_lt _ _ _ _ []) by lia.
  unfold Cc. rewrite (nth_map2 _ _ _ _ [] []) by (unfold Tau; rewrite ?length_map; lia).
  unfold Tau. rewrite (nth_map_lt _ D i [] []) by lia.
  rewrite (nth_map2 _ _ _ _ 0 0) by (rewrite ?length_map; lia).
  rewrite (nth_map_lt _ _ j 0 0) by lia.
  rewrite map_map, map_map, (nth_map_lt _ _ _ _ 0%nat) by (rewrite length_seq; lia).
  rewrite seq_nth by lia. reflexivity.
Qed.

Lemma conn4_qind : qind_of conn4 = [true; false; false].
Proof.
  assert (Htot : combined_degree conn4 = [1; 21; 20]).
  { unfold combined_degree, conn4, transpose, sum. simpl. f_equal; [|f_equal; [|f_equal]]; lra. }
  unfold qind_of. rewrite Htot. cbn [map]. unfold mean, sum. cbn [fold_right length INR].
  repeat destruct Rlt_dec; try reflexivity; exfalso; lra.
Qed.

Lemma conn4_masked :
  nth 0 (combined_degree conn4) 0 < 0.2 * mean (combined_degree conn4).
Proof.
  unfold combined_degree, conn4, transpose, mean, sum. simpl. lra.
Qed.

Lemma Cexp_no_delay w speed :
  Cexp (Cmul (Cmul (mkC 0 (-1)) (Cof (0.001 * 0 / speed))) (Cof w)) = Cof 1.
Proof.
  unfold Cexp, Cmul, Cof; simpl.
  replace ((0 * (0.001 * 0 / speed) - -1 * 0) * w - (0 * 0 + -1 * (0.001 * 0 / speed)) * 0)
    with 0 by (unfold Rdiv; ring).
  replace ((0 * (0.001 * 0 / speed) - -1 * 0) * 0 + (0 * 0 + -1 * (0.001 * 0 / speed)) * w)
    with 0 by (unfold Rdiv; ring).
  rewrite exp_0, cos_0, sin_0. f_equal; ring.
Qed.


(** Claim C4 (as amended).  For square [N x N] matrices [C] and [D], a
    region [i] whose combined degree (row sum plus column sum of [C]) is
    below [0.2] times the mean combined degree has its degrees set to
    [inf], so its normalisation factor is [1/inf = 0] and its row of
    [L = 0.8 I - diag(L2) Cc] is exactly [0.8 e_i]: [0] off the
    diagonal and [0.8] on it.  (Its column is not masked, see
    [laplacian_masked_col_cex].) *)
Theorem laplacian_masked_row C D w speed N i j :
  length C = N -> Forall (fun r => length r = N) C ->
  length D = N -> Forall (fun r => length r = N) D ->
  (i < N)%nat -> (j < N)%nat ->
  nth i (combined_degree C) 0 < 0.2 * mean (combined_degree C) ->
  nth j (nth i (laplacian C D w speed) []) C0
  = Cof (0.8 * (if Nat.eqb i j then 1 else 0)).
Proof.
  intros HC HFC HD HFD Hi Hj Hm.
  assert (HtC : length (transpose 0 C) = N).
  { rewrite length_transpose. destruct C as [|r C']; simpl in *; [lia|].
    inversion HFC as [|? ? Hr]; subst. exact Hr. }
  assert (Hq : nth i (qind_of C) false = true).
  { unfold qind_of. rewrite (nth_map_lt _ _ _ _ 0)
      by (rewrite (length_combined_degree C N); auto).
    destruct Rlt_dec; auto. }
  assert (Hlq : length (qind_of C) = N).
  { unfold qind_of. rewrite length_map. apply length_combined_degree; auto. }
  unfold laplacian, degrees. cbv zeta.
  set (L2 := map2 (fun r c => xrecip (xadd (xsqrt (xmul r c)) eps))
               (mask_inf (qind_of C) (map sum C))
               (mask_inf (qind_of C) (map sum (transpose 0 C)))).
  assert (HL2 : length L2 = N).
  { unfold L2, mask_inf. rewrite !length_map2, !length_map, Hlq, HC, HtC. lia. }
  assert (HL2i : nth i L2 0 = 0).
  { unfold L2. rewrite (nth_map2 _ _ _ _ Inf Inf).
    2, 3: unfold mask_inf; rewrite length_map2, length_map; try rewrite HtC; lia.
    unfold mask_inf. rewrite !(nth_map2 _ _ _ _ false 0) by (rewrite ?length_map, ?HtC; lia).
    rewrite Hq. reflexivity. }
  set (Tau := map (map (fun d => 0.001 * d / speed)) D).
  set (Cc := map2 (map2 _) C Tau).
  assert (HCc : ncols Cc = N).
  { unfold Cc, Tau. destruct C as [|r C']; simpl in HC; [lia|].
    destruct D as [|s D']; simpl in HD; [lia|]. simpl.
    inversion HFC; inversion HFD; subst. rewrite length_map2, length_map. lia. }
  unfold cmatsub, cmatmul, cmat_of.
  rewrite (nth_map2 _ _ _ _ [] []).
  all: try (unfold identity, diag; rewrite ?length_map, ?length_seq; lia).
  rewrite !(nth_map_lt _ _ i [] []).
  all: try (unfold diag, identity; rewrite ?length_map, ?length_seq; lia).
  unfold diag at 1. rewrite (nth_map_seq _ (length L2)) by lia.
  unfold identity. rewrite (nth_map_seq _ (length C)) by lia.
  rewrite (nth_map2 _ _ _ _ C0 C0).
  2: rewrite !length_map, length_seq; lia.
  2: rewrite length_map, length_transpose; lia.
  rewrite (nth_map_const _ (transpose C0 Cc) j C0).
  2: { intros col _. rewrite HL2i, map_map.
       rewrite (map_ext _ (fun _ => C0)) by (intro k; destruct (i =? k); reflexivity).
       apply Csum_zero_row. }
  rewrite map_map, map_map, (nth_map_lt _ _ _ _ 0%nat) by (rewrite length_seq; lia).
  rewrite seq_nth by lia. simpl.
  unfold Csub, Cof, C0; simpl. f_equal; ring.
Qed.

Lemma laplacian_masked_row_witness :
  length conn4 = 3%nat /\ Forall (fun r => length r = 3%nat) conn4 /\
  length (zeros 3) = 3%nat /\ Forall (fun r => length r = 3%nat) (zeros 3) /\
  (0 < 3)%nat /\ (1 < 3)%nat /\
  nth 0 (combined_degree conn4) 0 < 0.2 * mean (combined_degree conn4) /\
  nth 1 (nth 0 (laplacian conn4 (zeros 3) (2 * PI * 10) 5) []) C0
  = Cof (0.8 * (if Nat.eqb 0 1 then 1 else 0)).
Proof.
  split; [reflexivity|]. split; [repeat constructor|].
  split; [reflexivity|]. split; [repeat constructor|].
  split; [lia|]. split; [lia|]. split; [exact conn4_masked|].
  exact (laplacian_masked_row conn4 (zeros 3) (2 * PI * 10) 5 3 0 1 eq_refl
           ltac:(repeat constructor) eq_refl ltac:(repeat constructor)
           ltac:(lia) ltac:(lia) conn4_masked).
Defined.

(** Counterexample to claim C4 as stated ("all off-diagonal entries
    touching the region").  In [conn4] region 0 is masked, yet the
    entry [L[1][0]] of its column is [-1/(sqrt 110 + eps)], not [0]: the
    column of a masked region still carries the normalisation of the
    other regions' rows. *)
Lemma laplacian_masked_col_cex :
  nth 0 (combined_degree conn4) 0 < 0.2 * mean (combined_degree conn4) /\
  nth 0 (nth 1 (laplacian conn4 (zeros 3) (2 * PI * 10) 5) []) C0 <> C0.
Proof.
  split; [exact conn4_masked|].
  rewrite (laplacian_entry conn4 (zeros 3) (2 * PI * 10) 5 3 1 0)
    by (try reflexivity; try lia; repeat constructor).
  assert (HD : nth 0 (nth 1 (zeros 3) []) 0 = 0) by reflexivity.
  rewrite HD, Cexp_no_delay.
  unfold degrees. rewrite conn4_qind. unfold conn4, transpose, mask_inf, sum. simpl.
  intro Heq. apply (f_equal re) in Heq. simpl in Heq.
  assert (He : 0 < eps) by (unfold eps; apply Rinv_0_lt_compat, pow_lt; lra).
  assert (Hs : 0 <= sqrt ((1 + (0 + (10 + 0))) * (0 + (0 + (10 + 0))))) by apply sqrt_pos.
  assert (Hp : 0 < 1 / (sqrt ((1 + (0 + (10 + 0))) * (0 + (0 + (10 + 0)))) + eps))
    by (apply Rdiv_lt_0_compat; lra).
  lra.
Qed.

(** ** Claim C7: the clamp of [q1] keeps the phase *)

Lemma sqrt_xy x y :
  x <> 0 -> sqrt (x * x + y * y) = Rabs x * sqrt (1 + (y / x)²).
Proof.
  intro Hx. replace (x * x + y * y) with (x² * (1 + (y / x)²))
    by (unfold Rsqr; field; exact Hx).
  rewrite sqrt_mult_alt by apply Rle_0_sqr. rewrite sqrt_Rsqr_abs. reflexivity.
Qed.

Lemma atan_polar x t :
  0 < x -> x * sqrt (1 + t²) * cos (atan t) = x /\
           x * sqrt (1 + t²) * sin (atan t) = x * t.
Proof.
  intro Hx. assert (HS : 0 < sqrt (1 + t²)).
  { apply sqrt_lt_R0. pose proof (Rle_0_sqr t). lra. }
  rewrite cos_atan, sin_atan. split; field; lra.
Qed.

(** [np.abs] and [np.angle] give a polar form of every complex number. *)
Lemma Cangle_polar z :
  Cabs z * cos (Cangle z) = re z /\ Cabs z * sin (Cangle z) = im z.
Proof.
  destruct z as [x y]. unfold Cabs, Cangle, arctan2; cbn [re im].
  destruct (Rlt_dec 0 x) as [Hx|Hx].
  - rewrite sqrt_xy by lra. rewrite Rabs_pos_eq by lra.
    destruct (atan_polar x (y / x) Hx) as [H1 H2]. split; [exact H1|].
    rewrite H2. field. lra.
  - destruct (Rlt_dec x 0) as [Hx'|Hx'].
    + rewrite sqrt_xy by lra. rewrite Rabs_left by lra.
      assert (Hp : 0 < - x) by lra.
      destruct (atan_polar (- x) (y / x) Hp) as [H1 H2].
      assert (Hc : forall a, cos (a + PI) = - cos a /\ sin (a + PI) = - sin a /\
                            cos (a - PI) = - cos a /\ sin (a - PI) = - sin a).
      { intro a. rewrite neg_cos, neg_sin, cos_minus, sin_minus, cos_PI, sin_PI.
        repeat split; ring. }
      destruct (Hc (atan (y / x))) as [Hc1 [Hs1 [Hc2 Hs2]]].
      destruct Rle_dec.
      * rewrite Hc1, Hs1. split; [lra|].
        replace (- x * sqrt (1 + (y / x)²) * - sin (atan (y / x)))
          with (- (- x * sqrt (1 + (y / x)²) * sin (atan (y / x)))) by ring.
        rewrite H2. field. lra.
      * rewrite Hc2, Hs2. split; [lra|].
        replace (- x * sqrt (1 + (y / x)²) * - sin (atan (y / x)))
          with (- (- x * sqrt (1 + (y / x)²) * sin (atan (y / x)))) by ring.
        rewrite H2. field. lra.
    + assert (x = 0) by lra. subst x.
      replace (0 * 0 + y * y) with (y * y) by ring.
      destruct (Rlt_dec 0 y).
      * rewrite sqrt_square by lra. rewrite cos_PI2, sin_PI2. split; ring.
      * destruct (Rlt_dec y 0).
        -- replace (y * y) with ((- y) * (- y)) by ring.
           rewrite sqrt_square by lra. rewrite cos_neg, sin_neg, cos_PI2, sin_PI2.
           split; ring.
        -- assert (y = 0) by lra. subst y. rewrite Rmult_0_l, sqrt_0. split; ring.
Qed.

Lemma arctan2_scale s y x :
  0 < s -> arctan2 (s * y) (s * x) = arctan2 y x.
Proof.
  intro Hs. unfold arctan2.
  destruct (Rlt_dec 0 x) as [Hx|Hx].
  - destruct (Rlt_dec 0 (s * x)) as [_|H]; [|exfalso; apply H; nra].
    f_equal. field. lra.
  - destruct (Rlt_dec 0 (s * x)) as [H|_]; [exfalso; nra|].
    destruct (Rlt_dec x 0) as [Hx'|Hx'].
    + destruct (Rlt_dec (s * x) 0) as [_|H]; [|exfalso; apply H; nra].
      replace (s * y / (s * x)) with (y / x) by (field; lra).
      destruct (Rle_dec 0 y), (Rle_dec 0 (s * y)); try reflexivity; exfalso; nra.
    + destruct (Rlt_dec (s * x) 0) as [H|_]; [exfalso; nra|].
      destruct (Rlt_dec 0 y), (Rlt_dec 0 (s * y)); try (exfalso; nra).
      * reflexivity.
      * destruct (Rlt_dec y 0), (Rlt_dec (s * y) 0); try reflexivity; exfalso; nra.
Qed.

Lemma Cabs_zero z : Cabs z = 0 -> z = C0.
Proof.
  destruct z as [x y]. unfold Cabs; cbn [re im]. intro H.
  apply sqrt_eq_0 in H; [|nra].
  assert (x = 0) by nra. assert (y = 0) by nra. subst. reflexivity.
Qed.

Lemma Cabs_nonneg z : 0 <= Cabs z.
Proof. apply sqrt_pos. Qed.

(** The clamped value [magq1 * exp(1j * angq1)] in rectangular form. *)
Lemma clamp_entry M a :
  Cmul (Cof M) (Cexp (Cmul Ci (Cof a))) = mkC (M * cos a) (M * sin a).
Proof.
  unfold Cmul, Cexp, Ci, Cof; cbn [re im].
  replace (0 * a - 1 * 0) with 0 by ring. replace (0 * 0 + 1 * a) with a by ring.
  rewrite exp_0. f_equal; ring.
Qed.

(** Rebuilding a complex number from a magnitude [M >= |z|] and the
    phase of [z]. *)
Lemma polar_rebuild z M :
  Cabs z <= M ->
  Cabs (mkC (M * cos (Cangle z)) (M * sin (Cangle z))) = M /\
  Cangle (mkC (M * cos (Cangle z)) (M * sin (Cangle z))) = Cangle z /\
  (M = Cabs z -> mkC (M * cos (Cangle z)) (M * sin (Cangle z)) = z).
Proof.
  intro HM. pose proof (Cabs_nonneg z) as Hz.
  destruct (Cangle_polar z) as [Hc Hs].
  split; [|split].
  - unfold Cabs; cbn [re im].
    replace (M * cos (Cangle z) * (M * cos (Cangle z)) +
             M * sin (Cangle z) * (M * sin (Cangle z)))
      with (M * M * ((sin (Cangle z))² + (cos (Cangle z))²)) by (unfold Rsqr; ring).
    rewrite sin2_cos2, Rmult_1_r. apply sqrt_square. lra.
  - destruct (Rlt_dec 0 (Cabs z)) as [Hp|Hp].
    + unfold Cangle at 1; cbn [re im].
      replace (M * sin (Cangle z)) with (M / Cabs z * im z)
        by (rewrite <- Hs; field; lra).
      replace (M * cos (Cangle z)) with (M / Cabs z * re z)
        by (rewrite <- Hc; field; lra).
      apply arctan2_scale. apply Rdiv_lt_0_compat; lra.
    + assert (Hz0 : Cabs z = 0) by lra. apply Cabs_zero in Hz0. subst z.
      unfold Cangle at 2 3 4; unfold C0, Cof, arctan2; cbn [re im].
      destruct (Rlt_dec 0 0); [lra|]. destruct (Rlt_dec 0 0); [lra|].
      destruct (Rlt_dec 0 0); [lra|].
      rewrite cos_0, sin_0, Rmult_0_r, Rmult_1_r.
      unfold Cangle, arctan2; cbn [re im].
      destruct (Rlt_dec 0 M).
      * unfold Rdiv. rewrite Rmult_0_l, atan_0. reflexivity.
      * destruct (Rlt_dec M 0); [lra|].
        destruct (Rlt_dec 0 0); [lra|]. destruct (Rlt_dec 0 0); [lra|]. reflexivity.
  - intro HMe. subst M. rewrite Hc, Hs. destruct z; reflexivity.
Qed.

Lemma fold_Rmax_ge t x :
  x <= fold_left Rmax t x /\ (forall y, In y t -> y <= fold_left Rmax t x).
Proof.
  revert x; induction t as [|a t IH]; intro x; simpl.
  - split; [lra|tauto].
  - destruct (IH (Rmax x a)) as [H1 H2]. split.
    + eapply Rle_trans; [apply Rmax_l|exact H1].
    + intros y [<-|Hy]; [|apply H2, Hy].
      eapply Rle_trans; [apply Rmax_r|exact H1].
Qed.

Lemma fold_Rmax_in t x : In (fold_left Rmax t x) (x :: t).
Proof.
  revert x; induction t as [|a t IH]; intro x; simpl; [now left|].
  destruct (IH (Rmax x a)) as [H|H].
  - rewrite <- H. unfold Rmax. destruct Rle_dec; [right; now left|now left].
  - right; right; exact H.
Qed.

(** Claim C7.  For a non-empty [q1] (np.max raises on an empty one),
    with [m = max_j |q1[j]|], the clamped coupling of every mode [k] has
    magnitude [max(|q1[k]|, 0.05 m)] and the same phase [np.angle] as
    [q1[k]]; it equals [q1[k]] itself when [|q1[k]|] is at least the
    threshold, and the per-mode response is [Htotal] divided by it. *)
Theorem clamp_q1_phase Htotal q1 :
  q1 <> [] ->
  exists m qc,
    np_max (map Cabs q1) = Some m /\
    (forall z, In z q1 -> Cabs z <= m) /\ In m (map Cabs q1) /\
    clamp_q1 q1 = Some qc /\
    freqresp_of Htotal q1 = Some (map (Cdiv Htotal) qc) /\
    length qc = length q1 /\
    forall k, (k < length q1)%nat ->
      Cabs (nth k qc C0) = Rmax (Cabs (nth k q1 C0)) (zero_thr * m) /\
      Cangle (nth k qc C0) = Cangle (nth k q1 C0) /\
      (zero_thr * m <= Cabs (nth k q1 C0) -> nth k qc C0 = nth k q1 C0) /\
      nth k (map (Cdiv Htotal) qc) C0 = Cdiv Htotal (nth k qc C0).
Proof.
  intro Hne. destruct q1 as [|z0 t]; [contradiction|].
  set (q1 := z0 :: t).
  set (m := fold_left Rmax (map Cabs t) (Cabs z0)).
  set (qc := map2 (fun m a => Cmul (Cof m) (Cexp (Cmul Ci (Cof a))))
               (map (fun z => Rmax (Cabs z) (zero_thr * m)) q1) (map Cangle q1)).
  assert (Hclamp : clamp_q1 q1 = Some qc) by reflexivity.
  assert (Hlen : length qc = length q1)
    by (unfold qc; rewrite length_map2, !length_map; lia).
  exists m, qc. split; [reflexivity|]. split.
  { intros z [<-|Hz]; [exact (proj1 (fold_Rmax_ge _ _))|].
    exact (proj2 (fold_Rmax_ge _ _) _ (in_map _ _ _ Hz)). }
  split; [apply fold_Rmax_in|]. split; [exact Hclamp|].
  split; [unfold freqresp_of; rewrite Hclamp; reflexivity|].
  split; [exact Hlen|].
  intros k Hk.
  assert (Hq : nth k qc C0 =
    mkC (Rmax (Cabs (nth k q1 C0)) (zero_thr * m) * cos (Cangle (nth k q1 C0)))
        (Rmax (Cabs (nth k q1 C0)) (zero_thr * m) * sin (Cangle (nth k q1 C0)))).
  { unfold qc. rewrite (nth_map2 _ _ _ _ 0 0) by (rewrite length_map; lia).
    rewrite !(nth_map_lt _ _ _ _ C0) by lia. apply clamp_entry. }
  destruct (polar_rebuild (nth k q1 C0) (Rmax (Cabs (nth k q1 C0)) (zero_thr * m))
              (Rmax_l _ _)) as [H1 [H2 H3]].
  rewrite Hq. split; [exact H1|]. split; [exact H2|]. split.
  - intro Hthr. apply H3. apply Rmax_left. exact Hthr.
  - rewrite (nth_map_lt _ _ _ _ C0) by lia. rewrite Hq. reflexivity.
Qed.

Lemma clamp_q1_phase_witness :
  [Cof 1; mkC 0 (-1)] <> [] /\
  exists m qc,
    np_max (map Cabs [Cof 1; mkC 0 (-1)]) = Some m /\
    (forall z, In z [Cof 1; mkC 0 (-1)] -> Cabs z <= m) /\
    In m (map Cabs [Cof 1; mkC 0 (-1)]) /\
    clamp_q1 [Cof 1; mkC 0 (-1)] = Some qc /\
    freqresp_of (Cof 2) [Cof 1; mkC 0 (-1)] = Some (map (Cdiv (Cof 2)) qc) /\
    length qc = length [Cof 1; mkC 0 (-1)] /\
    forall k, (k < length [Cof 1; mkC 0 (-1)])%nat ->
      Cabs (nth k qc C0) = Rmax (Cabs (nth k [Cof 1; mkC 0 (-1)] C0)) (zero_thr * m) /\
      Cangle (nth k qc C0) = Cangle (nth k [Cof 1; mkC 0 (-1)] C0) /\
      (zero_thr * m <= Cabs (nth k [Cof 1; mkC 0 (-1)] C0) ->
       nth k qc C0 = nth k [Cof 1; mkC 0 (-1)] C0) /\
      nth k (map (Cdiv (Cof 2)) qc) C0 = Cdiv (Cof 2) (nth k qc C0).
Proof.
  split; [discriminate|].
  exact (clamp_q1_phase (Cof 2) [Cof 1; mkC 0 (-1)] ltac:(discriminate)).
Defined.

(** ** Claim C9: length of the same-mode convolution *)

Lemma length_conv_full a v :
  length (conv_full a v) = (length a + length v - 1)%nat.
Proof. unfold conv_full. apply length_seq_map. Qed.

Lemma convolve_same_ok a v :
  a <> [] -> v <> [] ->
  exists c, convolve_same a v = Some c /\
            length c = Nat.max (length a) (length v).
Proof.
  intros Ha Hv. unfold convolve_same.
  destruct (Nat.ltb_spec (length a) (length v)) as [Hlt|Hge].
  - destruct v as [|y v']; [contradiction|]. destruct a as [|x a']; [contradiction|].
    eexists; split; [reflexivity|].
    rewrite length_firstn, length_skipn, length_conv_full.
    set (n := length (y :: v')) in *. set (m := length (x :: a')) in *.
    assert (1 <= m)%nat by (unfold m; simpl; lia).
    pose proof (Nat.Div0.div_le_upper_bound m 2 m ltac:(lia)).
    lia.
  - destruct a as [|x a']; [contradiction|]. destruct v as [|y v']; [contradiction|].
    eexists; split; [reflexivity|].
    rewrite length_firstn, length_skipn, length_conv_full.
    set (n := length (x :: a')) in *. set (m := length (y :: v')) in *.
    assert (1 <= m)%nat by (unfold m; simpl; lia).
    pose proof (Nat.Div0.div_le_upper_bound m 2 m ltac:(lia)).
    lia.
Qed.

Lemma convolve_same_empty a v :
  a = [] \/ v = [] -> convolve_same a v = None.
Proof.
  intros [->| ->]; unfold convolve_same; simpl.
  - destruct v; reflexivity.
  - destruct a; reflexivity.
Qed.

(** Claim C9 (as amended).  The "same"-mode convolution of the model
    curve [|freq_model[n,:]|] (length [F']) with the kernel [lpf]
    (length [m]) raises when either is empty; otherwise it, and the
    model curve built from it, have length [max(F', m)], which is [F']
    exactly when [m <= F'], whatever the parity of [m]. *)
Theorem model_curve_length lpf row :
  (row = [] \/ lpf = [] -> model_curve lpf row = None) /\
  (row <> [] -> lpf <> [] ->
   exists c qm, convolve_same (map Cabs row) lpf = Some c /\
     model_curve lpf row = Some qm /\
     length c = Nat.max (length row) (length lpf) /\
     length qm = Nat.max (length row) (length lpf)).
Proof.
  split.
  - intro H. unfold model_curve. rewrite convolve_same_empty; [reflexivity|].
    destruct H as [->| ->]; [left|right]; reflexivity.
  - intros Hr Hl.
    assert (Hm : map Cabs row <> []) by (destruct row; [contradiction|discriminate]).
    destruct (convolve_same_ok _ _ Hm Hl) as [c [Hc Hlen]].
    rewrite length_map in Hlen.
    exists c, (center (mag2db c)). split; [exact Hc|].
    split; [unfold model_curve; rewrite Hc; reflexivity|].
    split; [exact Hlen|].
    unfold center, mag2db. rewrite !length_map. exact Hlen.
Qed.

(** Counterexample to claim C9 as stated: a curve of length [1] and an
    odd kernel of length [3] give a model curve of length [3]. *)
Lemma model_curve_length_cex :
  exists qm, model_curve [1; 1; 1] [Cof 1] = Some qm /\
    length qm = 3%nat /\ length qm <> length [Cof 1].
Proof.
  eexists. split; [reflexivity|]. split; [reflexivity|]. discriminate.
Qed.

(** ** Claim C2: the degenerate-curve fallback *)

Lemma is_zero_spec a : is_zero a = true <-> a = PyNum 0.
Proof.
  destruct a as [x| | |]; simpl; split; intro H; try discriminate.
  - unfold Reqb in H. destruct Req_dec_T; [subst; reflexivity|discriminate].
  - injection H as ->. unfold Reqb. destruct Req_dec_T; [reflexivity|contradiction].
Qed.

Lemma is_zero_false a : a <> PyNum 0 -> is_zero a = false.
Proof.
  intro H. destruct (is_zero a) eqn:E; [|reflexivity].
  apply is_zero_spec in E. contradiction.
Qed.

(** Claim C2.  For one label of [rois_with_MEG], with a non-empty model
    row and kernel: an empirical row summing to [0] is used as it is
    (no dB conversion, no centring), otherwise it is converted to dB and
    centred; when the model curve (convolved, in dB, centred) or the
    empirical curve sums to exactly [0] the score is exactly [0.0];
    otherwise it is [pearsonr] of the two curves. *)
Theorem region_err_cases pearsonr lpf qraw row :
  row <> [] -> lpf <> [] ->
  exists c s,
    convolve_same (map Cabs row) lpf = Some c /\
    model_curve lpf row = Some (center (mag2db c)) /\
    region_err pearsonr lpf qraw row = Some s /\
    (sum qraw = 0 -> data_curve qraw = map PyNum qraw) /\
    (sum qraw <> 0 -> data_curve qraw = center (mag2db qraw)) /\
    (fsum (center (mag2db c)) = PyNum 0 \/ fsum (data_curve qraw) = PyNum 0 ->
     s = PyNum 0) /\
    (fsum (center (mag2db c)) <> PyNum 0 -> fsum (data_curve qraw) <> PyNum 0 ->
     s = pearsonr (data_curve qraw) (center (mag2db c))).
Proof.
  intros Hr Hl.
  assert (Hm : map Cabs row <> []) by (destruct row; [contradiction|discriminate]).
  destruct (convolve_same_ok _ _ Hm Hl) as [c [Hc _]].
  assert (Hmc : model_curve lpf row = Some (center (mag2db c)))
    by (unfold model_curve; rewrite Hc; reflexivity).
  set (qd := data_curve qraw).
  set (qm := center (mag2db c)).
  exists c, (if (is_zero (fsum qm) || is_zero (fsum qd))%bool then PyNum 0
             else pearsonr qd qm).
  split; [exact Hc|]. split; [exact Hmc|].
  split; [unfold region_err; fold qd; rewrite Hmc; fold qm;
          destruct (_ || _)%bool; reflexivity|].
  split; [intro H0; unfold qd, data_curve; rewrite H0; unfold Reqb;
          destruct Req_dec_T; [reflexivity|contradiction]|].
  split; [intro H0; unfold qd, data_curve; unfold Reqb;
          destruct Req_dec_T; [contradiction|reflexivity]|].
  unfold qm, qd. split.
  - intros [H0|H0]; apply is_zero_spec in H0; rewrite H0;
      [reflexivity|now rewrite Bool.orb_true_r].
  - intros H1 H2. rewrite (is_zero_false _ H1), (is_zero_false _ H2). reflexivity.
Qed.

Lemma region_err_cases_witness :
  [Cof 1; Cof 2] <> [] /\ [1] <> [] /\
  exists c s,
    convolve_same (map Cabs [Cof 1; Cof 2]) [1] = Some c /\
    model_curve [1] [Cof 1; Cof 2] = Some (center (mag2db c)) /\
    region_err (fun _ _ => PyNum 1) [1] [0; 0] [Cof 1; Cof 2] = Some s /\
    (sum [0; 0] = 0 -> data_curve [0; 0] = map PyNum [0; 0]) /\
    (sum [0; 0] <> 0 -> data_curve [0; 0] = center (mag2db [0; 0])) /\
    (fsum (center (mag2db c)) = PyNum 0 \/ fsum (data_curve [0; 0]) = PyNum 0 ->
     s = PyNum 0) /\
    (fsum (center (mag2db c)) <> PyNum 0 -> fsum (data_curve [0; 0]) <> PyNum 0 ->
     s = (fun _ _ => PyNum 1) (data_curve [0; 0]) (center (mag2db c))).
Proof.
  split; [discriminate|]. split; [discriminate|].
  exact (region_err_cases (fun _ _ => PyNum 1) [1] [0; 0] [Cof 1; Cof 2]
           ltac:(discriminate) ltac:(discriminate)).
Defined.

(** ** Scores in exact arithmetic (claim C5) *)

Lemma fsum_num xs : fsum (map PyNum xs) = PyNum (sum xs).
Proof.
  induction xs as [|x t IH]; [reflexivity|]. cbn [map].
  unfold fsum; cbn [fold_right]. fold (fsum (map PyNum t)).
  rewrite IH. reflexivity.
Qed.

Lemma sum_shift xs mu :
  sum (map (fun x => x + - mu) xs) = sum xs - INR (length xs) * mu.
Proof.
  induction xs as [|x t IH]; [simpl; ring|]. cbn [map length].
  unfold sum; cbn [fold_right]. fold (sum (map (fun x => x + - mu) t)) (sum t).
  rewrite IH, S_INR. ring.
Qed.

Lemma np_mean_num xs :
  xs <> [] -> np_mean (map PyNum xs) = PyNum (/ INR (length xs) * sum xs).
Proof.
  intro Hne. destruct xs as [|x t]; [contradiction|].
  unfold np_mean. cbn [map]. fold (map PyNum t).
  change (PyNum x :: map PyNum t) with (map PyNum (x :: t)).
  rewrite fsum_num, length_map. reflexivity.
Qed.

(** A mean-centred curve of finite values sums to exactly [0]. *)
Lemma center_sum_zero xs :
  xs <> [] -> fsum (center (map PyNum xs)) = PyNum 0.
Proof.
  intro Hne. unfold center. rewrite (np_mean_num _ Hne).
  assert (Hn : INR (length xs) <> 0)
    by (destruct xs; [contradiction|]; simpl length; apply not_0_INR; discriminate).
  rewrite map_map.
  replace (map (fun x => fsub (PyNum x) (PyNum (/ INR (length xs) * sum xs))) xs)
    with (map PyNum (map (fun x => x + - (/ INR (length xs) * sum xs)) xs))
    by (rewrite map_map; reflexivity).
  rewrite fsum_num, sum_shift. f_equal. field. exact Hn.
Qed.

Lemma mag2db_pos xs :
  Forall (Rlt 0) xs -> mag2db xs = map PyNum (map (fun x => 20 * (ln x / ln 10)) xs).
Proof.
  induction 1 as [|x t Hx _ IH]; [reflexivity|].
  unfold mag2db in *. simpl. rewrite IH. unfold flog10.
  destruct (Rlt_dec 0 x); [reflexivity|contradiction].
Qed.

(** An empirical row that sums to [0] or is positive gives a curve that
    sums to exactly [0]. *)
Lemma data_curve_zero_sum qraw :
  sum qraw = 0 \/ Forall (Rlt 0) qraw -> fsum (data_curve qraw) = PyNum 0.
Proof.
  intro H. unfold data_curve, Reqb.
  destruct (Req_dec_T (sum qraw) 0) as [H0|H0]; simpl negb; cbv iota.
  - rewrite fsum_num, H0. reflexivity.
  - destruct H as [H|H]; [contradiction|].
    assert (Hne : qraw <> []) by (intro E; subst; apply H0; reflexivity).
    rewrite (mag2db_pos _ H). apply center_sum_zero.
    destruct qraw; [contradiction|discriminate].
Qed.

(** A model curve whose convolved values are positive sums to exactly
    [0]. *)
Lemma model_curve_zero_sum lpf row c :
  convolve_same (map Cabs row) lpf = Some c -> c <> [] -> Forall (Rlt 0) c ->
  exists qm, model_curve lpf row = Some qm /\ fsum qm = PyNum 0.
Proof.
  intros Hc Hne Hp. exists (center (mag2db c)).
  split; [unfold model_curve; rewrite Hc; reflexivity|].
  rewrite (mag2db_pos _ Hp). apply center_sum_zero.
  destruct c; [contradiction|discriminate].
Qed.

Lemma region_err_data_zero pearsonr lpf qraw row s :
  sum qraw = 0 \/ Forall (Rlt 0) qraw ->
  region_err pearsonr lpf qraw row = Some s -> s = PyNum 0.
Proof.
  intros Hd Hs. unfold region_err in Hs.
  destruct (model_curve lpf row) as [qm|]; [|discriminate].
  rewrite (data_curve_zero_sum _ Hd) in Hs. simpl is_zero in Hs.
  unfold Reqb in Hs. destruct (Req_dec_T 0 0) as [_|H]; [|contradiction].
  rewrite Bool.orb_true_r in Hs. injection Hs as <-. reflexivity.
Qed.

Lemma region_err_model_zero pearsonr lpf qraw row c :
  convolve_same (map Cabs row) lpf = Some c -> c <> [] -> Forall (Rlt 0) c ->
  region_err pearsonr lpf qraw row = Some (PyNum 0).
Proof.
  intros Hc Hne Hp. destruct (model_curve_zero_sum _ _ _ Hc Hne Hp) as [qm [Hm Hz]].
  unfold region_err. rewrite Hm, Hz. simpl is_zero. unfold Reqb.
  destruct (Req_dec_T 0 0) as [_|H]; [reflexivity|contradiction].
Qed.

Lemma length_list_set {A : Type} (l : list A) i x :
  length (list_set l i x) = length l.
Proof.
  revert i; induction l as [|y t IH]; intros [|i]; simpl; auto.
Qed.

Lemma Forall_list_set {A : Type} (P : A -> Prop) l i x :
  P x -> Forall P l -> Forall P (list_set l i x).
Proof.
  intros Hx Hl. revert i; induction Hl as [|y t Hy Ht IH]; intros [|i]; simpl;
    constructor; auto.
Qed.

Lemma read_fvec_hwrite h e v : read_fvec (hwrite h e (VFVec v)) e = Some v.
Proof. unfold read_fvec, hwrite; simpl. rewrite Nat.eqb_refl. reflexivity. Qed.

Lemma region_loop_zero pearsonr lpf FM fsel e ns h h2 errs :
  (forall n qraw, In n ns -> py_get FM n = Some qraw ->
     sum qraw = 0 \/ Forall (Rlt 0) qraw) ->
  read_fvec h e = Some errs -> Forall (eq (PyNum 0)) errs ->
  region_loop pearsonr lpf FM fsel e ns h = Some h2 ->
  exists errs2, read_fvec h2 e = Some errs2 /\ Forall (eq (PyNum 0)) errs2 /\
    length errs2 = length errs.
Proof.
  revert h errs; induction ns as [|n ns IH]; intros h errs Hd He Hz Hl; simpl in Hl.
  - injection Hl as <-. exists errs. auto.
  - destruct (py_get FM n) as [qraw|] eqn:Eq; [|discriminate].
    destruct (py_get fsel n) as [row|]; [|discriminate].
    destruct (region_err pearsonr lpf qraw row) as [s|] eqn:Es; [|discriminate].
    rewrite He in Hl.
    destruct (py_set errs n s) as [errs'|] eqn:Eset; [|discriminate].
    assert (Hs0 : s = PyNum 0)
      by (apply (region_err_data_zero pearsonr lpf qraw row);
          [apply (Hd n); [now left|exact Eq] | exact Es]).
    unfold py_set in Eset. destruct (norm_index (length errs) n) as [i|]; [|discriminate].
    injection Eset as <-.
    destruct (IH _ (list_set errs i s) (fun m q Hm => Hd m q (or_intror Hm))
                (read_fvec_hwrite _ _ _) (Forall_list_set _ _ _ _ (eq_sym Hs0) Hz) Hl)
      as [errs2 [H1 [H2 H3]]].
    exists errs2. split; [exact H1|]. split; [exact H2|].
    rewrite H3. apply length_list_set.
Qed.

Lemma fsum_zeros xs : Forall (eq (PyNum 0)) xs -> fsum xs = PyNum 0.
Proof.
  induction 1 as [|x t Hx _ IH]; [reflexivity|].
  unfold fsum in *. simpl. rewrite IH, <- Hx. simpl. rewrite Rplus_0_l. reflexivity.
Qed.

Lemma read_fvec_alloc h v e h1 :
  alloc h (VFVec v) = (e, h1) -> read_fvec h1 e = Some v.
Proof.
  unfold read_fvec, alloc. intro H. injection H as <- <-. simpl.
  rewrite Nat.eqb_refl. reflexivity.
Qed.

Lemma Forall_repeat_zero n : Forall (eq (PyNum 0)) (repeat (PyNum 0) n).
Proof. induction n; simpl; constructor; auto. Qed.

Ltac chain_some H :=
  repeat match type of H with
  | context [match ?x with Some _ => _ | None => None end] =>
      let E := fresh "E" in destruct x eqn:E; [|discriminate H]
  end.

(** If every empirical row addressed by [rois_with_MEG] sums to [0] or
    is positive, every score is [0] and the cost of a non-empty
    selection is [0]. *)
Lemma cost_zero_data eig pearsonr params C D lpf FMEGdata frange rois_with_MEG
    h FM rois v h' :
  read_mat h FMEGdata = Some FM -> read_idx h rois_with_MEG = Some rois ->
  rois <> [] ->
  (forall n qraw, In n rois -> py_get FM n = Some qraw ->
     sum qraw = 0 \/ Forall (Rlt 0) qraw) ->
  network_transfer_cost eig pearsonr params C D lpf FMEGdata frange rois_with_MEG h
  = Some (v, h') ->
  v = PyNum 0.
Proof.
  intros HFM Hr Hne Hd Hc. unfold network_transfer_cost in Hc.
  rewrite HFM, Hr in Hc. chain_some Hc.
  destruct (alloc h _) as [e h1] eqn:Ea. chain_some Hc.
  injection Hc as <- _.
  match goal with
  | Hl : region_loop _ _ _ _ _ _ _ = Some ?h2, He : read_fvec ?h2 _ = Some ?l |- _ =>
      destruct (region_loop_zero _ _ _ _ _ _ _ _ _ Hd
                  (read_fvec_alloc _ _ _ _ Ea) (Forall_repeat_zero _) Hl)
        as [errs2 [H1 [H2 H3]]];
      rewrite He in H1; injection H1 as <-
  end.
  rewrite repeat_length in H3.
  match goal with |- fneg (np_mean ?l) = _ => destruct l as [|x t] end;
    [destruct rois; [contradiction|discriminate]|].
  unfold np_mean. rewrite fsum_zeros by exact H2. simpl. f_equal. ring.
Qed.

Lemma sweep_some eig C D tau_e tau_i alpha speed gei gii tauC fr N :
  length C = N -> (3 <= N)%nat ->
  (forall f, In f fr ->
     length (fst (eig (laplacian C D (2 * PI * f) speed))) = N /\
     length (snd (eig (laplacian C D (2 * PI * f) speed))) = N) ->
  exists fm, sweep eig C D tau_e tau_i alpha speed gei gii tauC fr = Some fm /\
    length fm = length fr /\ Forall (fun r => length r = N) fm.
Proof.
  intros HC HN Hf. induction fr as [|f fr IH]; simpl.
  - exists []. auto.
  - destruct (Hf f (or_introl eq_refl)) as [H1 H2].
    destruct (ntf_some eig C D (2 * PI * f) tau_e tau_i alpha speed gei gii tauC N
                HC HN H1 H2) as [o [Ho [_ [_ [_ [_ Hl]]]]]].
    rewrite Ho.
    destruct IH as [fm [Hs [Hl' Hr]]]; [intros g Hg; apply Hf; now right|].
    rewrite Hs. exists (freqresp_out o :: fm). simpl. auto.
Qed.

Lemma norm_index_lt len n i : norm_index len n = Some i -> (i < len)%nat.
Proof.
  unfold norm_index. intro H.
  destruct ((0 <=? n)%Z && (n <? Z.of_nat len)%Z)%bool eqn:E1.
  - apply andb_prop in E1 as [E1 E2]. apply Z.leb_le in E1. apply Z.ltb_lt in E2.
    injection H as <-. lia.
  - destruct ((- Z.of_nat len <=? n)%Z && (n <? 0)%Z)%bool eqn:E2; [|discriminate].
    apply andb_prop in E2 as [E2 E3]. apply Z.leb_le in E2. apply Z.ltb_lt in E3.
    injection H as <-. lia.
Qed.

Lemma py_get_some {A : Type} (l : list A) n i d :
  norm_index (length l) n = Some i -> py_get l n = Some (nth i l d).
Proof.
  intro H. unfold py_get. rewrite H. apply nth_error_nth'.
  exact (norm_index_lt _ _ _ H).
Qed.

Lemma traverse_py_get row rois :
  (forall r, In r rois -> norm_index (length row) r <> None) ->
  traverse (py_get row) rois = Some (map (pick row) rois).
Proof.
  induction rois as [|r rois IH]; intro H; [reflexivity|]. simpl.
  destruct (norm_index (length row) r) as [i|] eqn:Ei;
    [|exfalso; apply (H r); [now left|exact Ei]].
  rewrite (py_get_some _ _ _ C0 Ei).
  rewrite IH by (intros r' Hr'; apply H; now right).
  f_equal. f_equal. unfold pick. rewrite Ei. reflexivity.
Qed.

Lemma traverse_rows fm rois N :
  Forall (fun r => length r = N) fm ->
  (forall r, In r rois -> norm_index N r <> None) ->
  traverse (fun row => traverse (py_get row) rois) fm
  = Some (map (fun row => map (pick row) rois) fm).
Proof.
  induction 1 as [|row fm Hrow HF IH]; intro H; [reflexivity|]. simpl.
  rewrite traverse_py_get by (rewrite Hrow; exact H).
  rewrite IH by exact H. reflexivity.
Qed.

Lemma restrict_spec fm rois N :
  fm <> [] -> Forall (fun r => length r = N) fm ->
  (forall r, In r rois -> norm_index N r <> None) ->
  exists fsel, restrict fm rois = Some fsel /\ length fsel = length rois /\
    forall k r i, nth_error rois k = Some r -> norm_index N r = Some i ->
      nth k fsel [] = map (fun row => nth i row C0) fm.
Proof.
  intros Hne HF Hr. unfold restrict. destruct fm as [|row0 fm']; [congruence|].
  rewrite (traverse_rows _ _ N HF Hr).
  eexists. split; [reflexivity|]. split.
  - unfold transpose. rewrite length_map, length_seq. simpl. apply length_map.
  - intros k r i Hk Hi.
    assert (Hlt : (k < length rois)%nat) by (apply nth_error_Some; congruence).
    unfold transpose.
    rewrite nth_map_lt with (d' := 0%nat)
      by (rewrite length_seq; simpl; rewrite length_map; exact Hlt).
    rewrite seq_nth by (simpl; rewrite length_map; exact Hlt).
    rewrite map_map. apply map_ext_in. intros row Hin.
    rewrite nth_map_lt with (d' := 0%Z) by (simpl; exact Hlt).
    unfold pick. rewrite Forall_forall in HF. rewrite (HF row Hin).
    rewrite Nat.add_0_l, (nth_error_nth _ _ 0%Z Hk), Hi. reflexivity.
Qed.

Lemma region_err_some pearsonr lpf qraw row :
  row <> [] -> lpf <> [] -> exists s, region_err pearsonr lpf qraw row = Some s.
Proof.
  intros Hr Hl.
  destruct (convolve_same_ok (map Cabs row) lpf) as [c [Hc _]].
  - destruct row; [congruence|discriminate].
  - exact Hl.
  - unfold region_err, model_curve. rewrite Hc. simpl.
    destruct (_ || _)%bool; eexists; reflexivity.
Qed.

Lemma region_loop_some pearsonr lpf FM fsel e ns h errs :
  lpf <> [] -> read_fvec h e = Some errs ->
  (forall n, In n ns -> norm_index (length errs) n <> None /\
     (exists qraw, py_get FM n = Some qraw) /\
     (exists row, py_get fsel n = Some row /\ row <> [])) ->
  exists h2, region_loop pearsonr lpf FM fsel e ns h = Some h2.
Proof.
  intros Hl. revert h errs.
  induction ns as [|n ns IH]; intros h errs He Hn; [eexists; reflexivity|].
  destruct (Hn n (or_introl eq_refl)) as [Hi [[qraw Hq] [row [Hrow Hne]]]].
  destruct (region_err_some pearsonr lpf qraw row Hne Hl) as [s Hs].
  simpl. rewrite Hq, Hrow, Hs, He.
  destruct (norm_index (length errs) n) as [i|] eqn:Ei; [|congruence].
  unfold py_set. rewrite Ei. simpl.
  apply (IH _ (list_set errs i s)).
  - apply read_fvec_hwrite.
  - intros m Hm. rewrite length_list_set. apply Hn. now right.
Qed.

Lemma fsum_nan xs : In PyNaN xs -> fsum xs = PyNaN.
Proof.
  induction xs as [|x t IH]; intro H; [destruct H|].
  unfold fsum; cbn [fold_right]; fold (fsum t).
  destruct H as [Hx|H].
  - subst x. destruct (fsum t); reflexivity.
  - rewrite (IH H). destruct x; reflexivity.
Qed.

Lemma fsum_fin xs :
  Forall (fun x => x = PyNInf \/ exists r, x = PyNum r) xs ->
  fsum xs = PyNInf \/ exists r, fsum xs = PyNum r.
Proof.
  induction 1 as [|x t Hx _ IH]; [right; exists 0; reflexivity|].
  unfold fsum; cbn [fold_right]; fold (fsum t).
  destruct Hx as [->|[r ->]]; destruct IH as [->|[r' ->]]; simpl; eauto.
Qed.

Lemma fsum_ninf xs :
  Forall (fun x => x = PyNInf \/ exists r, x = PyNum r) xs -> In PyNInf xs ->
  fsum xs = PyNInf.
Proof.
  induction 1 as [|x t Hx Ht IH]; intro Hin; [destruct Hin|].
  unfold fsum; cbn [fold_right]; fold (fsum t).
  destruct Hin as [Hx'|Hin].
  - subst x. destruct (fsum_fin t Ht) as [->|[r ->]]; reflexivity.
  - rewrite (IH Hin). destruct Hx as [->|[r ->]]; reflexivity.
Qed.

Lemma center_nan q :
  Forall (fun x => x = PyNInf \/ exists r, x = PyNum r) q -> In PyNInf q ->
  fsum (center q) = PyNaN.
Proof.
  intros HF Hin. unfold center.
  assert (Hm : np_mean q = PyNInf).
  { destruct q as [|x t]; [destruct Hin|]. unfold np_mean.
    rewrite (fsum_ninf _ HF Hin). reflexivity. }
  rewrite Hm. apply fsum_nan. apply in_map_iff. exists PyNInf. split; [reflexivity|exact Hin].
Qed.

Lemma mag2db_fin y :
  Forall (Rle 0) y -> Forall (fun x => x = PyNInf \/ exists r, x = PyNum r) (mag2db y).
Proof.
  intro H. unfold mag2db. apply Forall_map. eapply Forall_impl; [|exact H].
  intros x Hx. unfold flog10.
  destruct (Rlt_dec 0 x); [right; eexists; reflexivity|].
  destruct (Req_dec_T x 0); [left; reflexivity|]. exfalso; lra.
Qed.

Lemma mag2db_ninf y : In 0 y -> In PyNInf (mag2db y).
Proof.
  intro H. unfold mag2db. apply in_map_iff. exists 0. split; [|exact H].
  unfold flog10. destruct (Rlt_dec 0 0); [lra|].
  destruct (Req_dec_T 0 0); [reflexivity|contradiction].
Qed.

(** A zero in both the convolved model magnitude and the empirical row
    (whose sum is not [0]) makes both centred curves contain [nan]: both
    sums are [nan], neither test holds and [pearsonr] is called. *)
Lemma region_err_pearson pearsonr lpf qraw row c :
  convolve_same (map Cabs row) lpf = Some c -> Forall (Rle 0) c -> In 0 c ->
  Forall (Rle 0) qraw -> In 0 qraw -> sum qraw <> 0 ->
  region_err pearsonr lpf qraw row
  = Some (pearsonr (data_curve qraw) (center (mag2db c))).
Proof.
  intros Hc Hc0 Hcz Hq0 Hqz Hs.
  assert (Hd : data_curve qraw = center (mag2db qraw)).
  { unfold data_curve, Reqb.
    destruct (Req_dec_T (sum qraw) 0) as [E|_]; [contradiction|reflexivity]. }
  unfold region_err, model_curve. rewrite Hc. cbv beta iota zeta. rewrite Hd.
  rewrite (center_nan _ (mag2db_fin _ Hc0) (mag2db_ninf _ Hcz)).
  rewrite (center_nan _ (mag2db_fin _ Hq0) (mag2db_ninf _ Hqz)). reflexivity.
Qed.

(** With no selected region the score array is empty and the cost is
    the negated mean of an empty array, [nan]. *)
Lemma cost_empty_rois eig pearsonr params C D lpf FMEGdata frange rois_with_MEG
    h v h' :
  read_idx h rois_with_MEG = Some [] ->
  network_transfer_cost eig pearsonr params C D lpf FMEGdata frange rois_with_MEG h
  = Some (v, h') ->
  v = PyNaN.
Proof.
  intros Hr Hc. unfold network_transfer_cost in Hc. rewrite Hr in Hc.
  chain_some Hc. destruct (alloc h _) as [e h1] eqn:Ea. chain_some Hc.
  injection Hc as <- _.
  match goal with
  | Hl : region_loop _ _ _ _ _ [] _ = Some ?h2, He : read_fvec ?h2 _ = Some ?l |- _ =>
      simpl in Hl; injection Hl as <-;
      rewrite (read_fvec_alloc _ _ _ _ Ea) in He; injection He as <-
  end.
  reflexivity.
Qed.

Lemma region_loop_read pearsonr lpf FM fsel e ns h h2 errs :
  read_fvec h e = Some errs ->
  region_loop pearsonr lpf FM fsel e ns h = Some h2 ->
  exists errs2, read_fvec h2 e = Some errs2.
Proof.
  revert h errs; induction ns as [|n ns IH]; intros h errs He Hl; simpl in Hl.
  - injection Hl as <-. eauto.
  - chain_some Hl.
    exact (IH _ _ (read_fvec_hwrite _ _ _) Hl).
Qed.

Lemma sample_sweep :
  exists fm, sweep eig_diag (zeros 3) (zeros 3) 0.012 0.003 1 5 4 1 0.006 [10] = Some fm /\
    length fm = 1%nat /\ Forall (fun r => length r = 3%nat) fm.
Proof.
  apply (sweep_some eig_diag (zeros 3) (zeros 3) 0.012 0.003 1 5 4 1 0.006 [10] 3
           eq_refl (le_n 3)).
  intros f _; split; reflexivity.
Qed.

(** Every run on [sample_heap] whose labels index the three regions,
    the selection and the empirical rows returns a value. *)
Lemma sample_cost_some pearsonr FM lp rois :
  lp <> [] ->
  (forall n, In n rois -> norm_index 3 n <> None /\
     norm_index (length rois) n <> None /\ exists qraw, py_get FM n = Some qraw) ->
  exists v h', network_transfer_cost eig_diag pearsonr 0 1 2 3 4 5 6
                 (sample_heap FM lp rois) = Some (v, h').
Proof.
  intros Hl Hr.
  destruct sample_sweep as [fm [Hs [Hfl HF]]].
  destruct (restrict_spec fm rois 3) as [fsel [Hsel [Hlen Hrow]]].
  { destruct fm; [discriminate|congruence]. }
  { exact HF. }
  { intros r Hin. exact (proj1 (Hr r Hin)). }
  unfold network_transfer_cost.
  assert (E0 : read_vec (sample_heap FM lp rois) 0 = Some [0.012; 0.003; 1; 5; 4; 1; 0.006])
    by reflexivity.
  assert (E1 : read_mat (sample_heap FM lp rois) 1 = Some (zeros 3)) by reflexivity.
  assert (E2 : read_mat (sample_heap FM lp rois) 2 = Some (zeros 3)) by reflexivity.
  assert (E3 : read_vec (sample_heap FM lp rois) 3 = Some lp) by reflexivity.
  assert (E4 : read_mat (sample_heap FM lp rois) 4 = Some FM) by reflexivity.
  assert (E5 : read_vec (sample_heap FM lp rois) 5 = Some [10]) by reflexivity.
  assert (E6 : read_idx (sample_heap FM lp rois) 6 = Some rois) by reflexivity.
  rewrite E0, E1, E2, E3, E4, E5, E6. cbn [nth_error].
  destruct (alloc _ _) as [e h1] eqn:Ea.
  rewrite Hs, Hsel.
  destruct (region_loop_some pearsonr lp FM fsel e rois h1 (repeat (PyNum 0) (length rois)))
    as [h2 Hh2].
  { exact Hl. }
  { exact (read_fvec_alloc _ _ _ _ Ea). }
  { intros n Hin. destruct (Hr n Hin) as [H3 [Hm Hq]].
    split; [rewrite repeat_length; exact Hm|]. split; [exact Hq|].
    rewrite <- Hlen in Hm.
    destruct (norm_index (length fsel) n) as [k|] eqn:Ek; [|contradiction].
    exists (nth k fsel []). split; [exact (py_get_some _ _ _ _ Ek)|].
    assert (Hk : (k < length rois)%nat) by (rewrite <- Hlen; exact (norm_index_lt _ _ _ Ek)).
    assert (Hnth : nth_error rois k = Some (nth k rois 0%Z)) by (apply nth_error_nth'; exact Hk).
    destruct (norm_index 3 (nth k rois 0%Z)) as [i|] eqn:Ei;
      [|exfalso; apply (proj1 (Hr _ (nth_In rois 0%Z Hk))); exact Ei].
    rewrite (Hrow _ _ _ Hnth Ei).
    destruct fm; [discriminate|cbn; congruence]. }
  rewrite Hh2.
  destruct (region_loop_read _ _ _ _ _ _ _ _ _ (read_fvec_alloc _ _ _ _ Ea) Hh2) as [errs2 He2].
  rewrite He2. eexists; eexists; reflexivity.
Qed.

Lemma Cabs_C0 : Cabs C0 = 0.
Proof.
  unfold Cabs, C0, Cof; cbn [re im].
  replace (0 * 0 + 0 * 0) with 0 by ring. apply sqrt_0.
Qed.

Lemma Cabs_one : Cabs (Cof 1) = 1.
Proof.
  unfold Cabs, Cof; cbn [re im].
  replace (1 * 1 + 0 * 0) with 1 by ring. apply sqrt_1.
Qed.

Lemma convolve_sample : convolve_same (map Cabs [C0; Cof 1]) [1] = Some [0; 1].
Proof.
  unfold convolve_same, conv_full. simpl. rewrite Cabs_C0, Cabs_one.
  f_equal. f_equal; [|f_equal]; ring.
Qed.

(** Claim C5 (scores in exact arithmetic).  The centred model curve
    sums to exactly [0], and the region scores [0], whenever the
    convolved model magnitude is positive; likewise when the empirical
    row is positive or sums to [0]; and a non-empty selection whose
    empirical rows are all such costs [0].  But a zero in both the
    convolved model magnitude and the empirical row (whose sum is not
    [0]) gives [-inf] under [log10] and [nan] after centring: both sums
    are [nan], neither test holds and [pearsonr] is called, with no
    rounding involved.  An empty selection costs [nan]. *)
Theorem cost_exact_scores :
  (forall pearsonr lpf qraw row c,
     convolve_same (map Cabs row) lpf = Some c -> c <> [] -> Forall (Rlt 0) c ->
     region_err pearsonr lpf qraw row = Some (PyNum 0)) /\
  (forall pearsonr lpf qraw row s,
     sum qraw = 0 \/ Forall (Rlt 0) qraw ->
     region_err pearsonr lpf qraw row = Some s -> s = PyNum 0) /\
  (forall eig pearsonr params C D lpf FMEGdata frange rois_with_MEG h FM rois v h',
     read_mat h FMEGdata = Some FM -> read_idx h rois_with_MEG = Some rois ->
     rois <> [] ->
     (forall n qraw, In n rois -> py_get FM n = Some qraw ->
        sum qraw = 0 \/ Forall (Rlt 0) qraw) ->
     network_transfer_cost eig pearsonr params C D lpf FMEGdata frange
       rois_with_MEG h = Some (v, h') ->
     v = PyNum 0) /\
  (forall pearsonr lpf qraw row c,
     convolve_same (map Cabs row) lpf = Some c -> Forall (Rle 0) c -> In 0 c ->
     Forall (Rle 0) qraw -> In 0 qraw -> sum qraw <> 0 ->
     region_err pearsonr lpf qraw row
     = Some (pearsonr (data_curve qraw) (center (mag2db c)))) /\
  (forall eig pearsonr params C D lpf FMEGdata frange rois_with_MEG h v h',
     read_idx h rois_with_MEG = Some [] ->
     network_transfer_cost eig pearsonr params C D lpf FMEGdata frange
       rois_with_MEG h = Some (v, h') ->
     v = PyNaN).
Proof.
  split; [exact region_err_model_zero|].
  split; [exact region_err_data_zero|].
  split; [exact cost_zero_data|].
  split; [exact region_err_pearson|].
  exact cost_empty_rois.
Qed.

(** Claim C5 fails as stated: the cost is not [0] for all inputs (on
    [sample_heap] with no selected region it is [nan]), and the Pearson
    branch is reached in exact arithmetic (model magnitude [[0; 1]]
    after the filter [[1]], empirical row [[0; 1]]: both centred sums
    are [nan]). *)
Lemma cost_exact_scores_cex :
  (forall pearsonr, exists h',
     network_transfer_cost eig_diag pearsonr 0 1 2 3 4 5 6
       (sample_heap [[1]] [1] []) = Some (PyNaN, h')) /\
  (forall pearsonr,
     region_err pearsonr [1] [0; 1] [C0; Cof 1]
     = Some (pearsonr (data_curve [0; 1]) (center (mag2db [0; 1]))) /\
     fsum (data_curve [0; 1]) = PyNaN /\
     fsum (center (mag2db [0; 1])) = PyNaN).
Proof.
  assert (Hf : Forall (Rle 0) [0; 1]) by (repeat constructor; lra).
  assert (Hz : In 0 [0; 1]) by (now left).
  assert (Hs : sum [0; 1] <> 0) by (unfold sum; simpl; lra).
  split.
  - intro pr.
    destruct (sample_cost_some pr [[1]] [1] []) as [v [h' Hc]].
    + discriminate.
    + intros n [].
    + assert (Hv : v = PyNaN)
        by (apply (cost_empty_rois eig_diag pr 0 1 2 3 4 5 6 (sample_heap [[1]] [1] []) v h');
            [reflexivity|exact Hc]).
      exists h'. rewrite Hc, Hv. reflexivity.
  - intro pr. split; [|split].
    + exact (region_err_pearson pr [1] [0; 1] [C0; Cof 1] [0; 1]
               convolve_sample Hf Hz Hf Hz Hs).
    + unfold data_curve, Reqb.
      destruct (Req_dec_T (sum [0; 1]) 0) as [E|_]; [contradiction|].
      exact (center_nan _ (mag2db_fin _ Hf) (mag2db_ninf _ Hz)).
    + exact (center_nan _ (mag2db_fin _ Hf) (mag2db_ninf _ Hz)).
Qed.

(** ** Label indexing (claim C10) *)

Lemma traverse_length {A B : Type} (f : A -> option B) l l' :
  traverse f l = Some l' -> length l' = length l.
Proof.
  revert l'; induction l as [|x t IH]; intros l' H; simpl in H.
  - injection H as <-. reflexivity.
  - destruct (f x); [|discriminate]. destruct (traverse f t) eqn:Et; [|discriminate].
    injection H as <-. simpl. f_equal. apply IH. reflexivity.
Qed.

Lemma traverse_all {A B : Type} (f : A -> option B) l l' :
  traverse f l = Some l' -> forall x, In x l -> f x <> None.
Proof.
  revert l'; induction l as [|y t IH]; intros l' H x Hx; [destruct Hx|]. simpl in H.
  destruct (f y) eqn:Ey; [|discriminate]. destruct (traverse f t) eqn:Et; [|discriminate].
  destruct Hx as [<-|Hx]; [congruence|]. exact (IH _ eq_refl x Hx).
Qed.

Lemma norm_index_bounds len n :
  norm_index len n <> None -> (- Z.of_nat len <= n < Z.of_nat len)%Z.
Proof.
  unfold norm_index. intro H.
  destruct ((0 <=? n)%Z && (n <? Z.of_nat len)%Z)%bool eqn:E1.
  - apply andb_prop in E1 as [E1 E2]. apply Z.leb_le in E1. apply Z.ltb_lt in E2. lia.
  - destruct ((- Z.of_nat len <=? n)%Z && (n <? 0)%Z)%bool eqn:E2; [|congruence].
    apply andb_prop in E2 as [E2 E3]. apply Z.leb_le in E2. apply Z.ltb_lt in E3. lia.
Qed.

Lemma norm_index_nonneg len n :
  (0 <= n)%Z -> norm_index len n <> None -> norm_index len n = Some (Z.to_nat n).
Proof.
  unfold norm_index. intros Hn H.
  destruct ((0 <=? n)%Z && (n <? Z.of_nat len)%Z)%bool eqn:E1; [reflexivity|].
  destruct ((- Z.of_nat len <=? n)%Z && (n <? 0)%Z)%bool eqn:E2; [|congruence].
  apply andb_prop in E2 as [_ E3]. apply Z.ltb_lt in E3. lia.
Qed.

Lemma norm_index_of_nat len k : (k < len)%nat -> norm_index len (Z.of_nat k) = Some k.
Proof.
  intro Hk. unfold norm_index.
  replace ((0 <=? Z.of_nat k)%Z && (Z.of_nat k <? Z.of_nat len)%Z)%bool with true
    by (symmetry; apply andb_true_intro; split; [apply Z.leb_le|apply Z.ltb_lt]; lia).
  rewrite Nat2Z.id. reflexivity.
Qed.

Lemma restrict_length fm rois fsel :
  restrict fm rois = Some fsel -> length fsel = length rois.
Proof.
  unfold restrict. destruct fm as [|row0 fm']; [discriminate|].
  destruct (traverse _ (row0 :: fm')) as [sel|] eqn:Et; [|discriminate].
  intro H. injection H as <-. rewrite length_transpose.
  simpl in Et. destruct (traverse (py_get row0) rois) as [y|] eqn:Ey; [|discriminate].
  destruct (traverse _ fm'); [|discriminate]. injection Et as <-. simpl.
  exact (traverse_length _ _ _ Ey).
Qed.

Lemma restrict_labels fm rois fsel N :
  Forall (fun r => length r = N) fm -> restrict fm rois = Some fsel ->
  forall r, In r rois -> norm_index N r <> None.
Proof.
  intros HF. unfold restrict. destruct fm as [|row0 fm']; [discriminate|].
  destruct (traverse _ (row0 :: fm')) as [sel|] eqn:Et; [|discriminate].
  intros _ r Hr. simpl in Et.
  destruct (traverse (py_get row0) rois) as [y|] eqn:Ey; [|discriminate].
  pose proof (traverse_all _ _ _ Ey r Hr) as Hg. unfold py_get in Hg.
  inversion HF; subst.
  intro E. rewrite E in Hg. apply Hg. reflexivity.
Qed.

Lemma region_loop_bounds pearsonr lpf FM fsel e ns h h2 :
  region_loop pearsonr lpf FM fsel e ns h = Some h2 ->
  forall n, In n ns -> norm_index (length fsel) n <> None.
Proof.
  revert h; induction ns as [|m ns IH]; intros h Hl n Hn; [destruct Hn|].
  simpl in Hl. chain_some Hl.
  destruct Hn as [<-|Hn]; [|exact (IH _ Hl n Hn)].
  match goal with E : py_get fsel _ = Some _ |- _ =>
    unfold py_get in E; intro Hz; rewrite Hz in E; discriminate E end.
Qed.

(** A run that returns has every label in the numpy index range
    [-m, m) of the selection, [m = len(rois_with_MEG)]. *)
Lemma cost_label_bounds eig pearsonr params C D lpf FMEGdata frange rois_with_MEG
    h rois v h' :
  read_idx h rois_with_MEG = Some rois ->
  network_transfer_cost eig pearsonr params C D lpf FMEGdata frange rois_with_MEG h
  = Some (v, h') ->
  forall n, In n rois ->
    (- Z.of_nat (length rois) <= n < Z.of_nat (length rois))%Z.
Proof.
  intros Hr Hc n Hn. unfold network_transfer_cost in Hc. rewrite Hr in Hc.
  chain_some Hc. destruct (alloc h _) as [e h1] eqn:Ea. chain_some Hc.
  match goal with
  | Hs : restrict _ _ = Some ?fsel, Hl : region_loop _ _ _ ?fsel _ _ _ = Some _ |- _ =>
      rewrite <- (restrict_length _ _ _ Hs);
      exact (norm_index_bounds _ _ (region_loop_bounds _ _ _ _ _ _ _ _ Hl n Hn))
  end.
Qed.

Lemma restrict_row fm rois N fsel n row :
  Forall (fun r => length r = N) fm -> restrict fm rois = Some fsel ->
  py_get fsel n = Some row ->
  exists j r i, norm_index (length rois) n = Some j /\ nth_error rois j = Some r /\
    norm_index N r = Some i /\ row = map (fun f => nth i f C0) fm.
Proof.
  intros HF Hs Hg.
  pose proof (restrict_labels _ _ _ _ HF Hs) as Hlab.
  destruct (restrict_spec fm rois N) as [fsel' [Hs' [Hlen Hrow]]];
    [destruct fm; [discriminate|congruence] | exact HF | exact Hlab |].
  rewrite Hs in Hs'. injection Hs' as <-.
  unfold py_get in Hg. rewrite Hlen in Hg.
  destruct (norm_index (length rois) n) as [j|] eqn:Ej; [|discriminate].
  simpl in Hg.
  assert (Hj : (j < length rois)%nat) by exact (norm_index_lt _ _ _ Ej).
  assert (Hnth : nth_error rois j = Some (nth j rois 0%Z)) by (apply nth_error_nth'; exact Hj).
  destruct (norm_index N (nth j rois 0%Z)) as [i|] eqn:Ei;
    [|exfalso; exact (Hlab _ (nth_In rois 0%Z Hj) Ei)].
  exists j, (nth j rois 0%Z), i. split; [reflexivity|]. split; [exact Hnth|].
  split; [exact Ei|].
  rewrite <- (Hrow _ _ _ Hnth Ei). symmetry. apply nth_error_nth. exact Hg.
Qed.

Lemma labels_own_iff rois :
  NoDup rois -> Forall (fun n => (0 <= n)%Z) rois ->
  ((forall n, In n rois -> exists j,
      norm_index (length rois) n = Some j /\ nth_error rois j = Some n)
   <-> rois = map Z.of_nat (seq 0 (length rois))).
Proof.
  intros Hnd Hnn. split.
  - intro H. apply nth_error_ext. intro k.
    rewrite nth_error_map, nth_error_seq.
    destruct (Nat.ltb_spec k (length rois)) as [Hk|Hk].
    + assert (Hnth : nth_error rois k = Some (nth k rois 0%Z))
        by (apply nth_error_nth'; exact Hk).
      set (n := nth k rois 0%Z) in *.
      assert (Hin : In n rois) by (apply nth_In; exact Hk).
      destruct (H n Hin) as [j [Ej Hj]].
      rewrite Forall_forall in Hnn.
      rewrite (norm_index_nonneg _ _ (Hnn n Hin)) in Ej by congruence.
      injection Ej as <-.
      assert (Hkj : k = Z.to_nat n)
        by (apply (proj1 (NoDup_nth_error rois) Hnd); [exact Hk|congruence]).
      rewrite Hnth. simpl. f_equal. pose proof (Hnn n Hin). lia.
    + simpl. apply nth_error_None. exact Hk.
  - intros Heq n Hin.
    rewrite Heq in Hin. apply in_map_iff in Hin as [k [<- Hk]]. apply in_seq in Hk.
    exists k. split; [apply norm_index_of_nat; lia|].
    rewrite Heq at 1. rewrite nth_error_map, nth_error_seq.
    destruct (Nat.ltb_spec k (length rois)); [reflexivity|lia].
Qed.

(** Claim C10 (label indexing).  A run that returns has every label [n]
    in [-m <= n < m], [m = len(rois_with_MEG)] (numpy's negative
    indexing included); the row compared for label [n] is the model
    response of region [rois_with_MEG[n mod m]]; and for duplicate-free
    non-negative labels, every label reads its own region's response
    exactly when [rois_with_MEG = 0..m-1]. *)
Theorem cost_label_indexing :
  (forall eig pearsonr params C D lpf FMEGdata frange rois_with_MEG h rois v h',
     read_idx h rois_with_MEG = Some rois ->
     network_transfer_cost eig pearsonr params C D lpf FMEGdata frange
       rois_with_MEG h = Some (v, h') ->
     forall n, In n rois ->
       (- Z.of_nat (length rois) <= n < Z.of_nat (length rois))%Z) /\
  (forall fm rois N fsel n row,
     Forall (fun r => length r = N) fm -> restrict fm rois = Some fsel ->
     py_get fsel n = Some row ->
     exists j r i, norm_index (length rois) n = Some j /\ nth_error rois j = Some r /\
       norm_index N r = Some i /\ row = map (fun f => nth i f C0) fm) /\
  (forall rois,
     NoDup rois -> Forall (fun n => (0 <= n)%Z) rois ->
     ((forall n, In n rois -> exists j,
         norm_index (length rois) n = Some j /\ nth_error rois j = Some n)
      <-> rois = map Z.of_nat (seq 0 (length rois)))).
Proof.
  split; [exact cost_label_bounds|]. split; [exact restrict_row|]. exact labels_own_iff.
Qed.

(** Claim C10 fails as stated: with the labels [[0; 0]] both iterations
    compare region [0]'s own response (and the run on [sample_heap]
    returns), yet the labels are not [0..m-1]. *)
Lemma cost_label_indexing_cex :
  restrict [[Cof 1; Cof 2]] [0%Z; 0%Z] = Some [[Cof 1]; [Cof 1]] /\
  py_get [[Cof 1]; [Cof 1]] 0%Z = Some (map (fun f => nth 0 f C0) [[Cof 1; Cof 2]]) /\
  (forall n, In n [0%Z; 0%Z] -> exists j,
     norm_index 2 n = Some j /\ nth_error [0%Z; 0%Z] j = Some n) /\
  [0%Z; 0%Z] <> map Z.of_nat (seq 0 2) /\
  (forall pearsonr, exists v h',
     network_transfer_cost eig_diag pearsonr 0 1 2 3 4 5 6
       (sample_heap [[1]] [1] [0%Z; 0%Z]) = Some (v, h')).
Proof.
  split; [reflexivity|]. split; [reflexivity|]. split.
  - intros n [<-|[<-|[]]]; exists 0%nat; split; reflexivity.
  - split; [discriminate|].
    intro pr. apply sample_cost_some; [discriminate|].
    intros n [<-|[<-|[]]]; (split; [discriminate|split; [discriminate|]]);
      exists [1]; reflexivity.
Qed.

(** ** Determinism (claim C8) *)

Lemma region_loop_read_eq pearsonr lpf FM fsel ea eb ns ha hb :
  read_fvec ha ea = read_fvec hb eb ->
  option_map (fun h => read_fvec h ea) (region_loop pearsonr lpf FM fsel ea ns ha)
  = option_map (fun h => read_fvec h eb) (region_loop pearsonr lpf FM fsel eb ns hb).
Proof.
  revert ha hb; induction ns as [|n ns IH]; intros ha hb H; simpl; [congruence|].
  destruct (py_get FM n); [|reflexivity].
  destruct (py_get fsel n); [|reflexivity].
  destruct (region_err pearsonr lpf l l0); [|reflexivity].
  rewrite H. destruct (read_fvec hb eb) as [errs|]; [|reflexivity].
  destruct (py_set errs n p); [|reflexivity].
  apply IH. rewrite !read_fvec_hwrite. reflexivity.
Qed.

Lemma region_loop_other pearsonr lpf FM fsel e ns h h2 :
  region_loop pearsonr lpf FM fsel e ns h = Some h2 ->
  hnext h2 = hnext h /\ forall l, l <> e -> hp h2 l = hp h l.
Proof.
  revert h; induction ns as [|n ns IH]; intros h Hl; simpl in Hl.
  - injection Hl as <-. auto.
  - chain_some Hl. destruct (IH _ Hl) as [Hn Hp]. split; [exact Hn|].
    intros loc Hle. rewrite (Hp loc Hle). unfold hwrite; simpl.
    apply Nat.eqb_neq in Hle. rewrite Hle. reflexivity.
Qed.

Ltac args_agree Hag :=
  intros l Hl; unfold read_vec, read_mat, read_idx;
  rewrite (Hag l Hl); reflexivity.

Lemma cost_frame eig pearsonr params C D lpf FMEGdata frange rois_with_MEG h1 h2 :
  (forall l, In l [params; C; D; lpf; FMEGdata; frange; rois_with_MEG] ->
     hp h1 l = hp h2 l) ->
  option_map fst (network_transfer_cost eig pearsonr params C D lpf FMEGdata frange
                    rois_with_MEG h1)
  = option_map fst (network_transfer_cost eig pearsonr params C D lpf FMEGdata frange
                      rois_with_MEG h2).
Proof.
  intro Hag.
  assert (Rv : forall l, In l [params; C; D; lpf; FMEGdata; frange; rois_with_MEG] ->
                 read_vec h1 l = read_vec h2 l) by args_agree Hag.
  assert (Rm : forall l, In l [params; C; D; lpf; FMEGdata; frange; rois_with_MEG] ->
                 read_mat h1 l = read_mat h2 l) by args_agree Hag.
  assert (Ri : forall l, In l [params; C; D; lpf; FMEGdata; frange; rois_with_MEG] ->
                 read_idx h1 l = read_idx h2 l) by args_agree Hag.
  unfold network_transfer_cost.
  rewrite (Rv params), (Rm C), (Rm D), (Rv lpf), (Rm FMEGdata), (Rv frange),
    (Ri rois_with_MEG) by (simpl; tauto).
  repeat match goal with
  | |- context [match ?x with Some _ => _ | None => None end] =>
      destruct x; [|reflexivity]
  end.
  destruct (alloc h1 _) as [e1 h1'] eqn:E1. destruct (alloc h2 _) as [e2 h2'] eqn:E2.
  match goal with
  | |- context [region_loop ?p ?lp ?FM ?fsel e1 ?ns h1'] =>
      pose proof (region_loop_read_eq p lp FM fsel e1 e2 ns h1' h2') as Hq;
      rewrite (read_fvec_alloc _ _ _ _ E1), (read_fvec_alloc _ _ _ _ E2) in Hq;
      specialize (Hq eq_refl);
      destruct (region_loop p lp FM fsel e1 ns h1'),
               (region_loop p lp FM fsel e2 ns h2'); simpl in Hq; try discriminate;
        [|reflexivity]
  end.
  injection Hq as Hq. rewrite Hq. destruct (read_fvec _ e2); reflexivity.
Qed.

Lemma cost_post eig pearsonr params C D lpf FMEGdata frange rois_with_MEG h v h' :
  network_transfer_cost eig pearsonr params C D lpf FMEGdata frange rois_with_MEG h
  = Some (v, h') ->
  forall l, (l < hnext h)%nat -> hp h' l = hp h l.
Proof.
  intros Hc l Hl. unfold network_transfer_cost in Hc.
  chain_some Hc. destruct (alloc h _) as [e h1] eqn:Ea. chain_some Hc.
  injection Hc as _ <-.
  unfold alloc in Ea. injection Ea as <- <-.
  match goal with
  | Hr : region_loop _ _ _ _ _ _ _ = Some _ |- _ =>
      destruct (region_loop_other _ _ _ _ _ _ _ _ Hr) as [_ Hp]
  end.
  rewrite Hp by lia. simpl.
  replace (l =? hnext h)%nat with false by (symmetry; apply Nat.eqb_neq; lia).
  reflexivity.
Qed.

(** Claim C8 (determinism).  The returned value depends only on the
    arrays at the seven argument locations; and a call leaves every
    pre-existing location unchanged (it writes only the [err_min] array
    it allocates), so a second call with the same argument locations
    returns the same value. *)
Theorem cost_deterministic eig pearsonr params C D lpf FMEGdata frange rois_with_MEG :
  (forall h1 h2,
     (forall l, In l [params; C; D; lpf; FMEGdata; frange; rois_with_MEG] ->
        hp h1 l = hp h2 l) ->
     option_map fst (network_transfer_cost eig pearsonr params C D lpf FMEGdata
                       frange rois_with_MEG h1)
     = option_map fst (network_transfer_cost eig pearsonr params C D lpf FMEGdata
                         frange rois_with_MEG h2)) /\
  (forall h v h',
     (forall l, In l [params; C; D; lpf; FMEGdata; frange; rois_with_MEG] ->
        (l < hnext h)%nat) ->
     network_transfer_cost eig pearsonr params C D lpf FMEGdata frange
       rois_with_MEG h = Some (v, h') ->
     (forall l, (l < hnext h)%nat -> hp h' l = hp h l) /\
     option_map fst (network_transfer_cost eig pearsonr params C D lpf FMEGdata
                       frange rois_with_MEG h') = Some v).
Proof.
  split; [exact (cost_frame eig pearsonr params C D lpf FMEGdata frange rois_with_MEG)|].
  intros h v h' Hlt Hc.
  pose proof (cost_post _ _ _ _ _ _ _ _ _ _ _ _ Hc) as Hp. split; [exact Hp|].
  rewrite (cost_frame eig pearsonr params C D lpf FMEGdata frange rois_with_MEG h' h).
  - rewrite Hc. reflexivity.
  - intros l Hl. exact (Hp l (Hlt l Hl)).
Qed.

(** ** Region orderings, data loading and connectome preprocessing *)

Lemma zinsert_perm x l : Permutation (x :: l) (zinsert x l).
Proof.
  induction l as [|y t IH]; simpl; [reflexivity|].
  destruct (x <=? y)%Z; [reflexivity|].
  rewrite perm_swap. constructor. exact IH.
Qed.

Lemma zsort_perm l : Permutation l (zsort l).
Proof.
  induction l as [|x t IH]; simpl; [reflexivity|].
  rewrite <- zinsert_perm. constructor. exact IH.
Qed.

Lemma forallb_In {A : Type} (p : A -> bool) l x :
  forallb p l = true -> In x l -> p x = true.
Proof. intros H Hx. rewrite forallb_forall in H. exact (H x Hx). Qed.

(** The cortical ordering [cortJulia] lists every label [0..67] once. *)
Theorem cortJulia_perm :
  let '(_, _, cortJulia) := get_Julia_order in
  Permutation cortJulia (arange 0 68).
Proof.
  simpl. eapply perm_trans; [apply zsort_perm|]. vm_compute. reflexivity.
Qed.

(** The full ordering [permJulia] has 86 entries, all within [0..75]
    (labels [76..85] never occur), and repeats labels: [0] sits at
    positions [0], [68] and [76]. *)
Theorem permJulia_not_perm :
  let '(permJulia, _, _) := get_Julia_order in
  length permJulia = 86%nat /\
  Forall (fun x => (0 <= x <= 75)%Z) permJulia /\
  nth_error permJulia 0 = Some 0%Z /\ nth_error permJulia 68 = Some 0%Z /\
  nth_error permJulia 76 = Some 0%Z /\
  ~ NoDup permJulia.
Proof.
  simpl. split; [reflexivity|]. split.
  - apply Forall_forall. intros x Hx.
    apply (forallb_In (fun x => (0 <=? x)%Z && (x <=? 75)%Z)%bool) in Hx;
      [|vm_compute; reflexivity].
    apply andb_prop in Hx as [H1 H2]. apply Z.leb_le in H1. apply Z.leb_le in H2. lia.
  - split; [reflexivity|]. split; [reflexivity|]. split; [reflexivity|].
    intro Hnd.
    assert (H : (0 = 68)%nat)
      by (apply (proj1 (NoDup_nth_error _) Hnd 0%nat 68%nat); [simpl; lia|reflexivity]).
    discriminate.
Qed.

Lemma norm_index_in len n :
  (0 <= n < Z.of_nat len)%Z -> norm_index len n = Some (Z.to_nat n).
Proof.
  intro H. unfold norm_index.
  replace ((0 <=? n)%Z && (n <? Z.of_nat len)%Z)%bool with true
    by (symmetry; apply andb_true_intro; split; [apply Z.leb_le|apply Z.ltb_lt]; lia).
  reflexivity.
Qed.

Lemma take_rows_in {A : Type} (M : list A) idx d :
  (forall n, In n idx -> (0 <= n < Z.of_nat (length M))%Z) ->
  take_rows M idx = Some (map (fun n => nth (Z.to_nat n) M d) idx).
Proof.
  unfold take_rows. induction idx as [|n idx IH]; intro H; [reflexivity|]. simpl.
  rewrite (py_get_some M n (Z.to_nat n) d) by (apply norm_index_in; apply H; now left).
  rewrite IH by (intros m Hm; apply H; now right). reflexivity.
Qed.

Lemma traverse_none {A B : Type} (f : A -> option B) l x :
  In x l -> f x = None -> traverse f l = None.
Proof.
  induction l as [|y t IH]; intros Hx Hf; [destruct Hx|]. simpl.
  destruct Hx as [<-|Hx]; [rewrite Hf; reflexivity|].
  destruct (f y); [|reflexivity]. rewrite (IH Hx Hf). reflexivity.
Qed.

Lemma take_cols_in (M : mat) idx n :
  Forall (fun row => length row = n) M ->
  (forall k, In k idx -> (0 <= k < Z.of_nat n)%Z) ->
  take_cols M idx = Some (map (fun row => map (fun k => nth (Z.to_nat k) row 0) idx) M).
Proof.
  unfold take_cols. induction 1 as [|row M Hrow HM IH]; intro H; [reflexivity|]. simpl.
  change (traverse (py_get row) idx) with (take_rows row idx).
  rewrite (take_rows_in row idx 0) by (rewrite Hrow; exact H).
  rewrite IH by exact H. reflexivity.
Qed.

(** Selecting the rows and then the columns at in-range labels [p] of a
    square matrix. *)
Lemma reorder_spec (M : mat) p n :
  square n M -> (forall k, In k p -> (0 <= k < Z.of_nat n)%Z) ->
  exists R M', take_rows M p = Some R /\ take_cols R p = Some M' /\
    square (length p) M' /\
    forall i j, (i < length p)%nat -> (j < length p)%nat ->
      mat_get M' i j = mat_get M (Z.to_nat (nth i p 0%Z)) (Z.to_nat (nth j p 0%Z)).
Proof.
  intros [HM HF] Hp.
  set (R0 := map (fun k => nth (Z.to_nat k) M []) p).
  assert (HR : Forall (fun row => length row = n) R0).
  { apply Forall_forall. intros row Hrow. apply in_map_iff in Hrow as [k [<- Hk]].
    rewrite Forall_forall in HF. apply HF. apply nth_In.
    pose proof (Hp k Hk). lia. }
  exists R0, (map (fun row => map (fun k => nth (Z.to_nat k) row 0) p) R0).
  split; [apply (take_rows_in M p []); rewrite HM; exact Hp|].
  split; [exact (take_cols_in R0 p n HR Hp)|]. split.
  - split; [unfold R0; rewrite !length_map; reflexivity|].
    apply Forall_forall. intros row Hrow. apply in_map_iff in Hrow as [r [<- _]].
    apply length_map.
  - intros i j Hi Hj. unfold mat_get, R0.
    rewrite nth_map_lt with (d' := []) by (rewrite length_map; exact Hi).
    rewrite nth_map_lt with (d' := 0%Z) by exact Hj.
    rewrite nth_map_lt with (d' := 0%Z) by exact Hi. reflexivity.
Qed.

Lemma permHCP_shift i :
  (i < 86)%nat -> nth i permHCP 0%Z = Z.of_nat ((i + 18) mod 86).
Proof.
  intro Hi.
  assert (H : forallb (fun i => Z.eqb (nth i permHCP 0%Z) (Z.of_nat ((i + 18) mod 86)))
                (seq 0 86) = true) by (vm_compute; reflexivity).
  apply Z.eqb_eq. apply (forallb_In _ _ _ H). apply in_seq. lia.
Qed.

Lemma permHCP_range k : In k permHCP -> (0 <= k < 86)%Z.
Proof.
  intro Hk.
  apply (forallb_In (fun x => (0 <=? x)%Z && (x <? 86)%Z)%bool) in Hk;
    [|vm_compute; reflexivity].
  apply andb_prop in Hk as [H1 H2]. apply Z.leb_le in H1. apply Z.ltb_lt in H2. lia.
Qed.

Lemma permHCP_perm : Permutation permHCP (arange 0 86).
Proof. eapply perm_trans; [apply zsort_perm|]. vm_compute. reflexivity. Qed.

Lemma length_permHCP : length permHCP = 86%nat.
Proof. reflexivity. Qed.

Lemma hcp_reorder cdk ddk :
  square 86 cdk -> square 86 ddk ->
  exists Cdk Ddk, get_HCP_connectome cdk ddk = Some (Cdk, Ddk, permHCP) /\
    square 86 Cdk /\ square 86 Ddk /\
    forall i j, (i < 86)%nat -> (j < 86)%nat ->
      mat_get Cdk i j = mat_get cdk ((i + 18) mod 86) ((j + 18) mod 86) /\
      mat_get Ddk i j = mat_get ddk ((i + 18) mod 86) ((j + 18) mod 86).
Proof.
  intros Hc Hd.
  destruct (reorder_spec cdk permHCP 86 Hc permHCP_range) as [Rc [Cdk [E1 [E2 [Sc Gc]]]]].
  destruct (reorder_spec ddk permHCP 86 Hd permHCP_range) as [Rd [Ddk [E3 [E4 [Sd Gd]]]]].
  exists Cdk, Ddk. unfold get_HCP_connectome. rewrite E1, E2, E3, E4.
  rewrite length_permHCP in Sc, Sd, Gc, Gd.
  split; [reflexivity|]. split; [exact Sc|]. split; [exact Sd|].
  intros i j Hi Hj. rewrite (Gc i j Hi Hj), (Gd i j Hi Hj).
  rewrite !permHCP_shift by assumption. rewrite !Nat2Z.id. split; reflexivity.
Qed.

Lemma zeros_square n : square n (zeros n).
Proof.
  unfold zeros. split; [apply repeat_length|].
  apply Forall_forall. intros r Hr. apply repeat_spec in Hr. subst. apply repeat_length.
Qed.

Lemma zeros_get n i j : mat_get (zeros n) i j = 0.
Proof.
  unfold mat_get, zeros. destruct (Nat.lt_ge_cases i n) as [Hi|Hi].
  - rewrite nth_repeat_lt by exact Hi. destruct (Nat.lt_ge_cases j n).
    + rewrite nth_repeat_lt by assumption. reflexivity.
    + apply nth_overflow. rewrite repeat_length. assumption.
  - replace (nth i (repeat (repeat 0 n) n) []) with (@nil R)
      by (symmetry; apply nth_overflow; rewrite repeat_length; exact Hi).
    destruct j; reflexivity.
Qed.

Lemma zeros_symmetric n : symmetric n (zeros n).
Proof. intros i j _ _. rewrite !zeros_get. reflexivity. Qed.

Lemma traverse_some {A B : Type} (f : A -> option B) l :
  (forall x, In x l -> f x <> None) -> exists l', traverse f l = Some l'.
Proof.
  induction l as [|x t IH]; intro H; [exists []; reflexivity|]. simpl.
  destruct (f x) as [y|] eqn:Ef; [|exfalso; apply (H x); [now left|exact Ef]].
  destruct IH as [l' Hl']; [intros z Hz; apply H; now right|].
  rewrite Hl'. exists (y :: l'). reflexivity.
Qed.

Lemma traverse_nth {A B : Type} (f : A -> option B) l l' k x :
  traverse f l = Some l' -> nth_error l k = Some x -> nth_error l' k = f x.
Proof.
  revert l' k; induction l as [|y t IH]; intros l' k H Hk; [destruct k; discriminate|].
  simpl in H. destruct (f y) as [z|] eqn:Ef; [|discriminate].
  destruct (traverse f t) as [zs|] eqn:Et; [|discriminate]. injection H as <-.
  destruct k as [|k]; simpl in Hk |- *.
  - injection Hk as <-. symmetry. exact Ef.
  - exact (IH zs k eq_refl Hk).
Qed.

Lemma traverse_none_iff {A B : Type} (f : A -> option B) l :
  traverse f l <> None <-> (forall x, In x l -> f x <> None).
Proof.
  split.
  - intros H x Hx Hf. apply H. exact (traverse_none f l x Hx Hf).
  - intro H. destruct (traverse_some f l H) as [l' ->]. discriminate.
Qed.

Lemma py_get_none_iff {A : Type} (l : list A) n :
  py_get l n <> None <-> norm_index (length l) n <> None.
Proof.
  unfold py_get. destruct (norm_index (length l) n) as [i|] eqn:Ei; simpl.
  - apply norm_index_lt in Ei. split; intros _; [discriminate|].
    destruct (nth_error l i) eqn:E; [discriminate|].
    apply nth_error_None in E. lia.
  - tauto.
Qed.

Lemma map_nth_seq_self {A : Type} (l : list A) d :
  map (fun k => nth k l d) (seq 0 (length l)) = l.
Proof.
  apply (nth_ext _ _ d d); [rewrite length_map, length_seq; reflexivity|].
  intros n Hn. rewrite length_map, length_seq in Hn.
  rewrite (nth_map_lt _ _ _ d 0%nat) by (rewrite length_seq; exact Hn).
  rewrite seq_nth by exact Hn. reflexivity.
Qed.

Lemma cortJulia_arange : Permutation (snd get_Julia_order) (arange 0 68).
Proof.
  simpl. eapply perm_trans; [apply zsort_perm|]. vm_compute. reflexivity.
Qed.

Lemma take_rows_perm {A : Type} (M : list A) (p : list Z) (d : A) :
  Permutation p (arange 0 (Z.of_nat (length M))) ->
  exists M', take_rows M p = Some M' /\ Permutation M' M.
Proof.
  intro Hp.
  assert (Hin : forall n, In n p -> (0 <= n < Z.of_nat (length M))%Z).
  { intros n Hn. apply (Permutation_in _ Hp) in Hn. unfold arange in Hn.
    apply in_map_iff in Hn as [k [<- Hk]]. apply in_seq in Hk. lia. }
  exists (map (fun n => nth (Z.to_nat n) M d) p). split.
  - apply take_rows_in. exact Hin.
  - eapply perm_trans; [apply Permutation_map; exact Hp|].
    unfold arange. rewrite map_map.
    replace (Z.to_nat (Z.of_nat (length M) - 0)) with (length M) by lia.
    rewrite (map_ext _ (fun k => nth k M d)) by (intro k; f_equal; lia).
    rewrite map_nth_seq_self. reflexivity.
Qed.

Lemma norm_index_short len n :
  (Z.of_nat len <= n)%Z -> norm_index len n = None.
Proof.
  intro H. unfold norm_index.
  destruct ((0 <=? n)%Z && (n <? Z.of_nat len)%Z)%bool eqn:E1.
  - apply andb_prop in E1 as [_ E1]. apply Z.ltb_lt in E1. lia.
  - destruct ((- Z.of_nat len <=? n)%Z && (n <? 0)%Z)%bool eqn:E2; [|reflexivity].
    apply andb_prop in E2 as [_ E2]. apply Z.ltb_lt in E2. lia.
Qed.

Lemma take_rows_short {A : Type} (M : list A) :
  (length M < 86)%nat -> take_rows M permHCP = None.
Proof.
  intro H. apply (traverse_none _ _ 85%Z); [vm_compute; tauto|].
  unfold py_get. rewrite norm_index_short by lia. reflexivity.
Qed.

(** [get_HCP_connectome] on two 86 x 86 arrays succeeds and returns [permHCP],
    a permutation of 0..85; entry (i, j) of each reordered matrix is entry
    ((i + 18) mod 86, (j + 18) mod 86) of the array read from the file. *)
Theorem get_HCP_connectome_shift cdk ddk :
  square 86 cdk -> square 86 ddk ->
  Permutation permHCP (arange 0 86) /\
  exists Cdk Ddk, get_HCP_connectome cdk ddk = Some (Cdk, Ddk, permHCP) /\
    square 86 Cdk /\ square 86 Ddk /\
    forall i j, (i < 86)%nat -> (j < 86)%nat ->
      mat_get Cdk i j = mat_get cdk ((i + 18) mod 86) ((j + 18) mod 86) /\
      mat_get Ddk i j = mat_get ddk ((i + 18) mod 86) ((j + 18) mod 86).
Proof.
  intros Hc Hd. split; [exact permHCP_perm|]. exact (hcp_reorder cdk ddk Hc Hd).
Qed.

Lemma get_HCP_connectome_shift_witness :
  square 86 (zeros 86) /\ square 86 (zeros 86) /\
  Permutation permHCP (arange 0 86) /\
  exists Cdk Ddk, get_HCP_connectome (zeros 86) (zeros 86) = Some (Cdk, Ddk, permHCP) /\
    square 86 Cdk /\ square 86 Ddk /\
    forall i j, (i < 86)%nat -> (j < 86)%nat ->
      mat_get Cdk i j = mat_get (zeros 86) ((i + 18) mod 86) ((j + 18) mod 86) /\
      mat_get Ddk i j = mat_get (zeros 86) ((i + 18) mod 86) ((j + 18) mod 86).
Proof.
  split; [apply zeros_square|]. split; [apply zeros_square|].
  apply (get_HCP_connectome_shift (zeros 86) (zeros 86)); apply zeros_square.
Defined.

(** Reordering by [permHCP] keeps symmetry: symmetric 86 x 86 input arrays give
    symmetric connectivity and distance matrices. *)
Theorem get_HCP_connectome_symmetric cdk ddk :
  square 86 cdk -> square 86 ddk -> symmetric 86 cdk -> symmetric 86 ddk ->
  exists Cdk Ddk, get_HCP_connectome cdk ddk = Some (Cdk, Ddk, permHCP) /\
    symmetric 86 Cdk /\ symmetric 86 Ddk.
Proof.
  intros Hc Hd Sc Sd.
  destruct (hcp_reorder cdk ddk Hc Hd) as [Cdk [Ddk [E [_ [_ G]]]]].
  exists Cdk, Ddk. split; [exact E|]. split.
  - intros i j Hi Hj. rewrite (proj1 (G i j Hi Hj)), (proj1 (G j i Hj Hi)).
    apply Sc; apply Nat.mod_upper_bound; lia.
  - intros i j Hi Hj. rewrite (proj2 (G i j Hi Hj)), (proj2 (G j i Hj Hi)).
    apply Sd; apply Nat.mod_upper_bound; lia.
Qed.

Lemma get_HCP_connectome_symmetric_witness :
  square 86 (zeros 86) /\ symmetric 86 (zeros 86) /\
  exists Cdk Ddk, get_HCP_connectome (zeros 86) (zeros 86) = Some (Cdk, Ddk, permHCP) /\
    symmetric 86 Cdk /\ symmetric 86 Ddk.
Proof.
  split; [apply zeros_square|]. split; [apply zeros_symmetric|].
  apply (get_HCP_connectome_symmetric (zeros 86) (zeros 86));
    first [apply zeros_square | apply zeros_symmetric].
Defined.

(** If either array read from the files has fewer than 86 rows, the fancy
    indexing by [permHCP] raises IndexError: [get_HCP_connectome] fails. *)
Theorem get_HCP_connectome_short cdk ddk :
  (length cdk < 86)%nat \/ (length ddk < 86)%nat -> get_HCP_connectome cdk ddk = None.
Proof.
  intro H. unfold get_HCP_connectome. destruct H as [H|H].
  - rewrite (take_rows_short cdk H). reflexivity.
  - rewrite (take_rows_short ddk H).
    destruct (take_rows cdk permHCP); [|reflexivity]. simpl.
    destruct (take_cols _ permHCP); reflexivity.
Qed.

Lemma get_HCP_connectome_short_witness :
  ((length (@nil (list R)) < 86)%nat \/ (length (zeros 86) < 86)%nat) /\
  get_HCP_connectome [] (zeros 86) = None.
Proof.
  split; [left; simpl; lia|]. apply get_HCP_connectome_short. left; simpl; lia.
Defined.

(** [get_MEG_data] succeeds exactly when every label of [ordering] is a valid
    (possibly negative) row index of both arrays read from the files; then row k
    of each result is the row of that array indexed by [ordering[k]]. *)
Theorem get_MEG_data_rows tc cm ordering :
  (get_MEG_data tc cm ordering <> None <->
     forall n, In n ordering ->
       norm_index (length tc) n <> None /\ norm_index (length cm) n <> None) /\
  forall MEGdata coords, get_MEG_data tc cm ordering = Some (MEGdata, coords) ->
    length MEGdata = length ordering /\ length coords = length ordering /\
    forall k n, nth_error ordering k = Some n ->
      nth_error MEGdata k = py_get tc n /\ nth_error coords k = py_get cm n.
Proof.
  unfold get_MEG_data, take_rows. split.
  - split.
    + intros H n Hn. split.
      * apply (py_get_none_iff tc n). intro Hp. apply H.
        rewrite (traverse_none _ _ n Hn Hp). reflexivity.
      * apply (py_get_none_iff cm n). intro Hp. apply H.
        destruct (traverse (py_get tc) ordering); [|reflexivity]. simpl.
        rewrite (traverse_none _ _ n Hn Hp). reflexivity.
    + intro H.
      destruct (traverse_some (py_get tc) ordering) as [l1 E1].
      { intros n Hn. apply py_get_none_iff. exact (proj1 (H n Hn)). }
      destruct (traverse_some (py_get cm) ordering) as [l2 E2].
      { intros n Hn. apply py_get_none_iff. exact (proj2 (H n Hn)). }
      rewrite E1, E2. discriminate.
  - intros MD cs H.
    destruct (traverse (py_get tc) ordering) as [l1|] eqn:E1; [|discriminate]. simpl in H.
    destruct (traverse (py_get cm) ordering) as [l2|] eqn:E2; [|discriminate].
    injection H as <- <-.
    split; [exact (traverse_length _ _ _ E1)|]. split; [exact (traverse_length _ _ _ E2)|].
    intros k n Hk. split; [exact (traverse_nth _ _ _ _ _ E1 Hk)|exact (traverse_nth _ _ _ _ _ E2 Hk)].
Qed.

(** Composed with the [cortJulia] ordering of [get_Julia_order], [get_MEG_data]
    on arrays of 68 rows always succeeds, and each result is a reordering
    (permutation) of the rows of the array read from the file. *)
Theorem get_MEG_data_cortJulia tc cm :
  length tc = 68%nat -> length cm = 68%nat ->
  exists MEGdata coords,
    get_MEG_data tc cm (snd get_Julia_order) = Some (MEGdata, coords) /\
    Permutation MEGdata tc /\ Permutation coords cm.
Proof.
  intros Ht Hc.
  destruct (take_rows_perm tc (snd get_Julia_order) []) as [MD [E1 P1]].
  { rewrite Ht. exact cortJulia_arange. }
  destruct (take_rows_perm cm (snd get_Julia_order) []) as [cs [E2 P2]].
  { rewrite Hc. exact cortJulia_arange. }
  exists MD, cs. unfold get_MEG_data. rewrite E1, E2. auto.
Qed.

Lemma get_MEG_data_cortJulia_witness :
  length (zeros 68) = 68%nat /\ length (repeat [0; 0; 0] 68) = 68%nat /\
  exists MEGdata coords,
    get_MEG_data (zeros 68) (repeat [0; 0; 0] 68) (snd get_Julia_order) = Some (MEGdata, coords) /\
    Permutation MEGdata (zeros 68) /\ Permutation coords (repeat [0; 0; 0] 68).
Proof.
  split; [reflexivity|]. split; [reflexivity|].
  apply get_MEG_data_cortJulia; reflexivity.
Defined.

Lemma nth_list_set_eq {A : Type} (l : list A) i x d :
  (i < length l)%nat -> nth i (list_set l i x) d = x.
Proof.
  revert i; induction l as [|y t IH]; intros [|i] Hi; simpl in *; try lia; auto.
  apply IH. lia.
Qed.

Lemma nth_list_set_neq {A : Type} (l : list A) i k x d :
  k <> i -> nth k (list_set l i x) d = nth k l d.
Proof.
  revert i k; induction l as [|y t IH]; intros [|i] [|k] Hk; simpl; auto; try lia.
Qed.

Lemma list_set_oob {A : Type} (l : list A) i x :
  (length l <= i)%nat -> list_set l i x = l.
Proof.
  revert i; induction l as [|y t IH]; intros [|i] Hi; simpl in *; auto; try lia.
  rewrite IH by lia. reflexivity.
Qed.

Lemma map_list_set {A B : Type} (f : A -> B) l i x :
  map f (list_set l i x) = list_set (map f l) i (f x).
Proof. revert i; induction l as [|y t IH]; intros [|i]; simpl; f_equal; auto. Qed.

Lemma list_set_nth_same {A : Type} (l : list A) i d : list_set l i (nth i l d) = l.
Proof. revert i; induction l as [|y t IH]; intros [|i]; simpl; f_equal; auto. Qed.

Lemma set_entry_shape M i j x :
  map (@length R) (set_entry M i j x) = map (@length R) M.
Proof.
  unfold set_entry. rewrite map_list_set, length_list_set.
  rewrite <- (map_nth (@length R) M [] i). apply list_set_nth_same.
Qed.

Lemma set_entry_eq M i j x :
  (i < length M)%nat -> (j < length (nth i M []))%nat -> mat_get (set_entry M i j x) i j = x.
Proof.
  intros Hi Hj. unfold mat_get, set_entry.
  rewrite nth_list_set_eq by exact Hi. apply nth_list_set_eq. exact Hj.
Qed.

Lemma set_entry_neq M i j x i' j' :
  i' <> i \/ j' <> j -> mat_get (set_entry M i j x) i' j' = mat_get M i' j'.
Proof.
  intro H. unfold mat_get, set_entry.
  destruct (Nat.eq_dec i' i) as [->|Hi].
  - destruct H as [H|H]; [congruence|].
    destruct (Nat.lt_ge_cases i (length M)) as [Hl|Hl].
    + rewrite nth_list_set_eq by exact Hl. apply nth_list_set_neq. exact H.
    + rewrite list_set_oob by exact Hl. reflexivity.
  - rewrite nth_list_set_neq by exact Hi. reflexivity.
Qed.

Lemma shape_length (M M' : mat) : map (@length R) M' = map (@length R) M -> length M' = length M.
Proof. intro H. rewrite <- (length_map (@length R) M'), H. apply length_map. Qed.

Lemma shape_row (M M' : mat) i :
  map (@length R) M' = map (@length R) M -> length (nth i M' []) = length (nth i M []).
Proof.
  intro H. rewrite <- !(map_nth (@length R) _ [] i). rewrite H. reflexivity.
Qed.

Lemma shape_square (M M' : mat) n :
  map (@length R) M' = map (@length R) M -> square n M -> square n M'.
Proof.
  intros H [HM HF]. split; [rewrite (shape_length M M' H); exact HM|].
  apply Forall_map with (f := @length R) (P := fun k => k = n). rewrite H.
  apply Forall_map. exact HF.
Qed.

Lemma assign_row_shape M i cols qrow :
  map (@length R) (assign_row M i cols qrow) = map (@length R) M.
Proof.
  revert M qrow; induction cols as [|j cs IH]; intros M [|x xs]; simpl; auto.
  rewrite IH. apply set_entry_shape.
Qed.

Lemma assign_block_shape M rows cols Q :
  map (@length R) (assign_block M rows cols Q) = map (@length R) M.
Proof.
  revert M Q; induction rows as [|i rs IH]; intros M [|q Qs]; simpl; auto.
  rewrite IH. apply assign_row_shape.
Qed.

Lemma assign_row_out M i cols qrow i' j' :
  i' <> i \/ ~ In j' cols -> mat_get (assign_row M i cols qrow) i' j' = mat_get M i' j'.
Proof.
  revert M qrow; induction cols as [|j cs IH]; intros M [|x xs] H; simpl; auto.
  rewrite IH by (destruct H as [H|H]; [left|right]; simpl in H; tauto).
  apply set_entry_neq. destruct H as [H|H]; [left; exact H|right; simpl in H; intro; subst; tauto].
Qed.

Lemma assign_row_in M i cols qrow b :
  NoDup cols -> (b < length cols)%nat -> (b < length qrow)%nat -> (i < length M)%nat ->
  (forall c, In c cols -> (c < length (nth i M []))%nat) ->
  mat_get (assign_row M i cols qrow) i (nth b cols O) = nth b qrow 0.
Proof.
  revert M qrow b; induction cols as [|j cs IH]; intros M [|x xs] b Hnd Hb Hq Hi Hc;
    simpl in Hb, Hq; try lia. inversion Hnd as [|? ? Hj Hnd']; subst.
  simpl. destruct b as [|b].
  - rewrite assign_row_out by (right; exact Hj). apply set_entry_eq; [exact Hi|].
    apply Hc. now left.
  - apply IH; try lia; [exact Hnd'| |].
    + rewrite (shape_length M); [exact Hi|apply set_entry_shape].
    + intros c Hc'. rewrite (shape_row M); [|apply set_entry_shape]. apply Hc. now right.
Qed.

Lemma assign_block_out M rows cols Q i' j' :
  ~ In i' rows \/ ~ In j' cols -> mat_get (assign_block M rows cols Q) i' j' = mat_get M i' j'.
Proof.
  revert M Q; induction rows as [|i rs IH]; intros M [|q Qs] H; simpl; auto.
  rewrite IH by (destruct H as [H|H]; [left|right]; simpl in H; tauto).
  apply assign_row_out. destruct H as [H|H]; [left; simpl in H; intro; subst; tauto|right; exact H].
Qed.

Lemma assign_block_in M rows cols Q a b n :
  square n M -> NoDup rows -> NoDup cols ->
  (forall k, In k rows -> (k < n)%nat) -> (forall k, In k cols -> (k < n)%nat) ->
  (a < length rows)%nat -> (a < length Q)%nat ->
  (b < length cols)%nat -> (b < length (nth a Q []))%nat ->
  mat_get (assign_block M rows cols Q) (nth a rows O) (nth b cols O) = nth b (nth a Q []) 0.
Proof.
  revert M Q a; induction rows as [|i rs IH]; intros M [|q Qs] a HM Hnd Hndc Hr Hc Ha HQ Hb HQb;
    simpl in Ha, HQ; try lia. inversion Hnd as [|? ? Hi Hnd']; subst.
  simpl. destruct a as [|a].
  - rewrite assign_block_out by (left; exact Hi). simpl in HQb.
    destruct HM as [HM HF].
    apply assign_row_in; try assumption.
    + rewrite HM. apply Hr. now left.
    + intros c Hc'. rewrite Forall_forall in HF. rewrite HF; [apply Hc; exact Hc'|].
      apply nth_In. rewrite HM. apply Hr. now left.
  - apply IH; try assumption; try lia.
    + eapply shape_square; [apply assign_row_shape|exact HM].
    + intros k Hk. apply Hr. now right.
Qed.

Lemma in_nat_range (l : list nat) n k :
  (forall x, In x l -> (x < n)%nat) -> In k (map Z.of_nat l) -> (0 <= k < Z.of_nat n)%Z.
Proof. intros H Hk. apply in_map_iff in Hk as [x [<- Hx]]. pose proof (H x Hx). lia. Qed.

Lemma traverse_norm_index_nat len (l : list nat) :
  (forall x, In x l -> (x < len)%nat) -> traverse (norm_index len) (map Z.of_nat l) = Some l.
Proof.
  induction l as [|x t IH]; intro H; [reflexivity|]. simpl.
  rewrite norm_index_of_nat by (apply H; now left).
  rewrite IH by (intros y Hy; apply H; now right). reflexivity.
Qed.

Lemma ncols_square n (M : mat) : square n M -> ncols M = n.
Proof.
  intros [HM HF]. destruct M as [|r M]; simpl in *; [exact HM|].
  inversion HF; assumption.
Qed.

Lemma rowsel_rows n (M : mat) (l : list nat) :
  square n M -> (forall x, In x l -> (x < n)%nat) ->
  Forall (fun row => length row = n) (map (fun k => nth (Z.to_nat k) M []) (map Z.of_nat l)).
Proof.
  intros [HM HF] Hl. apply Forall_forall. intros row Hrow.
  apply in_map_iff in Hrow as [k [<- Hk]]. rewrite Forall_forall in HF. apply HF.
  apply nth_In. pose proof (in_nat_range l n k Hl Hk). lia.
Qed.

Lemma sub_get (M : mat) (rs cs : list nat) a b :
  (a < length rs)%nat -> (b < length cs)%nat ->
  nth b (nth a (map (fun row => map (fun k => nth (Z.to_nat k) row 0) (map Z.of_nat cs))
                  (map (fun k => nth (Z.to_nat k) M []) (map Z.of_nat rs))) []) 0
  = mat_get M (nth a rs O) (nth b cs O).
Proof.
  intros Ha Hb. unfold mat_get.
  rewrite (nth_map_lt _ (map (fun k => nth (Z.to_nat k) M []) (map Z.of_nat rs)) a [] [])
    by (rewrite !length_map; exact Ha).
  rewrite (nth_map_lt _ (map Z.of_nat rs) a [] 0%Z) by (rewrite length_map; exact Ha).
  rewrite (nth_map_lt _ (map Z.of_nat cs) b 0 0%Z) by (rewrite length_map; exact Hb).
  rewrite (nth_map_lt _ rs a 0%Z O) by exact Ha.
  rewrite (nth_map_lt _ cs b 0%Z O) by exact Hb. rewrite !Nat2Z.id. reflexivity.
Qed.

Lemma sub_shape (M : mat) (rs cs : list nat) :
  length (map (fun row => map (fun k => nth (Z.to_nat k) row 0) (map Z.of_nat cs))
            (map (fun k => nth (Z.to_nat k) M []) (map Z.of_nat rs))) = length rs /\
  forall a, length (nth a (map (fun row => map (fun k => nth (Z.to_nat k) row 0) (map Z.of_nat cs))
            (map (fun k => nth (Z.to_nat k) M []) (map Z.of_nat rs))) []) =
            (if Nat.ltb a (length rs) then length cs else O).
Proof.
  split; [rewrite !length_map; reflexivity|]. intro a.
  destruct (Nat.ltb_spec a (length rs)) as [Ha|Ha].
  - rewrite (nth_map_lt _ (map (fun k => nth (Z.to_nat k) M []) (map Z.of_nat rs)) a [] [])
      by (rewrite !length_map; exact Ha). rewrite !length_map. reflexivity.
  - rewrite nth_overflow; [reflexivity|]. rewrite !length_map. lia.
Qed.

Lemma maxblock_get (A B : mat) m a b :
  length A = m -> length B = m ->
  (forall a, (a < m)%nat -> length (nth a A []) = m /\ length (nth a B []) = m) ->
  (a < m)%nat -> (b < m)%nat ->
  length (map2 (map2 Rmax) A B) = m /\ length (nth a (map2 (map2 Rmax) A B) []) = m /\
  nth b (nth a (map2 (map2 Rmax) A B) []) 0 = Rmax (nth b (nth a A []) 0) (nth b (nth a B []) 0).
Proof.
  intros HA HB Hrow Ha Hb. destruct (Hrow a Ha) as [H1 H2].
  rewrite (nth_map2 _ _ _ _ [] []) by lia.
  split; [rewrite length_map2; lia|]. split; [rewrite length_map2; lia|].
  apply nth_map2; lia.
Qed.

Lemma NoDup_app_disj {A : Type} (l l' : list A) x :
  NoDup (l ++ l') -> In x l -> ~ In x l'.
Proof.
  induction l as [|y t IH]; intros Hnd Hx; [destruct Hx|]. simpl in Hnd.
  inversion Hnd as [|? ? Hy Hnd']; subst. destruct Hx as [->|Hx].
  - intro H. apply Hy. apply in_or_app. now right.
  - exact (IH Hnd' Hx).
Qed.

Ltac block_out := first [left; assumption | right; assumption].

Lemma bisym_spec C n ln rn :
  square n C -> (forall k, In k (ln ++ rn) -> (k < n)%nat) -> NoDup (ln ++ rn) ->
  length ln = length rn ->
  exists C', bi_symmetric_c C (map Z.of_nat ln) (map Z.of_nat rn) = Some C' /\ square n C' /\
    (forall a b, (a < length ln)%nat -> (b < length ln)%nat ->
      mat_get C' (nth a ln O) (nth b ln O)
        = Rmax (mat_get C (nth a ln O) (nth b ln O)) (mat_get C (nth a rn O) (nth b rn O)) /\
      mat_get C' (nth a rn O) (nth b rn O)
        = Rmax (mat_get C (nth a ln O) (nth b ln O)) (mat_get C (nth a rn O) (nth b rn O)) /\
      mat_get C' (nth a ln O) (nth b rn O)
        = Rmax (mat_get C (nth a ln O) (nth b rn O)) (mat_get C (nth a rn O) (nth b ln O)) /\
      mat_get C' (nth a rn O) (nth b ln O)
        = Rmax (mat_get C (nth a ln O) (nth b rn O)) (mat_get C (nth a rn O) (nth b ln O))) /\
    (forall i j, ~ In i (ln ++ rn) \/ ~ In j (ln ++ rn) -> mat_get C' i j = mat_get C i j).
Proof.
  intros HC Hr Hnd Hlen.
  assert (HL : forall k, In k ln -> (k < n)%nat) by (intros k Hk; apply Hr, in_or_app; now left).
  assert (HR : forall k, In k rn -> (k < n)%nat) by (intros k Hk; apply Hr, in_or_app; now right).
  assert (HndL : NoDup ln) by exact (NoDup_app_remove_r _ _ Hnd).
  assert (HndR : NoDup rn) by exact (NoDup_app_remove_l _ _ Hnd).
  pose proof HC as [HCl HCF].
  unfold bi_symmetric_c.
  rewrite (take_rows_in C (map Z.of_nat ln) []) by (rewrite HCl; intros k Hk; exact (in_nat_range ln n k HL Hk)).
  rewrite (take_rows_in C (map Z.of_nat rn) []) by (rewrite HCl; intros k Hk; exact (in_nat_range rn n k HR Hk)).
  cbv beta iota.
  rewrite (take_cols_in _ (map Z.of_nat ln) n (rowsel_rows n C ln HC HL))
    by (intros k Hk; exact (in_nat_range ln n k HL Hk)).
  rewrite (take_cols_in _ (map Z.of_nat rn) n (rowsel_rows n C rn HC HR))
    by (intros k Hk; exact (in_nat_range rn n k HR Hk)).
  rewrite (take_cols_in _ (map Z.of_nat rn) n (rowsel_rows n C ln HC HL))
    by (intros k Hk; exact (in_nat_range rn n k HR Hk)).
  rewrite (take_cols_in _ (map Z.of_nat ln) n (rowsel_rows n C rn HC HR))
    by (intros k Hk; exact (in_nat_range ln n k HL Hk)).
  cbv beta iota.
  replace (Nat.eqb (length (map Z.of_nat ln)) (length (map Z.of_nat rn))) with true
    by (rewrite !length_map, Hlen; symmetry; apply Nat.eqb_refl).
  cbn [negb].
  rewrite (traverse_norm_index_nat (length C) ln) by (rewrite HCl; exact HL).
  rewrite (traverse_norm_index_nat (length C) rn) by (rewrite HCl; exact HR).
  rewrite (ncols_square n C HC).
  rewrite (traverse_norm_index_nat n ln HL), (traverse_norm_index_nat n rn HR).
  cbv beta iota zeta.
  set (sub := fun rs cs : list nat =>
    map (fun row => map (fun k => nth (Z.to_nat k) row 0) (map Z.of_nat cs))
      (map (fun k => nth (Z.to_nat k) C []) (map Z.of_nat rs))).
  change (map (fun row => map (fun k => nth (Z.to_nat k) row 0) (map Z.of_nat ?cs))
      (map (fun k => nth (Z.to_nat k) C []) (map Z.of_nat ?rs))) with (sub rs cs).
  set (q := map2 (map2 Rmax) (sub ln ln) (sub rn rn)).
  set (q1 := map2 (map2 Rmax) (sub ln rn) (sub rn ln)).
  set (C1 := assign_block C ln ln q).
  set (C2 := assign_block C1 rn rn q).
  set (C3 := assign_block C2 ln rn q1).
  assert (S1 : square n C1) by (eapply shape_square; [apply assign_block_shape|exact HC]).
  assert (S2 : square n C2) by (eapply shape_square; [apply assign_block_shape|exact S1]).
  assert (S3 : square n C3) by (eapply shape_square; [apply assign_block_shape|exact S2]).
  exists (assign_block C3 rn ln q1). split; [reflexivity|].
  split; [eapply shape_square; [apply assign_block_shape|exact S3]|]. split.
  - intros a b Ha Hb. assert (Ha' : (a < length rn)%nat) by lia.
    assert (Hb' : (b < length rn)%nat) by lia.
    assert (Hsub : forall rs cs, length rs = length ln -> length cs = length ln ->
      length (sub rs cs) = length ln /\
      forall a, (a < length ln)%nat -> length (nth a (sub rs cs) []) = length ln).
    { intros rs cs E1 E2. unfold sub. destruct (sub_shape C rs cs) as [S T].
      split; [rewrite S; exact E1|]. intros a' Ha''. rewrite T. rewrite <- E1 in Ha''.
      apply Nat.ltb_lt in Ha''. rewrite Ha''. exact E2. }
    assert (Hq : forall rs cs rs' cs', length rs = length ln -> length cs = length ln ->
      length rs' = length ln -> length cs' = length ln ->
      length (map2 (map2 Rmax) (sub rs cs) (sub rs' cs')) = length ln /\
      length (nth a (map2 (map2 Rmax) (sub rs cs) (sub rs' cs')) []) = length ln /\
      nth b (nth a (map2 (map2 Rmax) (sub rs cs) (sub rs' cs')) []) 0
        = Rmax (mat_get C (nth a rs O) (nth b cs O)) (mat_get C (nth a rs' O) (nth b cs' O))).
    { intros rs cs rs' cs' E1 E2 E3 E4.
      destruct (Hsub rs cs E1 E2) as [L1 R1]. destruct (Hsub rs' cs' E3 E4) as [L2 R2].
      destruct (maxblock_get (sub rs cs) (sub rs' cs') (length ln) a b L1 L2
                  (fun a' H => conj (R1 a' H) (R2 a' H)) Ha Hb) as [M1 [M2 M3]].
      split; [exact M1|]. split; [exact M2|]. rewrite M3. unfold sub.
      rewrite !sub_get by lia. reflexivity. }
    assert (la_in : In (nth a ln O) ln) by (apply nth_In; exact Ha).
    assert (lb_in : In (nth b ln O) ln) by (apply nth_In; exact Hb).
    assert (ra_in : In (nth a rn O) rn) by (apply nth_In; exact Ha').
    assert (rb_in : In (nth b rn O) rn) by (apply nth_In; exact Hb').
    assert (la_out : ~ In (nth a ln O) rn) by exact (NoDup_app_disj _ _ _ Hnd la_in).
    assert (lb_out : ~ In (nth b ln O) rn) by exact (NoDup_app_disj _ _ _ Hnd lb_in).
    assert (ra_out : ~ In (nth a rn O) ln)
      by (intro H; exact (NoDup_app_disj _ _ _ Hnd H ra_in)).
    assert (rb_out : ~ In (nth b rn O) ln)
      by (intro H; exact (NoDup_app_disj _ _ _ Hnd H rb_in)).
    destruct (Hq ln ln rn rn eq_refl eq_refl (eq_sym Hlen) (eq_sym Hlen)) as [Q1 [Q2 Q3]].
    destruct (Hq ln rn rn ln eq_refl (eq_sym Hlen) (eq_sym Hlen) eq_refl) as [P1 [P2 P3]].
    fold q in Q1, Q2, Q3. fold q1 in P1, P2, P3.
    split; [|split; [|split]].
    + rewrite assign_block_out by block_out. unfold C3. rewrite assign_block_out by block_out.
      unfold C2. rewrite assign_block_out by block_out. unfold C1.
      rewrite (assign_block_in C ln ln q a b n); try assumption; lia.
    + rewrite assign_block_out by block_out. unfold C3. rewrite assign_block_out by block_out.
      unfold C2. rewrite (assign_block_in C1 rn rn q a b n); try assumption; lia.
    + rewrite assign_block_out by block_out. unfold C3.
      rewrite (assign_block_in C2 ln rn q1 a b n); try assumption; lia.
    + rewrite (assign_block_in C3 rn ln q1 a b n); try assumption; lia.
  - intros i j H.
    assert (H' : (~ In i ln /\ ~ In i rn) \/ (~ In j ln /\ ~ In j rn)).
    { destruct H as [H|H]; [left|right]; split; intro H1; apply H, in_or_app; tauto. }
    unfold C3, C2, C1.
    destruct H' as [[H1 H2]|[H1 H2]]; rewrite !assign_block_out by block_out; reflexivity.
Qed.

Lemma mat_ext n (A B : mat) :
  square n A -> square n B ->
  (forall i j, (i < n)%nat -> (j < n)%nat -> mat_get A i j = mat_get B i j) -> A = B.
Proof.
  intros [HA FA] [HB FB] H. apply (nth_ext _ _ [] []); [congruence|].
  intros i Hi. rewrite HA in Hi. rewrite Forall_forall in FA, FB.
  assert (LA : length (nth i A []) = n) by (apply FA, nth_In; lia).
  assert (LB : length (nth i B []) = n) by (apply FB, nth_In; lia).
  apply (nth_ext _ _ 0 0); [congruence|]. intros j Hj. apply H; lia.
Qed.

Lemma in_blocks (ln rn : list nat) i :
  length ln = length rn -> In i (ln ++ rn) ->
  exists a, (a < length ln)%nat /\ (i = nth a ln O \/ i = nth a rn O).
Proof.
  intros Hlen Hi. apply in_app_or in Hi as [Hi|Hi].
  - apply (In_nth _ _ O) in Hi as [a [Ha <-]]. exists a. auto.
  - apply (In_nth _ _ O) in Hi as [a [Ha <-]]. exists a. split; [lia|auto].
Qed.

Lemma bi_symmetric_c_none_len C linds rinds :
  length linds <> length rinds -> bi_symmetric_c C linds rinds = None.
Proof.
  intro H. unfold bi_symmetric_c.
  destruct (take_rows C linds); [|reflexivity]. destruct (take_rows C rinds); [|reflexivity].
  destruct (take_cols _ linds); [|reflexivity]. destruct (take_cols _ rinds); [|reflexivity].
  destruct (take_cols _ rinds); [|reflexivity]. destruct (take_cols _ linds); [|reflexivity].
  apply Nat.eqb_neq in H. rewrite H. reflexivity.
Qed.

Lemma bi_symmetric_c_none_row C linds rinds k :
  In k (linds ++ rinds) -> norm_index (length C) k = None -> bi_symmetric_c C linds rinds = None.
Proof.
  intros Hk Hn. unfold bi_symmetric_c, take_rows.
  assert (Hp : py_get C k = None) by (unfold py_get; rewrite Hn; reflexivity).
  apply in_app_or in Hk as [Hk|Hk].
  - rewrite (traverse_none _ _ _ Hk Hp). reflexivity.
  - destruct (traverse (py_get C) linds); [|reflexivity]. cbv beta iota.
    rewrite (traverse_none _ _ _ Hk Hp). reflexivity.
Qed.

Ltac bisym_hyps :=
  unfold lr_left, lr_right;
  match goal with
  | |- square _ _ => split; [reflexivity|repeat constructor]
  | |- forall k, In k _ -> _ => intros k Hk; simpl in Hk; intuition lia
  | |- NoDup _ => repeat (constructor; [simpl; intuition discriminate|]); constructor
  | |- symmetric _ _ => intros i j Hi Hj;
      destruct i as [|[|[|[|i]]]]; destruct j as [|[|[|[|j]]]]; try lia; reflexivity
  | |- length _ = length _ => reflexivity
  end.

(** [bi_symmetric_c] with equally long, disjoint label lists [linds] and
    [rinds] of an [n x n] connectome returns an [n x n] matrix in which, for
    the a-th and b-th labels, both entries (l_a, l_b) and (r_a, r_b) are the
    maximum of the two original ones, both (l_a, r_b) and (r_a, l_b) are the
    maximum of the original (l_a, r_b) and (r_a, l_b), and every entry whose
    row or column is not a label is unchanged. *)
Theorem bi_symmetric_c_blocks C n ln rn :
  square n C -> (forall k, In k (ln ++ rn) -> (k < n)%nat) -> NoDup (ln ++ rn) ->
  length ln = length rn ->
  exists C', bi_symmetric_c C (map Z.of_nat ln) (map Z.of_nat rn) = Some C' /\ square n C' /\
    (forall a b, (a < length ln)%nat -> (b < length ln)%nat ->
      mat_get C' (nth a ln O) (nth b ln O)
        = Rmax (mat_get C (nth a ln O) (nth b ln O)) (mat_get C (nth a rn O) (nth b rn O)) /\
      mat_get C' (nth a rn O) (nth b rn O)
        = Rmax (mat_get C (nth a ln O) (nth b ln O)) (mat_get C (nth a rn O) (nth b rn O)) /\
      mat_get C' (nth a ln O) (nth b rn O)
        = Rmax (mat_get C (nth a ln O) (nth b rn O)) (mat_get C (nth a rn O) (nth b ln O)) /\
      mat_get C' (nth a rn O) (nth b ln O)
        = Rmax (mat_get C (nth a ln O) (nth b rn O)) (mat_get C (nth a rn O) (nth b ln O))) /\
    (forall i j, ~ In i (ln ++ rn) \/ ~ In j (ln ++ rn) -> mat_get C' i j = mat_get C i j).
Proof. exact (bisym_spec C n ln rn). Qed.

Lemma bi_symmetric_c_blocks_witness :
  square 4 conn_lr /\ (forall k, In k (lr_left ++ lr_right) -> (k < 4)%nat) /\
  NoDup (lr_left ++ lr_right) /\ length lr_left = length lr_right /\
  exists C', bi_symmetric_c conn_lr (map Z.of_nat lr_left) (map Z.of_nat lr_right) = Some C' /\
    square 4 C' /\
    (forall a b, (a < length lr_left)%nat -> (b < length lr_left)%nat ->
      mat_get C' (nth a lr_left O) (nth b lr_left O)
        = Rmax (mat_get conn_lr (nth a lr_left O) (nth b lr_left O))
               (mat_get conn_lr (nth a lr_right O) (nth b lr_right O)) /\
      mat_get C' (nth a lr_right O) (nth b lr_right O)
        = Rmax (mat_get conn_lr (nth a lr_left O) (nth b lr_left O))
               (mat_get conn_lr (nth a lr_right O) (nth b lr_right O)) /\
      mat_get C' (nth a lr_left O) (nth b lr_right O)
        = Rmax (mat_get conn_lr (nth a lr_left O) (nth b lr_right O))
               (mat_get conn_lr (nth a lr_right O) (nth b lr_left O)) /\
      mat_get C' (nth a lr_right O) (nth b lr_left O)
        = Rmax (mat_get conn_lr (nth a lr_left O) (nth b lr_right O))
               (mat_get conn_lr (nth a lr_right O) (nth b lr_left O))) /\
    (forall i j, ~ In i (lr_left ++ lr_right) \/ ~ In j (lr_left ++ lr_right) ->
       mat_get C' i j = mat_get conn_lr i j).
Proof.
  split; [bisym_hyps|]. split; [bisym_hyps|]. split; [bisym_hyps|]. split; [bisym_hyps|].
  apply bi_symmetric_c_blocks; bisym_hyps.
Defined.

(** [bi_symmetric_c] keeps a symmetric connectome symmetric. *)
Theorem bi_symmetric_c_symmetric C n ln rn :
  square n C -> symmetric n C -> (forall k, In k (ln ++ rn) -> (k < n)%nat) ->
  NoDup (ln ++ rn) -> length ln = length rn ->
  exists C', bi_symmetric_c C (map Z.of_nat ln) (map Z.of_nat rn) = Some C' /\ symmetric n C'.
Proof.
  intros HC HS Hr Hnd Hlen.
  destruct (bisym_spec C n ln rn HC Hr Hnd Hlen) as [C' [E [_ [Hin Hout]]]].
  exists C'. split; [exact E|]. intros i j Hi Hj.
  destruct (In_dec Nat.eq_dec i (ln ++ rn)) as [Ii|Ii];
    [|rewrite !Hout by auto; apply HS; assumption].
  destruct (In_dec Nat.eq_dec j (ln ++ rn)) as [Ij|Ij];
    [|rewrite !Hout by auto; apply HS; assumption].
  assert (Bl : forall c, (c < length ln)%nat -> (nth c ln O < n)%nat)
    by (intros c Hc; apply Hr, in_or_app; left; apply nth_In; exact Hc).
  assert (Br : forall c, (c < length ln)%nat -> (nth c rn O < n)%nat)
    by (intros c Hc; apply Hr, in_or_app; right; apply nth_In; lia).
  destruct (in_blocks ln rn i Hlen Ii) as [a [Ha [->| ->]]];
  destruct (in_blocks ln rn j Hlen Ij) as [b [Hb [->| ->]]];
  destruct (Hin a b Ha Hb) as [E1 [E2 [E3 E4]]];
  destruct (Hin b a Hb Ha) as [F1 [F2 [F3 F4]]].
  - rewrite E1, F1, (HS _ _ (Bl b Hb) (Bl a Ha)), (HS _ _ (Br b Hb) (Br a Ha)). reflexivity.
  - rewrite E3, F4, (HS _ _ (Bl b Hb) (Br a Ha)), (HS _ _ (Br b Hb) (Bl a Ha)).
    apply Rmax_comm.
  - rewrite E4, F3, (HS _ _ (Bl b Hb) (Br a Ha)), (HS _ _ (Br b Hb) (Bl a Ha)).
    apply Rmax_comm.
  - rewrite E2, F2, (HS _ _ (Bl b Hb) (Bl a Ha)), (HS _ _ (Br b Hb) (Br a Ha)). reflexivity.
Qed.

Lemma bi_symmetric_c_symmetric_witness :
  square 4 conn_lr /\ symmetric 4 conn_lr /\
  (forall k, In k (lr_left ++ lr_right) -> (k < 4)%nat) /\
  NoDup (lr_left ++ lr_right) /\ length lr_left = length lr_right /\
  exists C', bi_symmetric_c conn_lr (map Z.of_nat lr_left) (map Z.of_nat lr_right) = Some C' /\
    symmetric 4 C'.
Proof.
  split; [bisym_hyps|]. split; [bisym_hyps|]. split; [bisym_hyps|]. split; [bisym_hyps|].
  split; [bisym_hyps|]. apply bi_symmetric_c_symmetric; bisym_hyps.
Defined.

Lemma Rmax_same x : Rmax x x = x.
Proof. unfold Rmax. destruct (Rle_dec x x); reflexivity. Qed.

(** [bi_symmetric_c] is idempotent: applied again, with the same labels, to
    the matrix it returned, it returns that matrix unchanged. *)
Theorem bi_symmetric_c_idempotent C n ln rn :
  square n C -> (forall k, In k (ln ++ rn) -> (k < n)%nat) -> NoDup (ln ++ rn) ->
  length ln = length rn ->
  exists C', bi_symmetric_c C (map Z.of_nat ln) (map Z.of_nat rn) = Some C' /\
    bi_symmetric_c C' (map Z.of_nat ln) (map Z.of_nat rn) = Some C'.
Proof.
  intros HC Hr Hnd Hlen.
  destruct (bisym_spec C n ln rn HC Hr Hnd Hlen) as [C' [E [S' [Hin Hout]]]].
  destruct (bisym_spec C' n ln rn S' Hr Hnd Hlen) as [C'' [E' [S'' [Hin' Hout']]]].
  exists C'. split; [exact E|]. rewrite E'. f_equal.
  apply (mat_ext n C'' C' S'' S'). intros i j Hi Hj.
  destruct (In_dec Nat.eq_dec i (ln ++ rn)) as [Ii|Ii]; [|apply Hout'; auto].
  destruct (In_dec Nat.eq_dec j (ln ++ rn)) as [Ij|Ij]; [|apply Hout'; auto].
  destruct (in_blocks ln rn i Hlen Ii) as [a [Ha [->| ->]]];
  destruct (in_blocks ln rn j Hlen Ij) as [b [Hb [->| ->]]];
  destruct (Hin a b Ha Hb) as [E1 [E2 [E3 E4]]];
  destruct (Hin' a b Ha Hb) as [F1 [F2 [F3 F4]]].
  - rewrite F1, E1, E2. apply Rmax_same.
  - rewrite F3, E3, E4. apply Rmax_same.
  - rewrite F4, E3, E4. apply Rmax_same.
  - rewrite F2, E1, E2. apply Rmax_same.
Qed.

Lemma bi_symmetric_c_idempotent_witness :
  square 4 conn_lr /\ (forall k, In k (lr_left ++ lr_right) -> (k < 4)%nat) /\
  NoDup (lr_left ++ lr_right) /\ length lr_left = length lr_right /\
  exists C', bi_symmetric_c conn_lr (map Z.of_nat lr_left) (map Z.of_nat lr_right) = Some C' /\
    bi_symmetric_c C' (map Z.of_nat lr_left) (map Z.of_nat lr_right) = Some C'.
Proof.
  split; [bisym_hyps|]. split; [bisym_hyps|]. split; [bisym_hyps|]. split; [bisym_hyps|].
  apply (bi_symmetric_c_idempotent conn_lr 4); bisym_hyps.
Defined.

(** [bi_symmetric_c] raises (returns [None]) when [linds] and [rinds] differ
    in length, or when some label is not a valid row index of the matrix. *)
Theorem bi_symmetric_c_fails C linds rinds :
  length linds <> length rinds \/
  (exists k, In k (linds ++ rinds) /\ norm_index (length C) k = None) ->
  bi_symmetric_c C linds rinds = None.
Proof.
  intros [H|[k [Hk Hn]]].
  - exact (bi_symmetric_c_none_len C linds rinds H).
  - exact (bi_symmetric_c_none_row C linds rinds k Hk Hn).
Qed.

Lemma bi_symmetric_c_fails_witness :
  (length [0%Z] <> length (@nil Z) \/
   (exists k, In k ([0%Z] ++ []) /\ norm_index (length conn_lr) k = None)) /\
  bi_symmetric_c conn_lr [0%Z] [] = None.
Proof.
  split; [left; simpl; lia|]. apply bi_symmetric_c_fails. left; simpl; lia.
Defined.

Lemma filter_none {A : Type} (p : A -> bool) l :
  (forall x, In x l -> p x = false) -> filter p l = [].
Proof.
  induction l as [|x t IH]; intro H; [reflexivity|]. simpl.
  rewrite H by (now left). apply IH. intros y Hy. apply H. now right.
Qed.

(** When the connectome has a positive entry, [reduce_extreme_dir] clips
    every entry at [thr = f * mean(positive entries)] and returns the clipped
    values as finite numbers; [max_dir] has no effect, since
    [max_dir * C + (1 - max_dir) * C = C]. *)
Theorem reduce_extreme_dir_clip C max_dir f :
  (exists x, In x (concat C) /\ 0 < x) ->
  reduce_extreme_dir C max_dir f =
  map (map (fun x => PyNum (Rmin x
         (f * mean (filter (fun y => if Rlt_dec 0 y then true else false) (concat C)))))) C.
Proof.
  intros [x [Hx Hpos]]. unfold reduce_extreme_dir.
  rewrite np_mean_num.
  2: { intro H. assert (Hin : In x (filter (fun y => if Rlt_dec 0 y then true else false) (concat C))).
       { apply filter_In. split; [exact Hx|]. destruct (Rlt_dec 0 x); [reflexivity|lra]. }
       rewrite H in Hin. destruct Hin. }
  assert (Hm : forall l, / INR (length l) * sum l = mean l) by (intro; unfold mean, Rdiv; ring).
  rewrite Hm.
  cbv zeta. rewrite map_map. apply map_ext. intro row. rewrite map_map. apply map_ext. intro y.
  cbn [fmulr np_minimum fadd]. f_equal. ring.
Qed.

Lemma reduce_extreme_dir_clip_witness :
  (exists x, In x (concat conn4) /\ 0 < x) /\
  reduce_extreme_dir conn4 0.95 7 =
  map (map (fun x => PyNum (Rmin x
         (7 * mean (filter (fun y => if Rlt_dec 0 y then true else false) (concat conn4)))))) conn4.
Proof.
  assert (H : exists x, In x (concat conn4) /\ 0 < x) by (exists 1; split; [simpl; tauto|lra]).
  split; [exact H|]. apply reduce_extreme_dir_clip. exact H.
Defined.

(** When no entry is positive, [Cdk_conn[Cdk_conn > 0]] is empty, its mean
    is [nan], and [reduce_extreme_dir] returns [nan] in every entry. *)
Theorem reduce_extreme_dir_nan C max_dir f :
  (forall x, In x (concat C) -> x <= 0) ->
  reduce_extreme_dir C max_dir f = map (map (fun _ => PyNaN)) C.
Proof.
  intro H. unfold reduce_extreme_dir.
  rewrite filter_none.
  2: { intros x Hx. pose proof (H x Hx). destruct (Rlt_dec 0 x); [lra|reflexivity]. }
  cbv zeta. rewrite map_map. apply map_ext. intro row. rewrite map_map. reflexivity.
Qed.

Lemma reduce_extreme_dir_nan_witness :
  (forall x, In x (concat (zeros 2)) -> x <= 0) /\
  reduce_extreme_dir (zeros 2) 0.95 7 = map (map (fun _ => PyNaN)) (zeros 2).
Proof.
  assert (H : forall x, In x (concat (zeros 2)) -> x <= 0)
    by (intros x Hx; simpl in Hx; intuition lra).
  split; [exact H|]. apply reduce_extreme_dir_nan. exact H.
Defined.

(** ** Gain in the dB conversion *)

Lemma mag2db_scale c y :
  0 < c -> mag2db (map (Rmult c) y) = map (fadd (PyNum (20 * (ln c / ln 10)))) (mag2db y).
Proof.
  intro Hc. unfold mag2db. rewrite !map_map. apply map_ext. intro x. unfold flog10.
  destruct (Rlt_dec 0 x) as [Hx|Hx].
  - destruct (Rlt_dec 0 (c * x)) as [Hcx|Hcx]; [|exfalso; apply Hcx, Rmult_lt_0_compat; assumption].
    cbn. rewrite ln_mult by assumption. f_equal. unfold Rdiv. ring.
  - destruct (Req_dec_T x 0) as [->|H0].
    + rewrite Rmult_0_r. destruct (Rlt_dec 0 0); [lra|]. destruct (Req_dec_T 0 0); [reflexivity|lra].
    + destruct (Rlt_dec 0 (c * x)) as [Hcx|Hcx].
      * exfalso. assert (x < 0) by lra. nra.
      * destruct (Req_dec_T (c * x) 0) as [E|E]; [|reflexivity].
        exfalso. apply Rmult_integral in E. lra.
Qed.

(** [mag2db] turns a gain into a shift: multiplying a spectrum by [c > 0]
    adds [20 * log10 c] dB to every value ([-inf] and [nan] stay as they are). *)
Theorem mag2db_gain c y :
  0 < c -> mag2db (map (Rmult c) y) = map (fadd (PyNum (20 * (ln c / ln 10)))) (mag2db y).
Proof. exact (mag2db_scale c y). Qed.

Lemma mag2db_gain_witness :
  0 < 10 /\
  mag2db (map (Rmult 10) [1; 0; -1]) = map (fadd (PyNum (20 * (ln 10 / ln 10)))) (mag2db [1; 0; -1]).
Proof. split; [lra|]. apply mag2db_gain. lra. Defined.


(** ** The network transfer function's regional response *)

Lemma Cadd_C0_l z : Cadd (Cof 0) z = z.
Proof. destruct z as [x y]. unfold Cadd, Cof. cbn. f_equal; ring. Qed.

Lemma Cadd_C0_r z : Cadd z C0 = z.
Proof. destruct z as [x y]. unfold Cadd, C0, Cof. cbn. f_equal; ring. Qed.

Lemma Cadd_assoc z u t : Cadd (Cadd z u) t = Cadd z (Cadd u t).
Proof. unfold Cadd. cbn. f_equal; ring. Qed.

Lemma column_spec (M : cmat) k c :
  column M k = Some c -> c = map (fun row => nth k row C0) M.
Proof.
  revert c; induction M as [|row M IH]; intros c H; cbn in H.
  - injection H as <-. reflexivity.
  - destruct (nth_error row k) as [z|] eqn:Ez; [|discriminate].
    destruct (column M k) as [c'|]; [|discriminate]. injection H as <-.
    cbn. f_equal; [|apply IH; reflexivity].
    symmetry. apply nth_error_nth. exact Ez.
Qed.

Lemma accum_modes_arr fr (V : cmat) ks a o :
  length a = length V -> accum_modes fr V ks (RArr a) = Some (RArr o) ->
  length o = length V /\
  forall i, (i < length V)%nat ->
    nth i o C0 = Cadd (nth i a C0)
      (Csum (map (fun k => Cmul (nth k fr C0) (nth k (nth i V []) C0)) ks)).
Proof.
  revert a; induction ks as [|k ks IH]; intros a Ha H; cbn in H.
  - injection H as <-. split; [exact Ha|]. intros i _. cbn. symmetry. apply Cadd_C0_r.
  - destruct (nth_error fr k) as [f|] eqn:Ef; [|discriminate].
    destruct (column V k) as [col|] eqn:Ec; [|discriminate].
    apply column_spec in Ec. subst col.
    assert (Hl : length (map2 Cadd a (map (Cmul f) (map (fun row => nth k row C0) V))) = length V)
      by (rewrite length_map2, !length_map; lia).
    destruct (IH _ Hl H) as [Ho Hn]. split; [exact Ho|]. intros i Hi.
    rewrite (Hn i Hi). rewrite (nth_map2 _ _ _ _ C0 C0) by (rewrite ?length_map; lia).
    rewrite (nth_map_lt _ _ _ _ C0) by (rewrite length_map; lia).
    rewrite (nth_map_lt _ _ _ _ []) by lia.
    cbn [map]. unfold Csum at 2. cbn [fold_right].
    rewrite (nth_error_nth fr k C0 Ef). apply Cadd_assoc.
Qed.

Lemma accum_modes_scalar fr (V : cmat) ks o :
  accum_modes fr V ks RScalar0 = Some (RArr o) ->
  length o = length V /\
  forall i, (i < length V)%nat ->
    nth i o C0 = Csum (map (fun k => Cmul (nth k fr C0) (nth k (nth i V []) C0)) ks).
Proof.
  destruct ks as [|k ks]; intro H; cbn in H; [discriminate|].
  destruct (nth_error fr k) as [f|] eqn:Ef; [|discriminate].
  destruct (column V k) as [col|] eqn:Ec; [|discriminate].
  apply column_spec in Ec. subst col.
  assert (Hl : length (map (Cadd (Cof 0)) (map (Cmul f) (map (fun row => nth k row C0) V)))
               = length V) by (rewrite !length_map; reflexivity).
  destruct (accum_modes_arr _ _ _ _ _ Hl H) as [Ho Hn]. split; [exact Ho|]. intros i Hi.
  rewrite (Hn i Hi).
  rewrite (nth_map_lt _ _ _ _ C0) by (rewrite !length_map; lia).
  rewrite (nth_map_lt _ _ _ _ C0) by (rewrite length_map; lia).
  rewrite (nth_map_lt _ _ _ _ []) by lia.
  rewrite Cadd_C0_l. cbn [map]. unfold Csum at 2. cbn [fold_right].
  rewrite (nth_error_nth fr k C0 Ef). reflexivity.
Qed.

(** [freqresp_out] is the sum over the kept modes [k = 1 .. K-1] of
    [freqresp[k] * Vv[:, k]]: region [i] receives
    [sum_{k=1}^{K-1} freqresp[k] * Vv[i][k]], and the first (lowest) mode
    [k = 0] never contributes. *)
Theorem ntf_freqresp_out eig C D w tau_e tau_i alpha speed gei gii tauC o :
  network_transfer_function eig C D w tau_e tau_i alpha speed gei gii tauC = Some o ->
  length (freqresp_out o) = length (Vv o) /\
  forall i, (i < length (Vv o))%nat ->
    nth i (freqresp_out o) C0
    = Csum (map (fun k => Cmul (nth k (freqresp o) C0) (nth k (nth i (Vv o) []) C0))
                (seq 1 (numsmalleigs (length C) - 1))).
Proof.
  unfold network_transfer_function, use_smalleigs. cbv zeta iota beta.
  destruct (eig (laplacian C D w speed)) as [d v].
  destruct (sorted_modes d v (numsmalleigs (length C))) as [ev0 V].
  destruct (freqresp_of _ _) as [fr|]; [|discriminate]. cbv iota beta.
  destruct (accum_modes fr V (seq 1 (numsmalleigs (length C) - 1)) RScalar0) as [[|a]|] eqn:E;
    try discriminate.
  intro H. injection H as <-. cbn [freqresp_out Vv freqresp].
  exact (accum_modes_scalar _ _ _ _ E).
Qed.

Lemma ntf_freqresp_out_witness :
  exists o,
    network_transfer_function eig_diag (zeros 4) (zeros 4) (2 * PI * 10)
      0.012 0.003 1 5 4 1 0.006 = Some o /\
    length (freqresp_out o) = length (Vv o) /\
    forall i, (i < length (Vv o))%nat ->
      nth i (freqresp_out o) C0
      = Csum (map (fun k => Cmul (nth k (freqresp o) C0) (nth k (nth i (Vv o) []) C0))
                  (seq 1 (numsmalleigs (length (zeros 4)) - 1))).
Proof.
  destruct (ntf_some eig_diag (zeros 4) (zeros 4) (2 * PI * 10) 0.012 0.003 1 5 4 1 0.006 4
              eq_refl ltac:(lia) eq_refl eq_refl) as [o [Ho _]].
  exists o. split; [exact Ho|].
  exact (ntf_freqresp_out eig_diag (zeros 4) (zeros 4) (2 * PI * 10)
           0.012 0.003 1 5 4 1 0.006 o Ho).
Defined.

(** ** Symmetry of the modelled functional connectivity *)

Lemma Cmul_C0_r z : Cmul z C0 = C0.
Proof. unfold Cmul, C0, Cof. cbn. f_equal; ring. Qed.

Lemma Cmul_C0_l z : Cmul C0 z = C0.
Proof. unfold Cmul, C0, Cof. cbn. f_equal; ring. Qed.

Lemma nth_nil_C0 j : nth j (@nil Cx) C0 = C0.
Proof. destruct j; reflexivity. Qed.

Lemma Csum_zero (f : nat -> Cx) l : (forall c, In c l -> f c = C0) -> Csum (map f l) = C0.
Proof.
  induction l as [|x t IH]; intro H; [reflexivity|]. cbn. unfold Csum in IH.
  rewrite IH by (intros c Hc; apply H; now right). rewrite H by (now left).
  unfold Cadd, C0, Cof. cbn. f_equal; ring.
Qed.

Lemma Csum_ext (f g : nat -> Cx) l : (forall c, In c l -> f c = g c) -> Csum (map f l) = Csum (map g l).
Proof. intro H. f_equal. apply map_ext_in. exact H. Qed.

Lemma Csum_map2_nth (r s : list Cx) :
  Csum (map2 Cmul r s) = Csum (map (fun c => Cmul (nth c r C0) (nth c s C0)) (seq 0 (length r))).
Proof.
  revert s; induction r as [|x r IH]; intros s; [reflexivity|]. destruct s as [|y s].
  - cbn [map2]. symmetry. apply Csum_zero. intros c _. destruct c; apply Cmul_C0_r.
  - cbn [length seq map map2]. rewrite <- seq_shift, map_map. unfold Csum at 1 2.
    cbn [fold_right]. f_equal. exact (IH s).
Qed.

Lemma Csum_delta_from n s c (z : nat -> Cx) :
  Csum (map (fun k => if Nat.eqb k c then z k else C0) (seq s n))
  = if ((s <=? c) && (c <? s + n))%bool then z c else C0.
Proof.
  revert s; induction n as [|n IH]; intro s.
  - rewrite Nat.add_0_r. destruct (Nat.ltb_spec c s), (Nat.leb_spec s c); try lia; reflexivity.
  - cbn [seq map]. unfold Csum at 1. cbn [fold_right]. fold (Csum (map (fun k => if Nat.eqb k c then z k else C0) (seq (S s) n))).
    rewrite IH. destruct (Nat.eqb_spec s c) as [->|Hne].
    + replace ((S c <=? c)%nat) with false by (symmetry; apply Nat.leb_gt; lia).
      replace ((c <=? c)%nat && (c <? c + S n)%nat)%bool with true
        by (symmetry; apply andb_true_intro; split; [apply Nat.leb_le|apply Nat.ltb_lt]; lia).
      cbn. unfold Cadd, C0, Cof. destruct (z c). cbn. f_equal; ring.
    + replace ((S s <=? c)%nat && (c <? S s + n)%nat)%bool
        with ((s <=? c)%nat && (c <? s + S n)%nat)%bool.
      * destruct (_ && _)%bool; unfold Cadd, C0, Cof; [destruct (z c)|]; cbn; f_equal; ring.
      * destruct (Nat.leb_spec (S s) c), (Nat.leb_spec s c), (Nat.ltb_spec c (S s + n)),
          (Nat.ltb_spec c (s + S n)); cbn; try reflexivity; lia.
Qed.

Lemma Csum_delta n c (z : nat -> Cx) :
  Csum (map (fun k => if Nat.eqb k c then z k else C0) (seq 0 n)) = if (c <? n)%nat then z c else C0.
Proof. rewrite Csum_delta_from. reflexivity. Qed.

Lemma cmatmul_nth (X Y : cmat) i j :
  nth j (nth i (cmatmul X Y) []) C0
  = if (j <? ncols Y)%nat
    then Csum (map (fun k => Cmul (nth k (nth i X []) C0) (nth j (nth k Y []) C0))
                   (seq 0 (length (nth i X []))))
    else C0.
Proof.
  unfold cmatmul. destruct (Nat.lt_ge_cases i (length X)) as [Hi|Hi].
  - rewrite (nth_map_lt _ _ _ _ []) by exact Hi. unfold transpose.
    destruct (Nat.ltb_spec j (ncols Y)) as [Hj|Hj].
    + rewrite map_map. rewrite (nth_map_lt _ _ _ _ O) by (rewrite length_seq; exact Hj).
      rewrite seq_nth by exact Hj. cbn [plus]. rewrite Csum_map2_nth.
      apply Csum_ext. intros k _. f_equal.
      destruct (Nat.lt_ge_cases k (length Y)) as [Hk|Hk].
      * rewrite (nth_map_lt _ _ _ _ []) by exact Hk. reflexivity.
      * rewrite nth_overflow by (rewrite length_map; lia).
        rewrite (nth_overflow Y) by lia. symmetry. apply nth_nil_C0.
    + apply nth_overflow. rewrite !length_map, length_seq. exact Hj.
  - rewrite (nth_overflow (map _ X)) by (rewrite length_map; lia).
    rewrite (nth_overflow X) by lia. cbn [length seq map].
    destruct (j <? ncols Y)%nat; apply nth_nil_C0.
Qed.

Lemma length_nth_cmatmul (X Y : cmat) i :
  (i < length X)%nat -> length (nth i (cmatmul X Y) []) = ncols Y.
Proof.
  intro Hi. unfold cmatmul. rewrite (nth_map_lt _ _ _ _ []) by exact Hi.
  unfold transpose. rewrite !length_map, length_seq. reflexivity.
Qed.

Lemma ncols_cmatmul (X Y : cmat) : X <> [] -> ncols (cmatmul X Y) = ncols Y.
Proof.
  destruct X as [|r X]; [congruence|]. intros _. cbn. unfold transpose.
  rewrite !length_map, length_seq. reflexivity.
Qed.

Lemma nth_diag (g : list Cx) k c :
  nth c (nth k (diag C0 g) []) C0 = if (Nat.eqb k c && (k <? length g))%bool then nth k g C0 else C0.
Proof.
  unfold diag. destruct (Nat.ltb_spec k (length g)) as [Hk|Hk].
  - rewrite (nth_map_lt _ _ _ _ O) by (rewrite length_seq; exact Hk). rewrite seq_nth by exact Hk.
    destruct (Nat.lt_ge_cases c (length g)) as [Hc|Hc].
    + rewrite (nth_map_lt _ _ _ _ O) by (rewrite length_seq; exact Hc). rewrite seq_nth by exact Hc.
      cbn [plus]. rewrite Bool.andb_true_r. reflexivity.
    + rewrite nth_overflow by (rewrite length_map, length_seq; exact Hc).
      destruct (Nat.eqb_spec k c); [lia|reflexivity].
  - rewrite (nth_overflow (map _ (seq 0 (length g)))) by (rewrite length_map, length_seq; exact Hk).
    rewrite ?Bool.andb_false_r. apply nth_nil_C0.
Qed.

Lemma ncols_diag {A : Type} (z : A) g : ncols (diag z g) = length g.
Proof.
  unfold diag. destruct (length g) as [|n] eqn:E; [reflexivity|].
  cbn. rewrite length_map, length_seq. reflexivity.
Qed.

Lemma length_diag {A : Type} (z : A) g : length (diag z g) = length g.
Proof. unfold diag. rewrite length_map, length_seq. reflexivity. Qed.

Lemma length_nth_diag {A : Type} (z : A) g k :
  (k < length g)%nat -> length (nth k (diag z g) []) = length g.
Proof.
  intro Hk. unfold diag. rewrite (nth_map_lt _ _ _ _ O) by (rewrite length_seq; exact Hk).
  rewrite length_map, length_seq. reflexivity.
Qed.

Lemma cmat_of_diag dv : cmat_of (diag 0 dv) = diag C0 (map Cof dv).
Proof.
  unfold cmat_of, diag. rewrite length_map, map_map. apply map_ext. intro i.
  rewrite map_map. apply map_ext. intro j. destruct (Nat.eqb i j); [|reflexivity].
  change C0 with (Cof 0). rewrite map_nth. reflexivity.
Qed.

Lemma nth_transpose (A : cmat) c j :
  nth j (nth c (transpose C0 A) []) C0 = if (c <? ncols A)%nat then nth c (nth j A []) C0 else C0.
Proof.
  unfold transpose. destruct (Nat.ltb_spec c (ncols A)) as [Hc|Hc].
  - rewrite (nth_map_lt _ _ _ _ O) by (rewrite length_seq; exact Hc). rewrite seq_nth by exact Hc.
    cbn [plus]. destruct (Nat.lt_ge_cases j (length A)) as [Hj|Hj].
    + rewrite (nth_map_lt _ _ _ _ []) by exact Hj. reflexivity.
    + rewrite nth_overflow by (rewrite length_map; lia).
      rewrite (nth_overflow A) by lia. symmetry. apply nth_nil_C0.
  - rewrite (nth_overflow (map _ (seq 0 (ncols A)))) by (rewrite length_map, length_seq; exact Hc).
    apply nth_nil_C0.
Qed.

Lemma ncols_transpose (A : cmat) : ncols (transpose C0 A) = if (ncols A =? 0)%nat then O else length A.
Proof.
  unfold transpose. destruct (ncols A) as [|m]; [reflexivity|]. cbn. apply length_map.
Qed.

Lemma length_transpose_c (A : cmat) : length (transpose C0 A) = ncols A.
Proof. unfold transpose. rewrite length_map, length_seq. reflexivity. Qed.

Lemma Cmul_comm z u : Cmul z u = Cmul u z.
Proof. unfold Cmul. f_equal; ring. Qed.

Lemma Cmul_swap3 a g b : Cmul (Cmul a g) b = Cmul (Cmul b g) a.
Proof. unfold Cmul. cbn. f_equal; ring. Qed.

Lemma Cmul_assoc_c a b c : Cmul (Cmul a b) c = Cmul a (Cmul b c).
Proof. unfold Cmul. cbn. f_equal; ring. Qed.

(** Right multiplication by [np.diag dc] scales column [j] by [dc[j]]. *)
Lemma cmatmul_diag_r (E : cmat) (dc : list Cx) i j :
  (j < length dc)%nat ->
  nth j (nth i (cmatmul E (diag C0 dc)) []) C0 = Cmul (nth j (nth i E []) C0) (nth j dc C0).
Proof.
  intro Hj. rewrite cmatmul_nth, ncols_diag.
  replace (j <? length dc)%nat with true by (symmetry; apply Nat.ltb_lt; exact Hj).
  rewrite (Csum_ext _ (fun k => if Nat.eqb k j then Cmul (nth k (nth i E []) C0) (nth k dc C0) else C0)).
  - rewrite Csum_delta. destruct (Nat.ltb_spec j (length (nth i E []))); [reflexivity|].
    rewrite nth_overflow by lia. symmetry. apply Cmul_C0_l.
  - intros k _. rewrite nth_diag. destruct (Nat.eqb_spec k j) as [->|]; cbn [andb].
    + replace (j <? length dc)%nat with true by (symmetry; apply Nat.ltb_lt; exact Hj). reflexivity.
    + apply Cmul_C0_r.
Qed.

(** Left multiplication by [np.diag dc] scales row [i] by [dc[i]]. *)
Lemma cmatmul_diag_l (dc : list Cx) (Y : cmat) i j :
  (i < length dc)%nat ->
  nth j (nth i (cmatmul (diag C0 dc) Y) []) C0
  = if (j <? ncols Y)%nat then Cmul (nth i dc C0) (nth j (nth i Y []) C0) else C0.
Proof.
  intro Hi. rewrite cmatmul_nth. destruct (j <? ncols Y)%nat; [|reflexivity].
  rewrite length_nth_diag by exact Hi.
  rewrite (Csum_ext _ (fun k => if Nat.eqb k i then Cmul (nth i dc C0) (nth j (nth k Y []) C0) else C0)).
  - rewrite Csum_delta. replace (i <? length dc)%nat with true by (symmetry; apply Nat.ltb_lt; exact Hi).
    reflexivity.
  - intros k _. rewrite nth_diag. destruct (Nat.eqb_spec i k) as [->|Hne].
    + rewrite Nat.eqb_refl. replace (k <? length dc)%nat with true by (symmetry; apply Nat.ltb_lt; exact Hi).
      reflexivity.
    + cbn [andb]. replace (Nat.eqb k i) with false by (symmetry; apply Nat.eqb_neq; lia).
      apply Cmul_C0_l.
Qed.

(** The entries of [Vv1 @ diag(g) @ Vv1.T]. *)
Lemma gram_entry (A : cmat) (g : list Cx) i j :
  (i < length A)%nat -> (j < length A)%nat -> (ncols A <> 0)%nat ->
  nth j (nth i (cmatmul (cmatmul A (diag C0 g)) (transpose C0 A)) []) C0
  = Csum (map (fun c => Cmul (Cmul (nth c (nth i A []) C0) (nth c g C0))
                             (if (c <? ncols A)%nat then nth c (nth j A []) C0 else C0))
              (seq 0 (length g))).
Proof.
  intros Hi Hj Hc. rewrite cmatmul_nth, ncols_transpose.
  replace (ncols A =? 0)%nat with false by (symmetry; apply Nat.eqb_neq; exact Hc).
  replace (j <? length A)%nat with true by (symmetry; apply Nat.ltb_lt; exact Hj).
  rewrite length_nth_cmatmul by exact Hi. rewrite ncols_diag.
  apply Csum_ext. intros c Hin. apply in_seq in Hin.
  rewrite cmatmul_diag_r by lia. rewrite nth_transpose. reflexivity.
Qed.

Lemma gram_symmetric (A : cmat) (g : list Cx) i j :
  (i < length A)%nat -> (j < length A)%nat -> (ncols A <> 0)%nat ->
  nth j (nth i (cmatmul (cmatmul A (diag C0 g)) (transpose C0 A)) []) C0
  = nth i (nth j (cmatmul (cmatmul A (diag C0 g)) (transpose C0 A)) []) C0.
Proof.
  intros Hi Hj Hc. rewrite !gram_entry by assumption. apply Csum_ext. intros c _.
  destruct (c <? ncols A)%nat; [apply Cmul_swap3|rewrite !Cmul_C0_r; reflexivity].
Qed.

Lemma gram_ncols (A : cmat) (g : list Cx) :
  A <> [] ->
  ncols (cmatmul (cmatmul A (diag C0 g)) (transpose C0 A))
  = if (ncols A =? 0)%nat then O else length A.
Proof.
  intro HA. rewrite ncols_cmatmul, ncols_transpose; [reflexivity|].
  destruct A; [congruence|]. discriminate.
Qed.

(** [diag(1/den) @ FC @ diag(1/den)] with [FC = Vv1 @ diag(g) @ Vv1.T] is
    symmetric. *)
Lemma scaled_gram_symmetric (A : cmat) (g : list Cx) (dv : list R) i j :
  length dv = length A -> (i < length A)%nat -> (j < length A)%nat ->
  let FC := cmatmul (cmatmul A (diag C0 g)) (transpose C0 A) in
  let Dn := cmat_of (diag 0 dv) in
  nth j (nth i (cmatmul (cmatmul Dn FC) Dn) []) C0
  = nth i (nth j (cmatmul (cmatmul Dn FC) Dn) []) C0.
Proof.
  intros Hl Hi Hj FC Dn. subst FC Dn. rewrite cmat_of_diag.
  assert (HA : A <> []) by (destruct A; cbn in Hi; [lia|discriminate]).
  rewrite !cmatmul_diag_r by (rewrite length_map; lia).
  rewrite !cmatmul_diag_l by (rewrite length_map; lia).
  rewrite gram_ncols by exact HA.
  destruct (Nat.eqb_spec (ncols A) 0) as [H0|H0].
  - cbn. rewrite !Cmul_C0_l. reflexivity.
  - replace (j <? length A)%nat with true by (symmetry; apply Nat.ltb_lt; exact Hj).
    replace (i <? length A)%nat with true by (symmetry; apply Nat.ltb_lt; exact Hi).
    rewrite (gram_symmetric A g i j Hi Hj H0).
    apply Cmul_swap3.
Qed.

(** Whenever [network_transfer_function] returns, its functional
    connectivity [FCmodel = diag(1/den) @ (Vv1 @ diag(freqresp[1:K]**2) @ Vv1.T)
    @ diag(1/den)] is symmetric between any two regions whose responses are
    nonzero, i.e. whose [1/den] is finite: [FCmodel[i][j] = FCmodel[j][i]].
    (A region with [freqresp_out[i] = 0] gets [1/den = inf] in numpy and
    [nan] entries in its row and column; it is excluded here.) *)
Theorem ntf_FCmodel_symmetric eig C D w tau_e tau_i alpha speed gei gii tauC o :
  network_transfer_function eig C D w tau_e tau_i alpha speed gei gii tauC = Some o ->
  forall i j, (i < length (Vv o))%nat -> (j < length (Vv o))%nat ->
    Cabs (nth i (freqresp_out o) C0) <> 0 -> Cabs (nth j (freqresp_out o) C0) <> 0 ->
    nth j (nth i (FCmodel o) []) C0 = nth i (nth j (FCmodel o) []) C0.
Proof.
  unfold network_transfer_function, use_smalleigs. cbv zeta iota beta.
  destruct (eig (laplacian C D w speed)) as [d v].
  destruct (sorted_modes d v (numsmalleigs (length C))) as [ev0 V].
  destruct (freqresp_of _ _) as [fr|]; [|discriminate]. cbv iota beta.
  destruct (accum_modes fr V (seq 1 (numsmalleigs (length C) - 1)) RScalar0) as [[|a]|] eqn:E;
    try discriminate.
  intro H. injection H as <-. cbn [FCmodel Vv]. intros i j Hi Hj _ _.
  destruct (accum_modes_scalar _ _ _ _ E) as [Hl _].
  apply scaled_gram_symmetric; rewrite ?length_map; lia.
Qed.

(** *** A sample input with nonzero regional responses *)

Lemma insert_idx_const (key : nat -> R) i l :
  (forall j, In j l -> key i = key j) -> insert_idx key i l = l ++ [i].
Proof.
  intro Hk. induction l as [|j t IH]; [reflexivity|]. cbn [insert_idx].
  destruct (Rlt_dec (key i) (key j)) as [Hlt|_].
  - rewrite (Hk j (or_introl eq_refl)) in Hlt. exfalso. exact (Rlt_irrefl _ Hlt).
  - rewrite IH by (intros x Hx; apply Hk; now right). reflexivity.
Qed.

(** With equal keys the stable [argsort] is the identity order. *)
Lemma argsort_const (key : nat -> R) n :
  (forall a b, (a < n)%nat -> (b < n)%nat -> key a = key b) -> argsort key n = seq 0 n.
Proof.
  intro Hk. unfold argsort.
  assert (G : forall m s acc, (s + m <= n)%nat -> (forall x, In x acc -> (x < s)%nat) ->
            fold_left (fun acc i => insert_idx key i acc) (seq s m) acc = acc ++ seq s m).
  { induction m as [|m IH]; intros s acc Hsm Hacc; [cbn; rewrite app_nil_r; reflexivity|].
    cbn [seq fold_left].
    rewrite insert_idx_const by (intros x Hx; apply Hk; [lia|]; specialize (Hacc x Hx); lia).
    rewrite IH.
    + rewrite <- app_assoc. reflexivity.
    + lia.
    + intros x Hx. apply in_app_or in Hx as [Hx|[<-|[]]]; [specialize (Hacc x Hx); lia|lia].
  }
  rewrite G by (cbn; lia || contradiction). reflexivity.
Qed.

(** The edgeless connectome's Laplacian is [0.8 I]: [eig_diag] returns the
    constant spectrum [0.8] and the identity. *)
Lemma eig_diag_edgeless w speed :
  eig_diag (laplacian (zeros 4) (zeros 4) w speed) = (repeat (Cof 0.8) 4, cident 4).
Proof.
  assert (Hl : length (laplacian (zeros 4) (zeros 4) w speed) = 4%nat) by reflexivity.
  destruct (zeros_square 4) as [H1 H2].
  assert (He : forall i, (i < 4)%nat ->
     nth i (nth i (laplacian (zeros 4) (zeros 4) w speed) []) C0 = Cof 0.8).
  { intros i Hi. rewrite (laplacian_entry _ _ _ _ 4) by assumption.
    rewrite Nat.eqb_refl.
    replace (nth i (nth i (zeros 4) []) 0) with 0 by (symmetry; apply (zeros_get 4 i i)).
    unfold Csub, Cmul, Cof. cbn [re im]. f_equal; ring. }
  unfold eig_diag. rewrite Hl. unfold cident. f_equal.
  cbn [seq map repeat]. rewrite !He by lia. reflexivity.
Qed.

Lemma Cadd_Cof x y : Cadd (Cof x) (Cof y) = Cof (x + y).
Proof. unfold Cadd, Cof. cbn. f_equal. ring. Qed.

Lemma Cmul_Cof x y : Cmul (Cof x) (Cof y) = Cof (x * y).
Proof. unfold Cmul, Cof. cbn. f_equal; ring. Qed.

Lemma Cdiv_Cof x y : y <> 0 -> Cdiv (Cof x) (Cof y) = Cof (x / y).
Proof. intro Hy. unfold Cdiv, Cof. cbn. f_equal; field; exact Hy. Qed.

Lemma Cmul_Ci_Cof0 : Cmul Ci (Cof 0) = Cof 0.
Proof. unfold Cmul, Ci, Cof. cbn. f_equal; ring. Qed.

Lemma Cabs_Cof x : x <> 0 -> Cabs (Cof x) <> 0.
Proof.
  intros Hx H. apply Cabs_zero in H. unfold C0, Cof in H. injection H as H. exact (Hx H).
Qed.

Lemma Cabs_neq_C0 z : z <> C0 -> Cabs z <> 0.
Proof. intros Hz H. exact (Hz (Cabs_zero z H)). Qed.

Lemma Cdiv_nonzero z u : Cabs z <> 0 -> Cabs u <> 0 -> Cabs (Cdiv z u) <> 0.
Proof.
  intros Hz Hu. apply Cabs_neq_C0. intro H.
  destruct z as [a b], u as [c d]. unfold Cdiv, C0, Cof in H. cbn [re im] in H.
  injection H as H1 H2.
  assert (Hn : c * c + d * d <> 0).
  { intro Hn. apply Hu. unfold Cabs. cbn [re im]. rewrite Hn. apply sqrt_0. }
  assert (E1 : a * c + b * d = 0).
  { apply (Rmult_eq_reg_r (/ (c * c + d * d))); [|apply Rinv_neq_0_compat; exact Hn].
    rewrite Rmult_0_l. exact H1. }
  assert (E2 : b * c - a * d = 0).
  { apply (Rmult_eq_reg_r (/ (c * c + d * d))); [|apply Rinv_neq_0_compat; exact Hn].
    rewrite Rmult_0_l. exact H2. }
  assert (Ea : a * (c * c + d * d) = 0)
    by (replace (a * (c * c + d * d)) with (c * (a * c + b * d) - d * (b * c - a * d)) by ring;
        rewrite E1, E2; ring).
  assert (Eb : b * (c * c + d * d) = 0)
    by (replace (b * (c * c + d * d)) with (d * (a * c + b * d) + c * (b * c - a * d)) by ring;
        rewrite E1, E2; ring).
  apply Rmult_integral in Ea as [Ea|Ea]; [|contradiction].
  apply Rmult_integral in Eb as [Eb|Eb]; [|contradiction].
  apply Hz. unfold Cabs. cbn [re im]. subst. replace (0 * 0 + 0 * 0) with 0 by ring. apply sqrt_0.
Qed.

(** A clamped mode coupling [magq1 * exp(1j * angq1)] of a nonzero [q1]
    is nonzero. *)
Lemma clamp_nonzero q t a : Cabs q <> 0 -> Cabs (Cmul (Cof (Rmax (Cabs q) t)) (Cexp (Cmul Ci (Cof a)))) <> 0.
Proof.
  intro Hq. rewrite clamp_entry. apply Cabs_neq_C0. intro H.
  unfold C0, Cof in H. injection H as H1 H2.
  set (M := Rmax (Cabs q) t) in *.
  assert (HM : M <> 0).
  { pose proof (Rmax_l (Cabs q) t). pose proof (Cabs_nonneg q). fold M in H. lra. }
  assert (Hc : cos a = 0) by (apply (Rmult_eq_reg_l M); [lra|exact HM]).
  assert (Hs : sin a = 0) by (apply (Rmult_eq_reg_l M); [lra|exact HM]).
  pose proof (sin2_cos2 a) as E. rewrite Hc, Hs in E. unfold Rsqr in E. lra.
Qed.

Lemma out_region_first f g : Cabs f <> 0 -> Cabs (Cadd (Cadd (Cof 0) (Cmul f (Cof 1))) (Cmul g C0)) <> 0.
Proof.
  replace (Cadd (Cadd (Cof 0) (Cmul f (Cof 1))) (Cmul g C0)) with f; [tauto|].
  destruct f, g. unfold Cadd, Cmul, C0, Cof. cbn. f_equal; ring.
Qed.

Lemma out_region_second f g : Cabs g <> 0 -> Cabs (Cadd (Cadd (Cof 0) (Cmul f C0)) (Cmul g (Cof 1))) <> 0.
Proof.
  replace (Cadd (Cadd (Cof 0) (Cmul f C0)) (Cmul g (Cof 1))) with g; [tauto|].
  destruct f, g. unfold Cadd, Cmul, C0, Cof. cbn. f_equal; ring.
Qed.

Ltac real_nonzero := let H := fresh in intro H; field_simplify in H; lra.

Ltac cof_eval :=
  repeat (rewrite Cmul_Ci_Cof0 || rewrite Cadd_Cof || rewrite Cmul_Cof
          || (rewrite Cdiv_Cof by real_nonzero)).

Lemma He_of_edge : He_of 0 1 = Cof 1.
Proof.
  unfold He_of. cbv zeta. cof_eval. f_equal. field.
Qed.

Lemma Htotal_edge : Htotal_of 0 1 1 1 4 1 = Cof (19 / 20).
Proof.
  unfold Htotal_of, a_frac. cbv zeta. cof_eval. f_equal. replace 0.5 with (1 / 2) by lra. field.
Qed.

Lemma q1_edge :
  Cabs (Cmul (Cof (1 / 1 * 1)) (Cadd (Cmul Ci (Cof 0)) (Cmul (Cmul (Cof (1 / 1)) (He_of 0 1)) (Cof 0.8))))
  <> 0.
Proof. rewrite He_of_edge. cof_eval. apply Cabs_Cof. lra. Qed.

Lemma ntf_FCmodel_symmetric_witness :
  exists o,
    network_transfer_function eig_diag (zeros 4) (zeros 4) 0 1 1 1 5 4 1 1 = Some o /\
    (1 < length (Vv o))%nat /\ (2 < length (Vv o))%nat /\
    Cabs (nth 1 (freqresp_out o) C0) <> 0 /\ Cabs (nth 2 (freqresp_out o) C0) <> 0 /\
    nth 2 (nth 1 (FCmodel o) []) C0 = nth 1 (nth 2 (FCmodel o) []) C0.
Proof.
  assert (Hs : exists o,
    network_transfer_function eig_diag (zeros 4) (zeros 4) 0 1 1 1 5 4 1 1 = Some o /\
    (1 < length (Vv o))%nat /\ (2 < length (Vv o))%nat /\
    Cabs (nth 1 (freqresp_out o) C0) <> 0 /\ Cabs (nth 2 (freqresp_out o) C0) <> 0).
  { unfold network_transfer_function. cbv zeta. rewrite eig_diag_edgeless.
    change (numsmalleigs (length (zeros 4))) with 3%nat. cbv iota beta.
    unfold sorted_modes, use_smalleigs.
    rewrite argsort_const
      by (intros a b Ha Hb; rewrite repeat_length in Ha, Hb; rewrite !nth_repeat_lt by lia; reflexivity).
    cbn -[Cdiv Cmul Cadd He_of Htotal_of Cabs Cangle Cexp Rmax].
    eexists. split; [reflexivity|]. cbn [Vv freqresp_out length nth].
    split; [lia|]. split; [lia|]. rewrite Htotal_edge.
    split; [apply out_region_first|apply out_region_second];
      (apply Cdiv_nonzero; [apply Cabs_Cof; lra|apply clamp_nonzero, q1_edge]). }
  destruct Hs as [o [Ho [H1 [H2 [Hn1 Hn2]]]]].
  exists o. do 5 (split; [assumption|]).
  exact (ntf_FCmodel_symmetric eig_diag (zeros 4) (zeros 4) 0 1 1 1 5 4 1 1 o Ho 1 2 H1 H2 Hn1 Hn2).
Defined.
